(** * stonyx-events: the [Events] publish/subscribe bus of [src/main.js]

    The development has two layers.

    - The bus itself: the two collections of the [Events] class and the
      synchronous methods [setup], [subscribe], [once], [unsubscribe],
      [clear] and [reset], written as state-passing functions that return a
      completion (normal or thrown) together with the state they leave.
      Event names are strings, as the JSDoc of the methods types them; what
      the code checks at run time ([Array.isArray], [typeof]) is checked on
      values here too.
    - The world around the bus, needed for [emit]: handler bodies are user
      code, given as scripts of calls into the bus; [emit] runs the
      synchronous part of every handler of its snapshot, and the promises the
      handlers return are settled later by the environment.  The event loop
      is a step relation: a task runs a script to completion, a pending
      promise settles, a suspended arrow function of [emit] resumes, or
      [emit] itself resumes after its [await].
      Handlers can call [emit] themselves, without bound, so the interpreter
      takes fuel; the theorems about [emit] give the fuel for which it
      returns, for user code whose calls come back ([halts]).

    Around these two there is the class itself: the constructor, which
    makes [Events] a singleton, and the functions that the module exports,
    which forward to the singleton.  They are modelled on a store of
    objects, the [realm].

    The order is: the definitions, then the properties of the synchronous
    methods, the invariants of the world, and the properties of [emit] and
    [once]; then more about the methods, the singleton, and what an
    emission calls and changes. *)

From Stdlib Require Import Ascii String ZArith.
From stdpp Require Import gmap strings list fin_maps.

Set Warnings "-register-all,-clear-no-such-hyp".

(** ** JavaScript values *)

(** A function reference.  Identity is reference identity: a user function is
    named by a number, and every call of [once] allocates a new wrapper
    closure, named by its allocation number, which captures the event and the
    callback it was given.  (The unsubscribe closures that [subscribe]
    returns are kept apart, as [token]s: user code calls them, and a user
    function that calls one stands for the closure where it is passed
    on.) *)
Inductive fn : Type :=
| User (u : nat)
| Wrapper (id : nat) (event : string) (callback : fn).

Inductive value : Type :=
| VUndefined
| VNull
| VBoolean (b : bool)
| VNumber (z : Z)
| VString (s : string)
| VFunction (f : fn)
| VArray (elems : list value).

(** What [throw] carries: the bus only throws [new Error(message)]; reading a
    property of [undefined] raises a [TypeError]; user code throws anything. *)
Inductive exn : Type :=
| Error (message : string)
| TypeError (message : string)
| Thrown (v : value).

Inductive completion (A : Type) : Type :=
| Normal (a : A)
| Throw (e : exn).
Arguments Normal {A} a.
Arguments Throw {A} e.

Global Instance fn_eq_dec : EqDecision fn.
Proof. solve_decision. Defined.

(** [typeof v] *)
Definition typeof (v : value) : string :=
  match v with
  | VUndefined => "undefined"
  | VNull => "object"
  | VBoolean _ => "boolean"
  | VNumber _ => "number"
  | VString _ => "string"
  | VFunction _ => "function"
  | VArray _ => "object"
  end.

(** The payload of a value whose [typeof] is ["string"], resp. ["function"]. *)
Definition as_string (v : value) : option string :=
  match v with VString s => Some s | _ => None end.

Definition as_function (v : value) : option fn :=
  match v with VFunction f => Some f | _ => None end.

(** ** [Set<Function>]: insertion ordered, no duplicates *)

Definition Set_add (f : fn) (s : list fn) : list fn :=
  if decide (f ∈ s) then s else s ++ [f].

Definition Set_delete (f : fn) (s : list fn) : list fn :=
  filter (λ g, g ≠ f) s.

(** ** The [Events] object *)

(** [events : Map<string, Set<Function>>] and [registeredEvents : Set<string>].
    Neither the map nor the registry is ever iterated, so only their lookups
    matter; the subscriber sets are iterated by [emit], in insertion order. *)
Record Events : Type := mkEvents {
  events : gmap string (list fn);
  registeredEvents : gset string;
}.

(** The constructor's state. *)
Definition new_Events : Events :=
  {| events := ∅; registeredEvents := ∅ |}.

(** The closure [() => this.unsubscribe(event, callback)] that [subscribe]
    returns. *)
Record token : Type := mkToken {
  tok_event : string;
  tok_callback : fn;
}.

Definition dquote : string := String (ascii_of_nat 34) EmptyString.

(** The message of the template literal
    [`Event "${event}" is not registered. Call setup() first.`] *)
Definition not_registered_message (event : string) : string :=
  "Event " +:+ dquote +:+ event +:+ dquote +:+ " is not registered. Call setup() first.".

(** The error classes of the specification, as the errors the code throws. *)
Definition NotRegistered (event : string) : exn :=
  Error (not_registered_message event).

Definition is_NotRegistered (e : exn) : Prop :=
  ∃ event, e = NotRegistered event.

Definition is_InvalidArgument (e : exn) : Prop :=
  e = Error "setup() requires an array of event names"
  ∨ e = Error "Event names must be strings"
  ∨ e = Error "Callback must be a function".

(** A method: the completion and the state of the object afterwards. *)
Definition method (A : Type) : Type := Events → completion A * Events.

(** The body of the [for ... of] loop of [setup], for a string element. *)
Definition register (eventName : string) (this : Events) : Events :=
  {| registeredEvents := {[eventName]} ∪ registeredEvents this;
     events := match events this !! eventName with
               | Some _ => events this
               | None => <[eventName := []]> (events this)
               end |}.

Fixpoint setup_loop (eventNames : list value) : method unit :=
  λ this,
  match eventNames with
  | [] => (Normal tt, this)
  | eventName :: rest =>
      match as_string eventName with
      | None => (Throw (Error "Event names must be strings"), this)
      | Some name => setup_loop rest (register name this)
      end
  end.

Definition setup (eventNames : value) : method unit :=
  λ this,
  match eventNames with
  | VArray elems => setup_loop elems this
  | _ => (Throw (Error "setup() requires an array of event names"), this)
  end.

Definition subscribe (event : string) (callback : value) : method token :=
  λ this,
  if decide (event ∈ registeredEvents this) then
    match as_function callback with
    | None => (Throw (Error "Callback must be a function"), this)
    | Some f =>
        match events this !! event with
        | Some subscribers =>
            (Normal (mkToken event f),
             {| events := <[event := Set_add f subscribers]> (events this);
                registeredEvents := registeredEvents this |})
        | None =>
            (Throw (TypeError "Cannot read properties of undefined (reading 'add')"),
             this)
        end
    end
  else (Throw (NotRegistered event), this).

(** [once]: [id] is the identity of the wrapper closure the call allocates. *)
Definition once (id : nat) (event : string) (callback : value) : method token :=
  λ this,
  if decide (event ∈ registeredEvents this) then
    match as_function callback with
    | None => (Throw (Error "Callback must be a function"), this)
    | Some f => subscribe event (VFunction (Wrapper id event f)) this
    end
  else (Throw (NotRegistered event), this).

Definition unsubscribe (event : string) (callback : value) : method unit :=
  λ this,
  match events this !! event with
  | None => (Normal tt, this)
  | Some subscribers =>
      match callback with
      | VFunction f =>
          (Normal tt,
           {| events := <[event := Set_delete f subscribers]> (events this);
              registeredEvents := registeredEvents this |})
      | _ => (Normal tt, this)
      end
  end.

Definition clear (event : string) : method unit :=
  λ this,
  match events this !! event with
  | Some _ =>
      (Normal tt,
       {| events := <[event := []]> (events this);
          registeredEvents := registeredEvents this |})
  | None => (Normal tt, this)
  end.

Definition reset : method unit :=
  λ this, (Normal tt, {| events := ∅; registeredEvents := ∅ |}).

(** Calling an unsubscribe token. *)
Definition invoke_token (t : token) : method unit :=
  unsubscribe (tok_event t) (VFunction (tok_callback t)).

(** ** User code and promises *)

(** How a promise ends. *)
Inductive settled : Type :=
| Fulfilled
| Rejected (e : exn).

(** What an [await] waits for: something whose fate is already fixed (a value
    that is not a promise, or a promise that has settled), or a promise [p]
    that is still pending and that the environment settles later. *)
Inductive awaitable : Type :=
| Ready (s : settled)
| Deferred (p : nat).

(** How the call of a function ends. *)
Inductive outcome : Type :=
| Returns
| Throws (e : exn)
| ReturnsPromise (a : awaitable).

(** What [await f(...)] suspends on; nothing when the call threw. *)
Definition awaited (o : outcome) : option awaitable :=
  match o with
  | Returns => Some (Ready Fulfilled)
  | Throws _ => None
  | ReturnsPromise a => Some a
  end.

(** The synchronous methods, as a caller names them. *)
Inductive op : Type :=
| Setup (eventNames : value)
| Subscribe (event : string) (callback : value)
| Once (event : string) (callback : value)
| Unsubscribe (event : string) (callback : value)
| Clear (event : string)
| Reset
| Invoke (t : token).

Inductive call : Type :=
| Method (o : op)
| Emit (event : string) (args : list value).

(** What a call gives back to its caller. *)
Inductive result : Type :=
| Undefined
| Token (t : token)
| Promise (k : nat).

(** The synchronous part of a piece of user code: calls into the bus, each
    followed by whatever the code does with the answer, until it returns,
    throws or returns a promise. *)
Inductive script : Type :=
| Finish (o : outcome)
| Do (c : call) (next : completion result → script).

(** ** The world *)

Inductive caller : Type :=
| ByEmit (k : nat)
| ByWrapper (id : nat).

Record invocation : Type := mkInvocation {
  inv_caller : caller;
  inv_callee : fn;
  inv_args : list value;
}.

(** One activation of the arrow function that [emit] maps over its snapshot:
    the handler it calls, how that call ended (nothing while it runs), and
    the state of the arrow's own promise (nothing while it is pending). *)
Record arrow : Type := mkArrow {
  arrow_callback : fn;
  arrow_result : option outcome;
  arrow_done : option settled;
}.

(** One call of [emit]: its arguments, the array [Array.from(subscribers)]
    (nothing when [emit] returned at its guard), the arrows started so
    far, and whether [emit] itself has resumed after its
    [await Promise.all(promises)]. *)
Record emission : Type := mkEmission {
  em_event : string;
  em_args : list value;
  em_snapshot : option (list fn);
  em_arrows : list arrow;
  em_resumed : bool;
}.

Record world : Type := mkWorld {
  bus : Events;
  allocated : nat;
  emitted : nat;
  emissions : gmap nat emission;
  settlements : gmap nat settled;
  console : list (string * exn);
  calls : list invocation;
}.

Definition new_world : world :=
  {| bus := new_Events; allocated := 0; emitted := 0; emissions := ∅;
     settlements := ∅; console := []; calls := [] |}.

Definition set_bus (b : Events) (w : world) : world :=
  {| bus := b; allocated := allocated w; emitted := emitted w;
     emissions := emissions w; settlements := settlements w;
     console := console w; calls := calls w |}.

Definition set_emissions (m : gmap nat emission) (w : world) : world :=
  {| bus := bus w; allocated := allocated w; emitted := emitted w;
     emissions := m; settlements := settlements w;
     console := console w; calls := calls w |}.

Definition allocate (w : world) : world :=
  {| bus := bus w; allocated := S (allocated w); emitted := emitted w;
     emissions := emissions w; settlements := settlements w;
     console := console w; calls := calls w |}.

Definition log_call (c : caller) (f : fn) (args : list value) (w : world) : world :=
  {| bus := bus w; allocated := allocated w; emitted := emitted w;
     emissions := emissions w; settlements := settlements w;
     console := console w; calls := calls w ++ [mkInvocation c f args] |}.

Definition console_message (event : string) : string :=
  "Error in event handler for " +:+ dquote +:+ event +:+ dquote +:+ ":".

(** [console.error(`Error in event handler for "${event}":`, error)] *)
Definition console_error (event : string) (e : exn) (w : world) : world :=
  {| bus := bus w; allocated := allocated w; emitted := emitted w;
     emissions := emissions w; settlements := settlements w;
     console := console w ++ [(console_message event, e)]; calls := calls w |}.

Definition settle (p : nat) (s : settled) (w : world) : world :=
  {| bus := bus w; allocated := allocated w; emitted := emitted w;
     emissions := emissions w; settlements := <[p := s]> (settlements w);
     console := console w; calls := calls w |}.

(** Entering [emit]: the call gets the next emission number. *)
Definition begin_emission (em : emission) (w : world) : world :=
  {| bus := bus w; allocated := allocated w; emitted := S (emitted w);
     emissions := <[emitted w := em]> (emissions w);
     settlements := settlements w; console := console w; calls := calls w |}.

Definition update_arrows (k : nat) (g : list arrow → list arrow) (w : world) : world :=
  set_emissions
    (alter (λ em, {| em_event := em_event em; em_args := em_args em;
                     em_snapshot := em_snapshot em;
                     em_arrows := g (em_arrows em);
                     em_resumed := em_resumed em |}) k (emissions w)) w.

(** A synchronous method called on the bus of the world. *)
Definition perform (o : op) (w : world) : completion result * world :=
  match o with
  | Setup eventNames =>
      let '(c, b) := setup eventNames (bus w) in
      (match c with Normal _ => Normal Undefined | Throw e => Throw e end, set_bus b w)
  | Subscribe event callback =>
      let '(c, b) := subscribe event callback (bus w) in
      (match c with Normal t => Normal (Token t) | Throw e => Throw e end, set_bus b w)
  | Once event callback =>
      let '(c, b) := once (allocated w) event callback (bus w) in
      (match c with Normal t => Normal (Token t) | Throw e => Throw e end,
       allocate (set_bus b w))
  | Unsubscribe event callback =>
      let '(c, b) := unsubscribe event callback (bus w) in
      (match c with Normal _ => Normal Undefined | Throw e => Throw e end, set_bus b w)
  | Clear event =>
      let '(c, b) := clear event (bus w) in
      (match c with Normal _ => Normal Undefined | Throw e => Throw e end, set_bus b w)
  | Reset =>
      let '(c, b) := reset (bus w) in
      (match c with Normal _ => Normal Undefined | Throw e => Throw e end, set_bus b w)
  | Invoke t =>
      let '(c, b) := invoke_token t (bus w) in
      (match c with Normal _ => Normal Undefined | Throw e => Throw e end, set_bus b w)
  end.

Arguments perform : simpl never.

(** The rest of the arrow function
    [async (callback) => { try { await callback(...args); } catch (error) { console.error(...); } }]
    once the awaited call has ended as [s]: the state of the arrow's promise
    and the world it leaves. *)
Definition arrow_continue (event : string) (s : settled) (w : world) : settled * world :=
  match s with
  | Fulfilled => (Fulfilled, w)
  | Rejected e => (Fulfilled, console_error event e w)
  end.

(** The arrow is entered: the handler is about to be called. *)
Definition begin_arrow (k : nat) (callback : fn) (args : list value) (w : world) : world :=
  update_arrows k (λ arrows, arrows ++ [mkArrow callback None None])
    (log_call (ByEmit k) callback args w).

(** The handler's call has ended as [o]: a synchronous throw is caught at
    once, anything else suspends the arrow at its [await]. *)
Definition end_arrow (k i : nat) (event : string) (o : outcome) (w : world) : world :=
  match o with
  | Throws e =>
      let '(s, w) := arrow_continue event (Rejected e) w in
      update_arrows k (alter (λ a, mkArrow (arrow_callback a) (Some o) (Some s)) i) w
  | _ =>
      update_arrows k (alter (λ a, mkArrow (arrow_callback a) (Some o) None) i) w
  end.

(** [Promise.all]: rejected as soon as one input is, fulfilled when all are. *)
Fixpoint Promise_all (ps : list (option settled)) : option settled :=
  match ps with
  | [] => Some Fulfilled
  | p :: rest =>
      match p, Promise_all rest with
      | Some (Rejected e), _ => Some (Rejected e)
      | _, Some (Rejected e) => Some (Rejected e)
      | Some Fulfilled, Some Fulfilled => Some Fulfilled
      | _, _ => None
      end
  end.

(** The promise of [Promise.all(promises)]: there is none while the arrows
    are being started, and then it is as [Promise_all] of the arrows'
    promises says. *)
Definition all_settled (snapshot : list fn) (em : emission) : option settled :=
  if decide (length (em_arrows em) < length snapshot) then None
  else Promise_all (arrow_done <$> em_arrows em).

(** The promise [emit] returned.  An [emit] that returns at its guard has
    fulfilled it by then.  Otherwise [emit] is suspended at
    [await Promise.all(promises)] when its caller gets the promise, also
    when the snapshot is empty or every handler threw: the promise is
    pending until [emit] has resumed, and is then settled as the awaited
    promise was. *)
Definition emit_promise (em : emission) : option settled :=
  match em_snapshot em with
  | None => Some Fulfilled
  | Some snapshot => if em_resumed em then all_settled snapshot em else None
  end.

(** The fate of what an arrow awaits, when it is known. *)
Definition fate (w : world) (a : awaitable) : option settled :=
  match a with
  | Ready s => Some s
  | Deferred p => settlements w !! p
  end.

(** [emit] number [k] resumes after its [await]: the promise of
    [Promise.all(promises)] has settled. *)
Definition resume_emit (k : nat) (w : world) : option world :=
  em ← emissions w !! k;
  snapshot ← em_snapshot em;
  if em_resumed em then None
  else
    _ ← all_settled snapshot em;
    Some (set_emissions
            (<[k := mkEmission (em_event em) (em_args em) (em_snapshot em)
                      (em_arrows em) true]> (emissions w)) w).

(** Arrow [i] of emission [k] resumes after its [await]. *)
Definition resume (k i : nat) (w : world) : option world :=
  em ← emissions w !! k;
  a ← em_arrows em !! i;
  match arrow_done a with
  | Some _ => None
  | None =>
      o ← arrow_result a;
      x ← awaited o;
      s ← fate w x;
      let '(r, w) := arrow_continue (em_event em) s w in
      Some (update_arrows k (alter (λ a, mkArrow (arrow_callback a) (Some o) (Some r)) i) w)
  end.

Section Interpreter.

(** The body of user function [u], which may depend on its arguments and on
    everything that happened so far. *)
Variable behaviour : nat → list value → world → script.

Section Calls.

(** Calling a function reference. *)
Variable invoke : fn → list value → world → option (outcome * world).

Definition start_arrow (k i : nat) (event : string) (args : list value)
    (callback : fn) (w : world) : option world :=
  '(o, w) ← invoke callback args (begin_arrow k callback args w);
  Some (end_arrow k i event o w).

(** [Array.from(subscribers).map(async (callback) => ...)] from index [i]. *)
Fixpoint start_arrows (k i : nat) (event : string) (args : list value)
    (snapshot : list fn) (w : world) : option world :=
  match snapshot with
  | [] => Some w
  | callback :: rest =>
      w ← start_arrow k i event args callback w;
      start_arrows k (S i) event args rest w
  end.

(** [emit], up to the point where it returns its promise. *)
Definition emit (event : string) (args : list value) (w : world)
    : option (completion result * world) :=
  let k := emitted w in
  match events (bus w) !! event with
  | None =>
      Some (Normal (Promise k), begin_emission (mkEmission event args None [] false) w)
  | Some subscribers =>
      w ← start_arrows k 0 event args subscribers
            (begin_emission (mkEmission event args (Some subscribers) [] false) w);
      Some (Normal (Promise k), w)
  end.

Definition do_call (c : call) (w : world) : option (completion result * world) :=
  match c with
  | Method o => Some (perform o w)
  | Emit event args => emit event args w
  end.

Fixpoint run (s : script) (w : world) : option (outcome * world) :=
  match s with
  | Finish o => Some (o, w)
  | Do c next => '(r, w) ← do_call c w; run (next r) w
  end.

End Calls.

(** Calling [f]: a user function runs its script; a wrapper of [once],
    [async (...args) => { this.unsubscribe(event, wrapper); await callback(...args); }],
    removes itself, calls the callback, and gives a promise that ends as
    the callback does. *)
Fixpoint invoke (fuel : nat) (f : fn) (args : list value) (w : world)
    : option (outcome * world) :=
  match fuel with
  | 0 => None
  | S fuel =>
      match f with
      | User u => run (invoke fuel) (behaviour u args w) w
      | Wrapper id event callback =>
          let w := (perform (Unsubscribe event (VFunction f)) w).2 in
          '(o, w) ← invoke fuel callback args (log_call (ByWrapper id) callback args w);
          Some (ReturnsPromise
                  match o with
                  | Returns => Ready Fulfilled
                  | Throws e => Ready (Rejected e)
                  | ReturnsPromise a => a
                  end, w)
      end
  end.

(** The event loop: a task runs a script to completion; the environment
    settles a pending promise; an arrow whose awaited call has ended
    resumes; an [emit] whose arrows are all through resumes.

    The relation leaves the order of the continuations open: every order
    in which the job queue of JavaScript can run them is a sequence of
    steps, and so are orders that the queue, which is first-in first-out,
    excludes.  What is proved of all the worlds that the steps reach holds
    of the code; a statement that some world can be reached is made only
    where the queue cannot stand in the way, as its comment explains. *)
Inductive step : world → world → Prop :=
| step_task fuel s o w w' :
    run (invoke fuel) s w = Some (o, w') → step w w'
| step_settle p s w :
    settlements w !! p = None → step w (settle p s w)
| step_resume k i w w' :
    resume k i w = Some w' → step w w'
| step_resume_emit k w w' :
    resume_emit k w = Some w' → step w w'.

Definition reachable (w : world) : Prop := rtc step new_world w.

(** Every call of a function comes back. *)
Definition halts : Prop :=
  ∀ f args w, ∃ fuel, is_Some (invoke fuel f args w).

End Interpreter.

(** ** Derived notions used in the statements *)

(** The registry and the keys of the subscriber map agree, and a subscriber
    set holds no reference twice. *)
Definition consistent (this : Events) : Prop :=
  dom (events this) = registeredEvents this
  ∧ ∀ event subscribers, events this !! event = Some subscribers → NoDup subscribers.

(** The loop body of [setup] over a list of strings. *)
Definition register_all (names : list string) (this : Events) : Events :=
  foldl (λ acc name, register name acc) this names.

(** [s] occurs in [t]. *)
Definition mentions (s t : string) : Prop :=
  ∃ before after, t = before +:+ s +:+ after.

(** The handlers that emission [k] called, with the arguments it passed,
    in call order. *)
Definition invocations_by (k : nat) (w : world) : list (fn * list value) :=
  omap (λ c, match inv_caller c with
             | ByEmit k' =>
                 if decide (k' = k) then Some (inv_callee c, inv_args c) else None
             | ByWrapper _ => None
             end) (calls w).

(** How often [f] has been called so far, by anyone. *)
Definition times_called (f : fn) (w : world) : nat :=
  length (filter (λ c, inv_callee c = f) (calls w)).

(** The call that ended as [o] is over: it returned, threw, or the promise
    it returned has settled. *)
Definition finished (w : world) (o : outcome) : Prop :=
  match awaited o with
  | None => True
  | Some a => is_Some (fate w a)
  end.

(** The call that ended as [o] failed with [e]: it threw [e], or the promise
    it returned was rejected with [e]. *)
Definition failed (w : world) (o : outcome) (e : exn) : Prop :=
  match o with
  | Returns => False
  | Throws e' => e' = e
  | ReturnsPromise a => fate w a = Some (Rejected e)
  end.

(** An arrow whose promise has settled: it is fulfilled, its handler's call
    is over, and a failure of that call is on the console under the name of
    the event. *)
Definition arrow_ok (w : world) (event : string) (a : arrow) : Prop :=
  match arrow_done a with
  | None => True
  | Some s =>
      s = Fulfilled
      ∧ ∃ o, arrow_result a = Some o
             ∧ finished w o
             ∧ ∀ e, failed w o e → (console_message event, e) ∈ console w
  end.

(** Well-formed worlds. *)
Record wf (w : world) : Prop := mk_wf {
  wf_bus : consistent (bus w);
  wf_fresh : ∀ k, emitted w ≤ k → emissions w !! k = None;
  wf_calls : ∀ k,
    invocations_by k w
    = match emissions w !! k with
      | Some em => (λ a, (arrow_callback a, em_args em)) <$> em_arrows em
      | None => []
      end;
  wf_arrows : ∀ k em a,
    emissions w !! k = Some em → a ∈ em_arrows em → arrow_ok w (em_event em) a;
}.

(** The elementary changes a task makes to the world.  [oko] and [okf] bound
    the methods performed and the functions called; emissions numbered below
    [base] are not touched. *)
Section Prims.

Variables (oko : op → Prop) (okf : fn → Prop).

Inductive prim (base : nat) : world → world → Prop :=
| prim_perform o w :
    oko o → prim base w (perform o w).2
| prim_log id callback args w :
    okf callback → prim base w (log_call (ByWrapper id) callback args w)
| prim_begin_emission event args w :
    base ≤ emitted w →
    prim base w
      (begin_emission (mkEmission event args (events (bus w) !! event) [] false) w)
| prim_begin_arrow k em callback w :
    base ≤ k → emissions w !! k = Some em → okf callback →
    prim base w (begin_arrow k callback (em_args em) w)
| prim_end_arrow k em i o w :
    base ≤ k → emissions w !! k = Some em →
    prim base w (end_arrow k i (em_event em) o w).

(** Scripts that only perform methods in [oko]. *)
Inductive script_ok : script → Prop :=
| script_ok_finish o : script_ok (Finish o)
| script_ok_method o next :
    oko o → (∀ r, script_ok (next r)) → script_ok (Do (Method o) next)
| script_ok_emit event args next :
    (∀ r, script_ok (next r)) → script_ok (Do (Emit event args) next).

(** Every subscriber is in [okf]. *)
Definition bus_ok (w : world) : Prop :=
  ∀ event subscribers f,
    events (bus w) !! event = Some subscribers → f ∈ subscribers → okf f.

End Prims.

(** The emission [k] exists and was entered for [event] with [args]. *)
Definition header (k : nat) (event : string) (args : list value) (w : world) : Prop :=
  ∃ em, emissions w !! k = Some em ∧ em_event em = event ∧ em_args em = args.

(** No bound on the methods performed or the functions called. *)
Definition any_op : op → Prop := λ _, True.
Definition any_fn : fn → Prop := λ _, True.

(** An arrow and a later state of it: the handler and the way its call ended
    stay, and a settled arrow stays as it is. *)
Definition evolves (a a' : arrow) : Prop :=
  arrow_callback a' = arrow_callback a
  ∧ arrow_result a' = arrow_result a
  ∧ (arrow_done a = None ∨ arrow_done a' = arrow_done a).

(** Two records of one emission that differ at most in how far its arrows
    have come. *)
Definition same_dispatch (em em' : emission) : Prop :=
  em_event em' = em_event em
  ∧ em_args em' = em_args em
  ∧ em_snapshot em' = em_snapshot em
  ∧ Forall2 evolves (em_arrows em) (em_arrows em').

(** The arrow [a] once the call of its handler has ended as [o]. *)
Definition ended (o : outcome) (a : arrow) : arrow :=
  mkArrow (arrow_callback a) (Some o)
    match o with Throws _ => Some Fulfilled | _ => None end.

(** Right after [emit] has returned, the arrow [a] has called [f]: the call
    is over, and the arrow is either through (the call threw and the error
    was caught) or suspended at its [await]. *)
Definition started (a : arrow) (f : fn) : Prop :=
  ∃ o, a = ended o (mkArrow f None None).

(** The arrow [a] can run to its end: the call of its handler is over, and
    if the arrow is suspended it is suspended at its [await]. *)
Definition ready (w : world) (a : arrow) : Prop :=
  ∃ o, arrow_result a = Some o
       ∧ finished w o
       ∧ (arrow_done a = None → awaited o ≠ None).

(** [f] is user function [u], or a wrapper that ends up calling it. *)
Fixpoint fn_mentions (u : nat) (f : fn) : Prop :=
  match f with
  | User u' => u' = u
  | Wrapper _ _ callback => fn_mentions u callback
  end.

(** The method does not subscribe anything that mentions [u]. *)
Definition op_avoids (u : nat) (o : op) : Prop :=
  match o with
  | Subscribe _ (VFunction f) | Once _ (VFunction f) => ¬ fn_mentions u f
  | _ => True
  end.

(** Scripts that never call [emit]. *)
Inductive emit_free : script → Prop :=
| emit_free_finish o : emit_free (Finish o)
| emit_free_method o next :
    (∀ r, emit_free (next r)) → emit_free (Do (Method o) next).

Global Instance fn_mentions_dec u f : Decision (fn_mentions u f).
Proof. induction f; simpl; apply _. Defined.

(** Calling [f] never reaches a call of [emit]. *)
Fixpoint fn_emit_free (behaviour : nat → list value → world → script) (f : fn) : Prop :=
  match f with
  | User u => ∀ args w, emit_free (behaviour u args w)
  | Wrapper _ _ callback => fn_emit_free behaviour callback
  end.

(** The steps of the event loop whose tasks do not subscribe anything that
    mentions [u]. *)
Inductive step_avoiding (behaviour : nat → list value → world → script) (u : nat)
  : world → world → Prop :=
| avoiding_task fuel s o w w' :
    script_ok (op_avoids u) s →
    run (invoke behaviour fuel) s w = Some (o, w') → step_avoiding behaviour u w w'
| avoiding_settle p s w :
    settlements w !! p = None → step_avoiding behaviour u w (settle p s w)
| avoiding_resume k i w w' :
    resume k i w = Some w' → step_avoiding behaviour u w w'
| avoiding_resume_emit k w w' :
    resume_emit k w = Some w' → step_avoiding behaviour u w w'.

(** Of all the subscribers, only [wrapper], and only under [event], leads to
    user function [u]. *)
Definition only_wrapper (u : nat) (wrapper : fn) (event : string) (w : world) : Prop :=
  ∀ x subscribers f,
    events (bus w) !! x = Some subscribers → f ∈ subscribers → fn_mentions u f →
    f = wrapper ∧ x = event.

(** How many wrappers are around the user function. *)
Fixpoint depth (f : fn) : nat :=
  match f with
  | User _ => 0
  | Wrapper _ _ callback => S (depth callback)
  end.

(** ** A sample of user code

    Function 0 returns, function 1 throws, function 2 returns a promise that
    is still pending, function 3 subscribes another handler and emits the
    event it is handling again (unless it is itself still subscribed to it)
    and then returns a rejected promise, function 4 subscribes function 5
    while it runs. *)
Definition sample (u : nat) (args : list value) (w : world) : script :=
  match u with
  | 0 => Finish Returns
  | 1 => Finish (Throws (Error "Handler 2 failed"))
  | 2 => Finish (ReturnsPromise (Deferred 7))
  | 3 =>
      match events (bus w) !! "e" with
      | Some subscribers =>
          if existsb (λ f, bool_decide (fn_mentions 3 f)) subscribers
          then Finish Returns
          else Do (Method (Subscribe "e" (VFunction (User 0))))
                 (λ _, Do (Emit "e" args)
                         (λ _, Finish (ReturnsPromise (Ready (Rejected (Error "late"))))))
      | None => Finish Returns
      end
  | 4 => Do (Method (Subscribe "e" (VFunction (User 5)))) (λ _, Finish Returns)
  | _ => Finish Returns
  end.

(** [setup(["e", "d"])], then three subscriptions to ["e"]. *)
Definition sample_setup : script :=
  Do (Method (Setup (VArray [VString "e"; VString "d"]))) (λ _,
  Do (Method (Subscribe "e" (VFunction (User 0)))) (λ _,
  Do (Method (Subscribe "e" (VFunction (User 1)))) (λ _,
  Do (Method (Subscribe "e" (VFunction (User 2)))) (λ _,
  Do (Method (Subscribe "e" (VFunction (User 4)))) (λ _,
  Finish Returns))))).

Definition sample_world : world :=
  match run (invoke sample 1) sample_setup new_world with
  | Some (_, w) => w
  | None => new_world
  end.

(** ** A handler that emits the event it handles

    Function 0 emits ["e"] again the first time it is called, function 1
    returns. *)
Definition reentrant (u : nat) (args : list value) (w : world) : script :=
  match u with
  | 0 =>
      if decide (times_called (User 0) w ≤ 1)
      then Do (Emit "e" args) (λ _, Finish Returns)
      else Finish Returns
  | _ => Finish Returns
  end.

(** [setup(["e"])] and [subscribe("e", f0)]. *)
Definition reentrant_world : world :=
  match run (invoke reentrant 1)
          (Do (Method (Setup (VArray [VString "e"]))) (λ _,
           Do (Method (Subscribe "e" (VFunction (User 0)))) (λ _,
           Finish Returns)))
          new_world with
  | Some (_, w) => w
  | None => new_world
  end.

(** ** Repeated calls *)

(** [unsubscribe(event, f)] for every [f] of a list, and [subscribe(event, f)]
    on the bus of the world for every [f] of a list, in list order. *)
Definition unsubscribe_all (event : string) (callbacks : list fn) (this : Events) : Events :=
  foldl (λ acc f, (unsubscribe event (VFunction f) acc).2) this callbacks.

Definition subscribe_all (event : string) (callbacks : list fn) (w : world) : world :=
  foldl (λ acc f, (perform (Subscribe event (VFunction f)) acc).2) w callbacks.

(** [g] is [f], or a wrapper of [once] around a function that is. *)
Fixpoint wraps (f g : fn) : Prop :=
  g = f ∨ match g with
          | User _ => False
          | Wrapper _ _ callback => wraps f callback
          end.

Global Instance wraps_dec f g : Decision (wraps f g).
Proof. induction g; simpl; apply _. Defined.

(** ** The class and the module *)

(** [Events.instance], and the [Events] objects that a constructor call has
    initialised, by reference.  Every [new Events()] creates an object; the
    constructor initialises it and stores it in [Events.instance] when that
    is still [null], and returns the stored instance instead of it
    otherwise. *)
Record realm : Type := mkRealm {
  Events_instance : option nat;
  objects : gmap nat Events;
  created : nat;
}.

(** [static instance = null] *)
Definition new_realm : realm :=
  {| Events_instance := None; objects := ∅; created := 0 |}.

(** [new Events()]: the reference the expression evaluates to. *)
Definition constructor (r : realm) : nat * realm :=
  let this := created r in
  match Events_instance r with
  | Some instance =>
      (instance,
       {| Events_instance := Some instance; objects := objects r;
          created := S this |})
  | None =>
      (this,
       {| Events_instance := Some this;
          objects := <[this := new_Events]> (objects r);
          created := S this |})
  end.

(** A method called on the object behind a reference; nothing when the
    reference is not an [Events] object. *)
Definition call_method {A} (m : method A) (this : nat) (r : realm)
    : option (completion A * realm) :=
  b ← objects r !! this;
  let '(c, b) := m b in
  Some (c, {| Events_instance := Events_instance r;
              objects := <[this := b]> (objects r);
              created := created r |}).

(** The module: [const events = new Events();] and the exported functions
    [setup], [subscribe], [once], [unsubscribe], [clear] and [reset], each of
    which forwards its arguments to the method of [events].  ([emit] is
    exported in the same way; what it does is [emit] above, on the world
    around the one bus there is.) *)
Record module : Type := mkModule {
  module_events : nat;
}.

Definition load_module (r : realm) : module * realm :=
  let '(this, r) := constructor r in (mkModule this, r).

Inductive export : Type → Type :=
| export_setup (eventNames : value) : export unit
| export_subscribe (event : string) (callback : value) : export token
| export_once (id : nat) (event : string) (callback : value) : export token
| export_unsubscribe (event : string) (callback : value) : export unit
| export_clear (event : string) : export unit
| export_reset : export unit.

Definition forwarded {A} (x : export A) : method A :=
  match x with
  | export_setup eventNames => setup eventNames
  | export_subscribe event callback => subscribe event callback
  | export_once id event callback => once id event callback
  | export_unsubscribe event callback => unsubscribe event callback
  | export_clear event => clear event
  | export_reset => reset
  end.

Definition call_export {A} (m : module) (x : export A) (r : realm)
    : option (completion A * realm) :=
  call_method (forwarded x) (module_events m) r.

(** What a program does with the class: it constructs, and it calls methods
    on the references it holds. *)
Inductive realm_step : realm → realm → Prop :=
| realm_new r :
    realm_step r (constructor r).2
| realm_call {A} (m : method A) this r c r' :
    call_method m this r = Some (c, r') → realm_step r r'.

(** The realm holds no object before the first [new], and afterwards the one
    object that [Events.instance] refers to. *)
Definition one_instance (r : realm) : Prop :=
  match Events_instance r with
  | None => objects r = ∅
  | Some instance => dom (objects r) = {[instance]}
  end.

(** No method at all. *)
Definition no_op : op → Prop := λ _, False.

(** From [b] to [b'] nothing was registered or unregistered, no subscriber
    was added, and the only subscribers that left are wrappers of [once],
    each from the set of its own event. *)
Definition only_wrappers_left (b b' : Events) : Prop :=
  registeredEvents b' = registeredEvents b
  ∧ ∀ x, match events b !! x, events b' !! x with
         | Some l, Some l' =>
             sublist l' l
             ∧ ∀ f, f ∈ l → f ∉ l' → ∃ id callback, f = Wrapper id x callback
         | None, None => True
         | _, _ => False
         end.

(** User code that calls nothing but [emit], at a concrete example. *)
Definition quiet : nat → list value → world → script :=
  λ u args w,
  match u with
  | 0 => Do (Emit "d" args) (λ _, Finish Returns)
  | _ => Finish (Throws (Error "no"))
  end.

(** [setup(["e", "d"])], a one-time and a plain subscription to ["e"], and a
    one-time subscription to ["d"]. *)
Definition quiet_world : world :=
  match run (invoke quiet 1)
          (Do (Method (Setup (VArray [VString "e"; VString "d"]))) (λ _,
           Do (Method (Once "e" (VFunction (User 0)))) (λ _,
           Do (Method (Subscribe "e" (VFunction (User 1)))) (λ _,
           Do (Method (Once "d" (VFunction (User 1)))) (λ _,
           Finish Returns)))))
          new_world with
  | Some (_, w) => w
  | None => new_world
  end.

(** * Properties of the synchronous methods *)

Section Bus.

Implicit Types (this : Events) (event name : string) (f : fn).

Lemma register_registered name this :
  registeredEvents (register name this) = {[name]} ∪ registeredEvents this.
Proof. reflexivity. Qed.

Lemma register_lookup name this event :
  events (register name this) !! event =
    match events this !! event with
    | Some subscribers => Some subscribers
    | None => if decide (event = name) then Some [] else None
    end.
Proof.
  unfold register; simpl.
  destruct (events this !! name) as [l|] eqn:Hn.
  - destruct (events this !! event) eqn:He; [done|].
    case_decide; [congruence | done].
  - destruct (decide (event = name)) as [->|Hne].
    + rewrite lookup_insert_eq, Hn. done.
    + rewrite lookup_insert_ne by done. by destruct (events this !! event).
Qed.

Lemma register_all_registered names this :
  registeredEvents (register_all names this)
  = list_to_set names ∪ registeredEvents this.
Proof.
  revert this. induction names as [|n names IH]; intros this; simpl.
  - set_solver.
  - unfold register_all in *. simpl. rewrite IH, register_registered. set_solver.
Qed.

Lemma register_all_lookup names this event :
  events (register_all names this) !! event =
    match events this !! event with
    | Some subscribers => Some subscribers
    | None => if decide (event ∈ names) then Some [] else None
    end.
Proof.
  revert this. induction names as [|n names IH]; intros this.
  - unfold register_all; simpl. destruct (events this !! event); [done|].
    destruct (decide (event ∈ [])) as [H|H]; [by apply elem_of_nil in H | done].
  - unfold register_all in *. simpl. rewrite IH, register_lookup.
    destruct (events this !! event); [done|].
    destruct (decide (event = n)) as [->|Hne].
    + rewrite decide_True by apply list_elem_of_here. done.
    + destruct (decide (event ∈ names)) as [Hin|Hnin].
      * rewrite decide_True by (by apply list_elem_of_further). done.
      * rewrite decide_False; [done|].
        intros [?|?]%elem_of_cons; done.
Qed.

(** As long as the elements are strings the loop registers them. *)
Lemma setup_loop_strings pre rest this :
  Forall (λ v, is_Some (as_string v)) pre →
  setup_loop (pre ++ rest) this
  = setup_loop rest (register_all (omap as_string pre) this).
Proof.
  intros Hpre. revert this.
  induction Hpre as [|v pre [s Hs] _ IH]; intros this; [done|].
  simpl. rewrite Hs. simpl. apply IH.
Qed.

Lemma setup_loop_all_strings names this :
  Forall (λ v, is_Some (as_string v)) names →
  setup_loop names this = (Normal tt, register_all (omap as_string names) this).
Proof.
  intros H. rewrite <- (app_nil_r names) at 1.
  by rewrite setup_loop_strings.
Qed.

(** An array with a non-string element splits at the first such element. *)
Lemma first_non_string (names : list value) :
  (∃ v, v ∈ names ∧ as_string v = None) →
  ∃ pre v post, names = pre ++ v :: post
    ∧ Forall (λ x, is_Some (as_string x)) pre ∧ as_string v = None.
Proof.
  induction names as [|x names IH]; intros (v & Hin & Hv).
  - by apply elem_of_nil in Hin.
  - destruct (as_string x) as [s|] eqn:Hx.
    + destruct IH as (pre & v' & post & -> & Hpre & Hv').
      { apply elem_of_cons in Hin as [->|Hin]; [congruence|eauto]. }
      exists (x :: pre), v', post. split_and!; [done| |done].
      constructor; [by rewrite Hx|done].
    + exists [], x, names. by split_and!.
Qed.

Lemma Set_add_elem f (s : list fn) : f ∈ Set_add f s.
Proof.
  unfold Set_add. case_decide; [done|].
  apply elem_of_app. right. apply list_elem_of_here.
Qed.

Lemma Set_add_idemp f (s : list fn) : Set_add f (Set_add f s) = Set_add f s.
Proof.
  unfold Set_add at 1. rewrite decide_True; [done|]. apply Set_add_elem.
Qed.

Lemma Set_add_NoDup f (s : list fn) : NoDup s → NoDup (Set_add f s).
Proof.
  intros H. unfold Set_add. case_decide; [done|].
  apply NoDup_app. split_and!; [done| |apply NoDup_singleton].
  intros x Hx ->%list_elem_of_singleton. done.
Qed.

Lemma Set_delete_NoDup f (s : list fn) : NoDup s → NoDup (Set_delete f s).
Proof. apply NoDup_filter. Qed.

Lemma Set_delete_elem f g (s : list fn) : g ∈ Set_delete f s ↔ g ∈ s ∧ g ≠ f.
Proof. unfold Set_delete. rewrite list_elem_of_filter. tauto. Qed.

Lemma Set_delete_absent f (s : list fn) : f ∉ s → Set_delete f s = s.
Proof.
  intros H. unfold Set_delete. induction s as [|g s IH]; [done|].
  rewrite filter_cons. rewrite not_elem_of_cons in H. destruct H as [H1 H2].
  rewrite decide_True by done. by rewrite IH.
Qed.

Lemma subscribe_registered event f this (subscribers : list fn) :
  event ∈ registeredEvents this →
  events this !! event = Some subscribers →
  subscribe event (VFunction f) this
  = (Normal (mkToken event f),
     {| events := <[event := Set_add f subscribers]> (events this);
        registeredEvents := registeredEvents this |}).
Proof.
  intros Hreg Hl. unfold subscribe. rewrite decide_True by done.
  cbn [as_function]. by rewrite Hl.
Qed.

Lemma subscribe_unregistered event callback this :
  event ∉ registeredEvents this →
  subscribe event callback this = (Throw (NotRegistered event), this).
Proof. intros H. unfold subscribe. by rewrite decide_False. Qed.

Lemma Events_eq this this' :
  events this = events this' → registeredEvents this = registeredEvents this' →
  this = this'.
Proof. destruct this, this'; simpl; by intros -> ->. Qed.

Lemma insert_same this event (l : list fn) :
  events this !! event = Some l →
  {| events := <[event := l]> (events this); registeredEvents := registeredEvents this |}
  = this.
Proof. intros H. apply Events_eq; simpl; [by apply insert_id|done]. Qed.

(** The loop of [setup] leaves the state as it was exactly when every name
    was registered and had a subscriber set. *)
Lemma register_all_unchanged (names : list string) this :
  register_all names this = this
  ↔ ∀ name, name ∈ names →
            name ∈ registeredEvents this ∧ is_Some (events this !! name).
Proof.
  split.
  - intros Heq name Hin. split.
    + rewrite <- Heq, register_all_registered. set_solver.
    + rewrite <- Heq at 1. rewrite register_all_lookup.
      destruct (events this !! name); [eauto|]. rewrite decide_True by done. eauto.
  - intros Hall. apply Events_eq.
    + apply map_eq. intros event. rewrite register_all_lookup.
      destruct (events this !! event) eqn:He; [done|].
      destruct (decide (event ∈ names)) as [Hin|Hnin]; [|done].
      destruct (Hall event Hin) as [_ [l Hl]]. congruence.
    + rewrite register_all_registered. apply set_eq. intros x.
      rewrite elem_of_union, elem_of_list_to_set. split; [|tauto].
      intros [Hin|?]; [|done]. by destruct (Hall x Hin).
Qed.

(** Each method keeps the bus consistent. *)
Lemma register_consistent name this : consistent this → consistent (register name this).
Proof.
  intros [Hdom Hnd]. split.
  - rewrite register_registered, <- Hdom. unfold register; simpl.
    destruct (events this !! name) eqn:Hn.
    + assert (name ∈ dom (events this)) by (apply elem_of_dom; eauto). set_solver.
    + by rewrite dom_insert_L.
  - intros event l. rewrite register_lookup.
    destruct (events this !! event) eqn:He.
    + intros [= <-]. eauto.
    + case_decide; [intros [= <-]; constructor | done].
Qed.

Lemma setup_loop_consistent names this :
  consistent this → consistent (setup_loop names this).2.
Proof.
  revert this. induction names as [|v names IH]; intros this H; simpl; [done|].
  destruct (as_string v); [|done]. apply IH. by apply register_consistent.
Qed.

Lemma setup_consistent names this : consistent this → consistent (setup names this).2.
Proof. destruct names; simpl; try done. apply setup_loop_consistent. Qed.

Lemma insert_consistent this event (l : list fn) :
  consistent this → is_Some (events this !! event) → NoDup l →
  consistent {| events := <[event := l]> (events this);
                registeredEvents := registeredEvents this |}.
Proof.
  intros [Hdom Hnd] Hsome Hl. split; simpl.
  - rewrite dom_insert_L, <- Hdom.
    assert (event ∈ dom (events this)) by (by apply elem_of_dom). set_solver.
  - intros e l'. destruct (decide (event = e)) as [->|Hne].
    + rewrite lookup_insert_eq. by intros [= <-].
    + rewrite lookup_insert_ne by done. eauto.
Qed.

Lemma subscribe_consistent event callback this :
  consistent this → consistent (subscribe event callback this).2.
Proof.
  intros H. unfold subscribe. case_decide; [|done].
  destruct (as_function callback); [|done].
  destruct (events this !! event) as [l|] eqn:He; [|done]. simpl.
  apply insert_consistent; [done|eauto|].
  apply Set_add_NoDup. destruct H as [_ H]. eauto.
Qed.

Lemma once_consistent id event callback this :
  consistent this → consistent (once id event callback this).2.
Proof.
  intros H. unfold once. case_decide; [|done].
  destruct (as_function callback); [|done]. by apply subscribe_consistent.
Qed.

Lemma unsubscribe_consistent event callback this :
  consistent this → consistent (unsubscribe event callback this).2.
Proof.
  intros H. unfold unsubscribe.
  destruct (events this !! event) as [l|] eqn:He; [|done].
  destruct callback; try done. simpl.
  apply insert_consistent; [done|eauto|].
  apply Set_delete_NoDup. destruct H as [_ H]. eauto.
Qed.

Lemma clear_consistent event this : consistent this → consistent (clear event this).2.
Proof.
  intros H. unfold clear.
  destruct (events this !! event) as [l|] eqn:He; [|done]. simpl.
  apply insert_consistent; [done|eauto|constructor].
Qed.

Lemma reset_consistent this : consistent (reset this).2.
Proof. split; simpl; [by rewrite dom_empty_L | intros ??; by rewrite lookup_empty]. Qed.

Lemma new_Events_consistent : consistent new_Events.
Proof. apply (reset_consistent new_Events). Qed.

End Bus.

Section BusClaims.

Implicit Types (this : Events) (event name : string) (f : fn).

Lemma append_cons (x : ascii) (a b : string) : String x a +:+ b = String x (a +:+ b).
Proof. reflexivity. Qed.

Lemma append_assoc (a b c : string) : (a +:+ b) +:+ c = a +:+ b +:+ c.
Proof. induction a as [|x a IH]; [done | by rewrite !append_cons, IH]. Qed.

Lemma not_registered_names_event event :
  mentions event (not_registered_message event).
Proof.
  exists ("Event " +:+ dquote), (dquote +:+ " is not registered. Call setup() first.").
  reflexivity.
Qed.

Lemma mentions_prefixed (s a t : string) : mentions s t → mentions s (a +:+ t).
Proof.
  intros (before & after & ->). exists (a +:+ before), after.
  by rewrite append_assoc.
Qed.

Lemma not_registered_mentions_setup event :
  mentions "setup" (not_registered_message event).
Proof.
  unfold not_registered_message.
  do 4 apply mentions_prefixed.
  by exists " is not registered. Call ", "() first.".
Qed.

(** What [emit] writes to the console names the event. *)
Lemma console_message_names_event event :
  mentions event (console_message event).
Proof.
  exists ("Error in event handler for " +:+ dquote), (dquote +:+ ":").
  reflexivity.
Qed.

Lemma console_message_says_handler event :
  mentions "Error in event handler" (console_message event).
Proof.
  exists "", (" for " +:+ dquote +:+ event +:+ dquote +:+ ":").
  reflexivity.
Qed.

(** C3, as stated, fails: [setup(["a", 1])] on a new bus throws, but ["a"]
    has been registered by then. *)
Lemma setup_registers_before_throwing :
  let names := [VString "a"; VNumber 1] in
  (∃ v, v ∈ names ∧ as_string v = None)
  ∧ (setup (VArray names) new_Events).1 = Throw (Error "Event names must be strings")
  ∧ (setup (VArray names) new_Events).2 ≠ new_Events
  ∧ "a" ∈ registeredEvents (setup (VArray names) new_Events).2
  ∧ events (setup (VArray names) new_Events).2 !! "a" = Some [].
Proof.
  split_and!.
  - exists (VNumber 1). split; [|done]. apply list_elem_of_further, list_elem_of_here.
  - reflexivity.
  - intros H. apply (f_equal (λ b, events b !! "a")) in H. vm_compute in H. discriminate.
  - vm_compute. set_solver.
  - reflexivity.
Qed.

(** C3 (amended): for every array with a non-string element, [setup]
    throws the error "Event names must be strings" synchronously, at the
    first such element.  The state it leaves is the one obtained by
    registering the string elements that precede that element: they are
    added to the registry and get an empty subscriber set where they had
    none; no existing subscriber set changes and no other name is added.
    So the state is as it was before the call exactly when every string
    before that element was registered already and had a subscriber set;
    in particular when the first element is not a string. *)
Theorem setup_throws_at_first_non_string (names : list value) this :
  (∃ v, v ∈ names ∧ as_string v = None) →
  ∃ pre v post,
    names = pre ++ v :: post
    ∧ Forall (λ x, is_Some (as_string x)) pre
    ∧ as_string v = None
    ∧ (setup (VArray names) this).1 = Throw (Error "Event names must be strings")
    ∧ is_InvalidArgument (Error "Event names must be strings")
    ∧ (setup (VArray names) this).2 = register_all (omap as_string pre) this
    ∧ registeredEvents (setup (VArray names) this).2
      = list_to_set (omap as_string pre) ∪ registeredEvents this
    ∧ (∀ event,
         events (setup (VArray names) this).2 !! event
         = match events this !! event with
           | Some subscribers => Some subscribers
           | None => if decide (event ∈ omap as_string pre) then Some [] else None
           end)
    ∧ (pre = [] → (setup (VArray names) this).2 = this)
    ∧ ((setup (VArray names) this).2 = this
       ↔ ∀ name, name ∈ omap as_string pre →
                 name ∈ registeredEvents this ∧ is_Some (events this !! name)).
Proof.
  intros H. destruct (first_non_string names H) as (pre & v & post & -> & Hpre & Hv).
  exists pre, v, post.
  assert (Hrun : setup (VArray (pre ++ v :: post)) this
                 = (Throw (Error "Event names must be strings"),
                    register_all (omap as_string pre) this)).
  { simpl. rewrite setup_loop_strings by done. simpl. by rewrite Hv. }
  rewrite Hrun; simpl. split_and!; try done.
  - right. by left.
  - apply register_all_registered.
  - intros event. apply register_all_lookup.
  - by intros ->.
  - apply register_all_unchanged.
Qed.

(** On [setup(["a", 1, "b"])]. *)
Lemma setup_throws_at_first_non_string_witness :
  ∃ pre v post,
    [VString "a"; VNumber 1; VString "b"] = pre ++ v :: post
    ∧ Forall (λ x, is_Some (as_string x)) pre
    ∧ as_string v = None
    ∧ (setup (VArray [VString "a"; VNumber 1; VString "b"]) new_Events).1
      = Throw (Error "Event names must be strings")
    ∧ is_InvalidArgument (Error "Event names must be strings")
    ∧ (setup (VArray [VString "a"; VNumber 1; VString "b"]) new_Events).2
      = register_all (omap as_string pre) new_Events
    ∧ registeredEvents (setup (VArray [VString "a"; VNumber 1; VString "b"]) new_Events).2
      = list_to_set (omap as_string pre) ∪ registeredEvents new_Events
    ∧ (∀ event,
         events (setup (VArray [VString "a"; VNumber 1; VString "b"]) new_Events).2 !! event
         = match events new_Events !! event with
           | Some subscribers => Some subscribers
           | None => if decide (event ∈ omap as_string pre) then Some [] else None
           end)
    ∧ (pre = [] →
       (setup (VArray [VString "a"; VNumber 1; VString "b"]) new_Events).2 = new_Events)
    ∧ ((setup (VArray [VString "a"; VNumber 1; VString "b"]) new_Events).2 = new_Events
       ↔ ∀ name, name ∈ omap as_string pre →
                 name ∈ registeredEvents new_Events
                 ∧ is_Some (events new_Events !! name)).
Proof.
  apply (setup_throws_at_first_non_string
           [VString "a"; VNumber 1; VString "b"] new_Events).
  exists (VNumber 1). split; [|reflexivity].
  apply list_elem_of_further, list_elem_of_here.
Defined.

(** C5: [subscribe(x, fn)] with a callable [fn] throws a NotRegistered
    error exactly when [x] is not in [registeredEvents]; the error is then
    [`Event "x" is not registered. Call setup() first.`], which names [x]
    and mentions [setup], and the state is unchanged; after [setup([x])]
    the same call returns normally and [fn] is in the subscriber set of
    [x]. *)
Theorem subscribe_gated this (x : string) f :
  ((∃ e, (subscribe x (VFunction f) this).1 = Throw e ∧ is_NotRegistered e)
     ↔ x ∉ registeredEvents this)
  ∧ (((subscribe x (VFunction f) this).1 = Throw (NotRegistered x))
     ↔ (x ∉ registeredEvents this))
  ∧ (∀ e, (subscribe x (VFunction f) this).1 = Throw e → is_NotRegistered e →
       e = Error (not_registered_message x)
       ∧ (subscribe x (VFunction f) this).2 = this)
  ∧ mentions x (not_registered_message x)
  ∧ mentions "setup" (not_registered_message x)
  ∧ (setup (VArray [VString x]) this).1 = Normal tt
  ∧ (∃ subscribers,
       (subscribe x (VFunction f) (setup (VArray [VString x]) this).2).1
       = Normal (mkToken x f)
       ∧ events (subscribe x (VFunction f) (setup (VArray [VString x]) this).2).2 !! x
         = Some subscribers
       ∧ f ∈ subscribers).
Proof.
  assert (Hcases :
    ((x ∉ registeredEvents this)
     ∧ subscribe x (VFunction f) this = (Throw (NotRegistered x), this))
    ∨ (x ∈ registeredEvents this
       ∧ ∀ e, (subscribe x (VFunction f) this).1 = Throw e → ¬ is_NotRegistered e)).
  { unfold subscribe. destruct (decide (x ∈ registeredEvents this)) as [Hin|Hnin].
    - right. split; [done|]. simpl.
      destruct (events this !! x); simpl; intros e [= <-] [ev Hev]; discriminate.
    - left. done. }
  split_and!.
  - destruct Hcases as [[Hnin Hrun]|[Hin Hno]].
    + rewrite Hrun. split; [done|]. intros _. exists (NotRegistered x).
      split; [done | by exists x].
    + split; [|done]. intros (e & He & Hnr). by destruct (Hno e He).
  - destruct Hcases as [[Hnin Hrun]|[Hin Hno]].
    + rewrite Hrun. done.
    + split; [|done]. intros He. destruct (Hno _ He). by exists x.
  - intros e He Hnr. destruct Hcases as [[Hnin Hrun]|[Hin Hno]].
    + rewrite Hrun in *. simpl in He. by injection He as <-.
    + by destruct (Hno e He).
  - apply not_registered_names_event.
  - apply not_registered_mentions_setup.
  - reflexivity.
  - change (setup (VArray [VString x]) this).2 with (register x this).
    assert (Hreg : x ∈ registeredEvents (register x this)).
    { rewrite register_registered. set_solver. }
    assert (∃ l, events (register x this) !! x = Some l) as [l Hl].
    { rewrite register_lookup. destruct (events this !! x); [eauto|].
      rewrite decide_True by done. eauto. }
    exists (Set_add f l). rewrite (subscribe_registered _ _ _ l) by done.
    simpl. rewrite lookup_insert_eq.
    split_and!; [done..|apply Set_add_elem].
Qed.

(** C6: [clear(e)] never throws; without an entry for [e] it changes
    nothing; with one it empties the subscriber set of [e], leaves the
    registry and every other subscriber set as they were, [e] is still
    registered, and [subscribe(e, fn)] succeeds right away. *)
Theorem clear_frame this event :
  consistent this →
  (clear event this).1 = Normal tt
  ∧ (events this !! event = None → (clear event this).2 = this)
  ∧ (is_Some (events this !! event) →
       events (clear event this).2 !! event = Some []
       ∧ event ∈ registeredEvents (clear event this).2
       ∧ ∀ f, (subscribe event (VFunction f) (clear event this).2).1
              = Normal (mkToken event f)
              ∧ events (subscribe event (VFunction f) (clear event this).2).2 !! event
                = Some [f])
  ∧ registeredEvents (clear event this).2 = registeredEvents this
  ∧ (∀ other, other ≠ event →
       events (clear event this).2 !! other = events this !! other).
Proof.
  intros [Hdom _]. unfold clear.
  destruct (events this !! event) as [l|] eqn:He; cbn [fst snd events registeredEvents].
  - split_and!; try done.
    + intros _.
      assert (Hreg : event ∈ registeredEvents this).
      { rewrite <- Hdom. apply elem_of_dom. eauto. }
      split_and!; [by rewrite lookup_insert_eq | done |].
      intros f. rewrite (subscribe_registered _ _ _ []);
        [|done|cbn [events]; by rewrite lookup_insert_eq].
      cbn [fst snd events registeredEvents]. by rewrite lookup_insert_eq.
    + intros other Hne. by rewrite lookup_insert_ne.
  - split_and!; try done.
Qed.

(** On a bus with two events and one subscriber. *)
Lemma clear_frame_witness :
  let this := (subscribe "e" (VFunction (User 0))
                 (setup (VArray [VString "e"; VString "d"]) new_Events).2).2 in
  (clear "e" this).1 = Normal tt
  ∧ (events this !! "e" = None → (clear "e" this).2 = this)
  ∧ (is_Some (events this !! "e") →
       events (clear "e" this).2 !! "e" = Some []
       ∧ "e" ∈ registeredEvents (clear "e" this).2
       ∧ ∀ f, (subscribe "e" (VFunction f) (clear "e" this).2).1
              = Normal (mkToken "e" f)
              ∧ events (subscribe "e" (VFunction f) (clear "e" this).2).2 !! "e"
                = Some [f])
  ∧ registeredEvents (clear "e" this).2 = registeredEvents this
  ∧ (∀ other, other ≠ "e" →
       events (clear "e" this).2 !! other = events this !! other).
Proof.
  apply (clear_frame
           (subscribe "e" (VFunction (User 0))
              (setup (VArray [VString "e"; VString "d"]) new_Events).2).2 "e").
  apply subscribe_consistent, setup_consistent, new_Events_consistent.
Defined.

(** C8, as stated, fails: a token issued before [reset()] is not a no-op
    for good.  After [reset()], [setup(["e"])] and a new
    [subscribe("e", f)], the token of the first [subscribe("e", f)] removes
    the new subscription. *)
Lemma old_token_removes_new_subscription :
  let before := (setup (VArray [VString "e"]) new_Events).2 in
  let t := mkToken "e" (User 0) in
  let after := (subscribe "e" (VFunction (User 0))
                  (setup (VArray [VString "e"])
                     (reset (subscribe "e" (VFunction (User 0)) before).2).2).2).2 in
  (subscribe "e" (VFunction (User 0)) before).1 = Normal t
  ∧ events after !! "e" = Some [User 0]
  ∧ (invoke_token t after).1 = Normal tt
  ∧ events (invoke_token t after).2 !! "e" = Some []
  ∧ (invoke_token t after).2 ≠ after.
Proof.
  split_and!; try reflexivity.
  intros H. apply (f_equal (λ b, events b !! "e")) in H. vm_compute in H. discriminate.
Qed.

(** C8 (amended): [reset()] never throws and empties the registry and the
    subscriber map; from then on [subscribe(e, fn)] throws NotRegistered for
    every [e], and succeeds again once [setup([e])] is repeated.  Calling
    an unsubscribe token never throws and never touches the registry or the
    subscribers of another event, whenever it was issued.  In the state
    [reset] leaves, and in any state in which the token's event has no
    entry or the token's handler is not subscribed to it, the call changes
    nothing; in every other state, that is once the event has been set up
    and the handler subscribed to it again, it removes the handler. *)
Theorem reset_clears_everything this :
  (reset this).1 = Normal tt
  ∧ events (reset this).2 = ∅
  ∧ registeredEvents (reset this).2 = ∅
  ∧ (∀ e f, subscribe e (VFunction f) (reset this).2
            = (Throw (NotRegistered e), (reset this).2))
  ∧ (∀ e f, (subscribe e (VFunction f)
               (setup (VArray [VString e]) (reset this).2).2).1
            = Normal (mkToken e f))
  ∧ (∀ t, invoke_token t (reset this).2 = (Normal tt, (reset this).2))
  ∧ (∀ t, invoke_token t (invoke_token t (reset this).2).2
          = (Normal tt, (reset this).2))
  ∧ (∀ t this', (invoke_token t this').1 = Normal tt)
  ∧ (∀ t this', events this' !! tok_event t = None →
                invoke_token t this' = (Normal tt, this'))
  ∧ (∀ t this',
       registeredEvents (invoke_token t this').2 = registeredEvents this'
       ∧ ∀ other, other ≠ tok_event t →
                  events (invoke_token t this').2 !! other = events this' !! other)
  ∧ (∀ t this',
       (invoke_token t this').2 = this'
       ↔ ∀ subscribers, events this' !! tok_event t = Some subscribers →
                        tok_callback t ∉ subscribers)
  ∧ (∀ t this' subscribers,
       events this' !! tok_event t = Some subscribers →
       ∃ subscribers',
         events (invoke_token t this').2 !! tok_event t = Some subscribers'
         ∧ (tok_callback t ∉ subscribers')
         ∧ (∀ g, g ≠ tok_callback t → (g ∈ subscribers' ↔ g ∈ subscribers))
         ∧ sublist subscribers' subscribers).
Proof.
  assert (Hentry : ∀ t this' l, events this' !! tok_event t = Some l →
            (invoke_token t this').2
            = {| events := <[tok_event t := Set_delete (tok_callback t) l]> (events this');
                 registeredEvents := registeredEvents this' |}).
  { intros t this' l Hl. unfold invoke_token, unsubscribe. by rewrite Hl. }
  assert (Hnone : ∀ t this', events this' !! tok_event t = None →
            invoke_token t this' = (Normal tt, this')).
  { intros t this' H. unfold invoke_token, unsubscribe. by rewrite H. }
  split_and!; try reflexivity; try exact Hnone.
  - intros e f.
    change (setup (VArray [VString e]) (reset this).2).2
      with (register e (reset this).2).
    rewrite (subscribe_registered _ _ _ []); [done| |].
    + rewrite register_registered. set_solver.
    + rewrite register_lookup. cbn [reset snd events].
      rewrite lookup_empty. by rewrite decide_True.
  - intros t this'. unfold invoke_token, unsubscribe.
    by destruct (events this' !! tok_event t).
  - intros t this'. destruct (events this' !! tok_event t) as [l|] eqn:Hl.
    + rewrite (Hentry _ _ _ Hl). split; [done|]. intros other Hne.
      cbn [events]. by rewrite lookup_insert_ne.
    + by rewrite Hnone.
  - intros t this'. destruct (events this' !! tok_event t) as [l|] eqn:Hl.
    + rewrite (Hentry _ _ _ Hl). split.
      * intros Heq subscribers [= <-] Hin.
        apply (f_equal (λ b, events b !! tok_event t)) in Heq.
        cbn [events] in Heq. rewrite lookup_insert_eq, Hl in Heq.
        injection Heq as Heq. rewrite <- Heq in Hin.
        apply Set_delete_elem in Hin as [_ Hin]. done.
      * intros Hnot. rewrite Set_delete_absent by (by apply Hnot).
        by apply insert_same.
    + rewrite Hnone by done. split; [by intros|done].
  - intros t this' subscribers Hl. rewrite (Hentry _ _ _ Hl). cbn [events].
    rewrite lookup_insert_eq. eexists. split; [done|]. split_and!.
    + rewrite Set_delete_elem. tauto.
    + intros g Hg. rewrite Set_delete_elem. tauto.
    + apply sublist_filter.
Qed.

End BusClaims.

(** * Tasks as sequences of elementary changes *)

Section TaskPrims.

Variable behaviour : nat → list value → world → script.
Variables (oko : op → Prop) (okf : fn → Prop).

Hypothesis oko_unsubscribe : ∀ event callback, oko (Unsubscribe event callback).
Hypothesis okf_callback :
  ∀ id event callback, okf (Wrapper id event callback) → okf callback.
Hypothesis oko_keeps :
  ∀ o w, oko o → bus_ok okf w → bus_ok okf (perform o w).2.
Hypothesis behaviour_ok :
  ∀ u args w, okf (User u) → script_ok oko (behaviour u args w).

Local Abbreviation prims b := (rtc (prim oko okf b)).

Lemma perform_frame o w :
  emitted (perform o w).2 = emitted w
  ∧ emissions (perform o w).2 = emissions w
  ∧ settlements (perform o w).2 = settlements w
  ∧ console (perform o w).2 = console w
  ∧ calls (perform o w).2 = calls w
  ∧ allocated w ≤ allocated (perform o w).2.
Proof.
  destruct o; unfold perform;
    repeat match goal with |- context [let '(_, _) := ?x in _] => destruct x end;
    simpl; split_and!; (done || lia).
Qed.

Lemma end_arrow_frame k i event o w :
  emitted (end_arrow k i event o w) = emitted w
  ∧ bus (end_arrow k i event o w) = bus w
  ∧ settlements (end_arrow k i event o w) = settlements w
  ∧ calls (end_arrow k i event o w) = calls w
  ∧ allocated (end_arrow k i event o w) = allocated w.
Proof. by destruct o. Qed.

Lemma prim_base_mono b b' w w' :
  b ≤ b' → prim oko okf b' w w' → prim oko okf b w w'.
Proof. intros Hb H. destruct H; econstructor; eauto; lia. Qed.

Lemma prims_base_mono b b' w w' : b ≤ b' → prims b' w w' → prims b w w'.
Proof.
  intros Hb H. induction H; [constructor|].
  econstructor; [by eapply prim_base_mono|done].
Qed.

Lemma prim_emitted b w w' : prim oko okf b w w' → emitted w ≤ emitted w'.
Proof.
  intros H. destruct H; simpl; try lia.
  - by rewrite (proj1 (perform_frame _ _)).
  - by rewrite (proj1 (end_arrow_frame _ _ _ _ _)).
Qed.

Lemma prims_emitted b w w' : prims b w w' → emitted w ≤ emitted w'.
Proof.
  induction 1 as [|w1 w2 w3 H _ IH]; [done|].
  apply prim_emitted in H. lia.
Qed.

Lemma prim_bus_ok b w w' : prim oko okf b w w' → bus_ok okf w → bus_ok okf w'.
Proof.
  intros H Hok. destruct H; try done.
  - by apply oko_keeps.
  - unfold bus_ok. by rewrite (proj1 (proj2 (end_arrow_frame _ _ _ _ _))).
Qed.

Lemma prims_bus_ok b w w' : prims b w w' → bus_ok okf w → bus_ok okf w'.
Proof. induction 1; eauto using prim_bus_ok. Qed.

Lemma update_arrows_lookup k g w k' :
  emissions (update_arrows k g w) !! k'
  = if decide (k = k') then
      (λ em, mkEmission (em_event em) (em_args em) (em_snapshot em) (g (em_arrows em))
              (em_resumed em))
        <$> emissions w !! k'
    else emissions w !! k'.
Proof.
  unfold update_arrows; simpl. case_decide as Hk.
  - subst. by rewrite lookup_alter_eq.
  - by rewrite lookup_alter_ne.
Qed.

Lemma end_arrow_lookup k i event o w k' :
  ∃ g, emissions (end_arrow k i event o w) !! k'
       = if decide (k = k') then
           (λ em, mkEmission (em_event em) (em_args em) (em_snapshot em)
                    (g (em_arrows em)) (em_resumed em)) <$> emissions w !! k'
         else emissions w !! k'.
Proof.
  destruct o; simpl; eexists; apply update_arrows_lookup.
Qed.

Lemma prim_header b k event args w w' :
  prim oko okf b w w' → k < emitted w → header k event args w → header k event args w'.
Proof.
  intros H Hk (em & Hem & <- & <-). destruct H.
  - exists em. by rewrite (proj1 (proj2 (perform_frame _ _))).
  - by exists em.
  - exists em. simpl. rewrite lookup_insert_ne by lia. done.
  - unfold header, begin_arrow. rewrite update_arrows_lookup. simpl.
    case_decide; [subst|by eauto]. rewrite Hem. simpl. eauto.
  - unfold header.
    destruct (end_arrow_lookup k0 i (em_event em0) o w k) as [g ->].
    case_decide; [subst|by eauto]. rewrite Hem. simpl. eauto.
Qed.

Lemma prims_header b k event args w w' :
  prims b w w' → k < emitted w → header k event args w → header k event args w'.
Proof.
  induction 1 as [|w1 w2 w3 H _ IH]; [done|]. intros Hk Hh.
  apply IH; [|by eapply prim_header].
  apply prim_emitted in H. lia.
Qed.

Section Open.

Variable invoke : fn → list value → world → option (outcome * world).

Hypothesis invoke_prims :
  ∀ f args w o w',
    okf f → bus_ok okf w → invoke f args w = Some (o, w') →
    prims (emitted w) w w'.

Lemma start_arrow_prims k i event args callback w w' :
  k < emitted w → header k event args w → okf callback → bus_ok okf w →
  start_arrow invoke k i event args callback w = Some w' →
  prims k w w'.
Proof.
  intros Hk Hh Hf Hok Hrun. unfold start_arrow in Hrun.
  destruct (invoke callback args (begin_arrow k callback args w))
    as [[o w1]|] eqn:Hinv; simpl in Hrun; [|done].
  injection Hrun as <-.
  assert (Hb : prim oko okf k w (begin_arrow k callback args w)).
  { destruct Hh as (em & Hem & <- & <-). by econstructor. }
  assert (H1 : prims k (begin_arrow k callback args w) w1).
  { apply (prims_base_mono _ (emitted (begin_arrow k callback args w))).
    - simpl. lia.
    - eapply invoke_prims; [done| |done]. by eapply prim_bus_ok. }
  assert (Hh1 : header k event args w1).
  { eapply prims_header; [exact H1|simpl; lia|]. by eapply prim_header. }
  eapply rtc_l; [exact Hb|]. eapply rtc_trans; [exact H1|].
  apply rtc_once. destruct Hh1 as (em & Hem & <- & <-). by econstructor.
Qed.

Lemma start_arrows_prims k i event args snapshot w w' :
  k < emitted w → header k event args w → Forall okf snapshot → bus_ok okf w →
  start_arrows invoke k i event args snapshot w = Some w' →
  prims k w w'.
Proof.
  intros Hk Hh Hfs. revert i w Hk Hh.
  induction Hfs as [|f rest Hf _ IH]; intros i w Hk Hh Hok Hrun; simpl in Hrun.
  - injection Hrun as <-. constructor.
  - destruct (start_arrow invoke k i event args f w) as [w1|] eqn:H1;
      simpl in Hrun; [|done].
    apply start_arrow_prims in H1; try done.
    eapply rtc_trans; [exact H1|].
    apply (IH (S i)); [|by eapply prims_header|by eapply prims_bus_ok|done].
    apply prims_emitted in H1. lia.
Qed.

Lemma emit_prims event args w r w' :
  bus_ok okf w → emit invoke event args w = Some (r, w') →
  prims (emitted w) w w'.
Proof.
  intros Hok Hrun. unfold emit in Hrun.
  destruct (events (bus w) !! event) as [subscribers|] eqn:He.
  - destruct (start_arrows _ _ _ _ _ _ _) as [w1|] eqn:H1; simpl in Hrun; [|done].
    injection Hrun as _ <-.
    eapply rtc_l.
    { apply (prim_begin_emission _ _ _ event args). lia. }
    rewrite He. eapply start_arrows_prims; [| | | |exact H1].
    + simpl. lia.
    + eexists. simpl. rewrite lookup_insert_eq. done.
    + apply Forall_forall. intros f Hf. by eapply Hok.
    + done.
  - injection Hrun as _ <-. apply rtc_once.
    rewrite <- He. by constructor.
Qed.

Lemma run_prims s w o w' :
  script_ok oko s → bus_ok okf w → run invoke s w = Some (o, w') →
  prims (emitted w) w w'.
Proof.
  intros Hs. revert w.
  induction Hs as [o'|op next Hop _ IH|event args next _ IH];
    intros w Hok Hrun; simpl in Hrun.
  - injection Hrun as _ <-. constructor.
  - eapply rtc_l; [by apply (prim_perform _ _ _ op)|].
    destruct (perform op w) as [r w1] eqn:Hp. simpl in *.
    assert (Hw1 : w1 = (perform op w).2) by (by rewrite Hp).
    apply (prims_base_mono _ (emitted w1)).
    { rewrite Hw1. by rewrite (proj1 (perform_frame _ _)). }
    apply (IH r); [|done]. rewrite Hw1. by apply oko_keeps.
  - destruct (emit invoke event args w) as [[r w1]|] eqn:He; simpl in Hrun; [|done].
    apply emit_prims in He; [|done].
    eapply rtc_trans; [exact He|].
    apply (prims_base_mono _ (emitted w1)); [by eapply prims_emitted|].
    apply (IH r); [by eapply prims_bus_ok|done].
Qed.

End Open.

Lemma invoke_prims fuel f args w o w' :
  okf f → bus_ok okf w → invoke behaviour fuel f args w = Some (o, w') →
  prims (emitted w) w w'.
Proof.
  revert f args w o w'.
  induction fuel as [|fuel IH]; intros f args w o w' Hf Hok Hrun; [done|].
  destruct f as [u|id event callback]; simpl in Hrun.
  - eapply run_prims; [exact IH|by apply behaviour_ok|done|exact Hrun].
  - destruct (invoke behaviour fuel callback args _) as [[o1 w1]|] eqn:H1;
      simpl in Hrun; [|done].
    injection Hrun as _ <-.
    eapply rtc_l.
    { apply (prim_perform _ _ _ (Unsubscribe event (VFunction (Wrapper id event callback)))).
      apply oko_unsubscribe. }
    eapply rtc_l.
    { apply (prim_log _ _ _ id callback args). by eapply okf_callback. }
    apply IH in H1.
    + eapply prims_base_mono; [|exact H1]. simpl.
      by rewrite (proj1 (perform_frame _ _)).
    + by eapply okf_callback.
    + apply (oko_keeps (Unsubscribe event (VFunction (Wrapper id event callback))));
        [apply oko_unsubscribe|done].
Qed.

Lemma task_prims fuel s w o w' :
  script_ok oko s → bus_ok okf w → run (invoke behaviour fuel) s w = Some (o, w') →
  prims (emitted w) w w'.
Proof. apply run_prims. intros. by eapply invoke_prims. Qed.

Lemma emit_call_prims fuel event args w r w' :
  bus_ok okf w → emit (invoke behaviour fuel) event args w = Some (r, w') →
  prims (emitted w) w w'.
Proof. apply emit_prims. intros. by eapply invoke_prims. Qed.

End TaskPrims.

(** * Well-formed worlds *)

Section WellFormed.

Lemma fmap_alter_same {A B} (f : A → B) (g : A → A) (i : nat) (l : list A) :
  (∀ x, f (g x) = f x) → f <$> alter g i l = f <$> l.
Proof.
  intros H. rewrite (list_fmap_alter f g id).
  - by apply list_alter_id.
  - apply Forall_forall. intros x _. apply H.
Qed.

Lemma invocations_by_log k c f args w :
  invocations_by k (log_call c f args w)
  = invocations_by k w
    ++ match c with
       | ByEmit k' => if decide (k' = k) then [(f, args)] else []
       | ByWrapper _ => []
       end.
Proof.
  unfold invocations_by; simpl. rewrite omap_app. f_equal.
  simpl. destruct c as [k'|id]; simpl; [|done]. by case_decide.
Qed.

Lemma fate_mono w w' a s :
  settlements w ⊆ settlements w' → fate w a = Some s → fate w' a = Some s.
Proof.
  intros Hs. destruct a as [s'|p]; simpl; [done|].
  intros H. by eapply lookup_weaken.
Qed.

Lemma finished_mono w w' o :
  settlements w ⊆ settlements w' → finished w o → finished w' o.
Proof.
  intros Hs. unfold finished. destruct (awaited o) as [a|]; [|done].
  intros [s H]. exists s. by eapply fate_mono.
Qed.

Lemma arrow_ok_mono w w' event a :
  settlements w ⊆ settlements w' →
  (∀ x, x ∈ console w → x ∈ console w') →
  arrow_ok w event a → arrow_ok w' event a.
Proof.
  intros Hs Hc. unfold arrow_ok. destruct (arrow_done a) as [s|]; [|done].
  intros (-> & o & Ho & Hfin & Hlog). split; [done|]. exists o.
  split_and!; [done|by eapply finished_mono|].
  intros e He. apply Hc, Hlog.
  destruct o as [|e'|x]; simpl in *; [done..|].
  destruct Hfin as [s Hx]. rewrite Hx.
  erewrite fate_mono in He by done. done.
Qed.

(** A change that leaves the emissions and their invocations alone. *)
Lemma wf_same w w' :
  consistent (bus w') →
  emitted w ≤ emitted w' →
  emissions w' = emissions w →
  (∀ k, invocations_by k w' = invocations_by k w) →
  settlements w ⊆ settlements w' →
  (∀ x, x ∈ console w → x ∈ console w') →
  wf w → wf w'.
Proof.
  intros Hbus Hem Hems Hinv Hs Hc [_ Hfresh Hcalls Harrows]. split.
  - done.
  - intros k Hk. rewrite Hems. apply Hfresh. lia.
  - intros k. rewrite Hinv, Hems. apply Hcalls.
  - intros k em a. rewrite Hems. intros Hk Ha.
    eapply arrow_ok_mono; eauto.
Qed.

Lemma perform_consistent o w : consistent (bus w) → consistent (bus (perform o w).2).
Proof.
  intros H. destruct o; unfold perform.
  - pose proof (setup_consistent eventNames _ H). by destruct (setup _ _).
  - pose proof (subscribe_consistent event callback _ H). by destruct (subscribe _ _ _).
  - pose proof (once_consistent (allocated w) event callback _ H).
    by destruct (once _ _ _ _).
  - pose proof (unsubscribe_consistent event callback _ H).
    by destruct (unsubscribe _ _ _).
  - pose proof (clear_consistent event _ H). by destruct (clear _ _).
  - pose proof (reset_consistent (bus w)). by destruct (reset _).
  - pose proof (unsubscribe_consistent (tok_event t) (VFunction (tok_callback t)) _ H).
    unfold invoke_token. by destruct (unsubscribe _ _ _).
Qed.

Lemma wf_new_world : wf new_world.
Proof.
  split; simpl.
  - apply new_Events_consistent.
  - intros. apply lookup_empty.
  - intros k. by rewrite lookup_empty.
  - intros k em a. by rewrite lookup_empty.
Qed.

Lemma wf_perform o w : wf w → wf (perform o w).2.
Proof.
  intros H. destruct (perform_frame o w) as (E1 & E2 & E3 & E4 & E5 & _).
  apply (wf_same w); [| | | | | |done].
  - apply perform_consistent, H.
  - lia.
  - done.
  - intros k. unfold invocations_by. by rewrite E5.
  - by rewrite E3.
  - intros x. by rewrite E4.
Qed.

Lemma wf_log id f args w : wf w → wf (log_call (ByWrapper id) f args w).
Proof.
  intros H. apply (wf_same w); try done.
  - apply H.
  - intros k. rewrite invocations_by_log. apply app_nil_r.
Qed.

Lemma wf_begin_emission event args snapshot w :
  wf w → wf (begin_emission (mkEmission event args snapshot [] false) w).
Proof.
  intros [Hbus Hfresh Hcalls Harrows]. split; simpl.
  - done.
  - intros k Hk. rewrite lookup_insert_ne by lia. apply Hfresh. lia.
  - intros k. change (invocations_by k (begin_emission _ w)) with (invocations_by k w).
    rewrite Hcalls. destruct (decide (emitted w = k)) as [<-|Hne].
    + rewrite lookup_insert_eq, Hfresh by lia. done.
    + by rewrite lookup_insert_ne.
  - intros k em a. destruct (decide (emitted w = k)) as [<-|Hne].
    + rewrite lookup_insert_eq. intros [= <-]. simpl. by intros ?%elem_of_nil.
    + rewrite lookup_insert_ne by done. apply Harrows.
Qed.

Lemma wf_begin_arrow k em callback w :
  emissions w !! k = Some em → wf w → wf (begin_arrow k callback (em_args em) w).
Proof.
  intros Hem [Hbus Hfresh Hcalls Harrows]. split.
  - done.
  - intros k' Hk'. unfold begin_arrow. rewrite update_arrows_lookup. simpl.
    rewrite Hfresh by done. by case_decide.
  - intros k'. unfold begin_arrow.
    change (invocations_by k' (update_arrows k _ ?w0)) with (invocations_by k' w0).
    rewrite invocations_by_log, update_arrows_lookup. simpl. rewrite Hcalls.
    destruct (decide (k = k')) as [<-|Hne].
    + rewrite Hem. simpl. by rewrite fmap_app.
    + apply app_nil_r.
  - intros k' em' a. unfold begin_arrow. rewrite update_arrows_lookup. simpl.
    destruct (decide (k = k')) as [<-|Hne].
    + rewrite Hem. simpl. intros [= <-]. simpl.
      intros [Ha| ->%list_elem_of_singleton]%elem_of_app; [|done].
      by apply (Harrows k em).
    + apply Harrows.
Qed.

Lemma arrow_ok_console event e event' a w :
  arrow_ok w event' a → arrow_ok (console_error event e w) event' a.
Proof.
  apply arrow_ok_mono; [done|]. intros x Hx. simpl.
  apply elem_of_app. by left.
Qed.

Lemma wf_end_arrow k em i o w :
  emissions w !! k = Some em → wf w → wf (end_arrow k i (em_event em) o w).
Proof.
  intros Hem [Hbus Hfresh Hcalls Harrows].
  set (g := λ a, mkArrow (arrow_callback a) (Some o)
                   match o with Throws _ => Some Fulfilled | _ => None end).
  set (w1 := match o with Throws e => console_error (em_event em) e w | _ => w end).
  assert (Hend : end_arrow k i (em_event em) o w = update_arrows k (alter g i) w1).
  { by destruct o. }
  assert (Hframe : bus w1 = bus w ∧ emitted w1 = emitted w
                   ∧ emissions w1 = emissions w ∧ calls w1 = calls w).
  { by destruct o. }
  destruct Hframe as (E1 & E2 & E3 & E4).
  assert (Hok1 : ∀ event a, arrow_ok w event a → arrow_ok w1 event a).
  { intros event a. destruct o; try done. apply arrow_ok_console. }
  rewrite Hend. split.
  - simpl. by rewrite E1.
  - intros k' Hk'. rewrite update_arrows_lookup, E3. simpl in Hk'. rewrite E2 in Hk'.
    rewrite Hfresh by done. by case_decide.
  - intros k'. change (invocations_by k' (update_arrows k _ w1)) with (invocations_by k' w1).
    unfold invocations_by. rewrite E4. fold (invocations_by k' w).
    rewrite update_arrows_lookup, E3, Hcalls.
    destruct (decide (k = k')) as [<-|Hne]; [|done].
    rewrite Hem. simpl. by rewrite fmap_alter_same.
  - intros k' em' a. rewrite update_arrows_lookup, E3.
    assert (Hsame : ∀ event a, arrow_ok w1 event a
                    → arrow_ok (update_arrows k (alter g i) w1) event a) by done.
    destruct (decide (k = k')) as [<-|Hne].
    + rewrite Hem. simpl. intros [= <-]. simpl. intros Ha.
      apply list_elem_of_lookup in Ha as [j Hj].
      destruct (decide (i = j)) as [<-|Hij].
      * rewrite list_lookup_alter_eq in Hj.
        destruct (em_arrows em !! i) as [a0|]; [|done].
        injection Hj as <-. unfold arrow_ok, g. simpl.
        destruct o as [|e|x]; try done.
        split; [done|]. exists (Throws e). split_and!; [done..|].
        intros e' <-. apply elem_of_app. right. apply list_elem_of_here.
      * rewrite list_lookup_alter_ne in Hj by done.
        apply Hsame, Hok1, (Harrows k em); [done|].
        by eapply list_elem_of_lookup_2.
    + intros Hk Ha. apply Hsame, Hok1. by eapply Harrows.
Qed.

Lemma wf_prim oko okf b w w' : prim oko okf b w w' → wf w → wf w'.
Proof.
  intros H Hwf. destruct H.
  - by apply wf_perform.
  - by apply wf_log.
  - by apply wf_begin_emission.
  - by apply wf_begin_arrow.
  - by apply wf_end_arrow.
Qed.

Lemma wf_prims oko okf b w w' : rtc (prim oko okf b) w w' → wf w → wf w'.
Proof. induction 1; eauto using wf_prim. Qed.

Lemma wf_settle p s w : settlements w !! p = None → wf w → wf (settle p s w).
Proof.
  intros Hp H. apply (wf_same w); try done.
  - apply H.
  - simpl. by apply insert_subseteq.
Qed.

Lemma resume_emit_spec k w w' :
  resume_emit k w = Some w' →
  ∃ em snapshot s,
    emissions w !! k = Some em
    ∧ em_snapshot em = Some snapshot
    ∧ em_resumed em = false
    ∧ all_settled snapshot em = Some s
    ∧ w' = set_emissions
             (<[k := mkEmission (em_event em) (em_args em) (em_snapshot em)
                       (em_arrows em) true]> (emissions w)) w.
Proof.
  unfold resume_emit.
  destruct (emissions w !! k) as [em|] eqn:Hem; simpl; [|done].
  destruct (em_snapshot em) as [snapshot|] eqn:Hsn; simpl; [|done].
  destruct (em_resumed em) eqn:Hr; [done|].
  destruct (all_settled snapshot em) as [s|] eqn:Hall; simpl; [|done].
  intros [= <-]. exists em, snapshot, s. by rewrite Hsn.
Qed.

Lemma wf_resume_emit k w w' : resume_emit k w = Some w' → wf w → wf w'.
Proof.
  intros (em & snapshot & s & Hem & _ & _ & _ & ->)%resume_emit_spec
    [Hbus Hfresh Hcalls Harrows].
  split; simpl.
  - done.
  - intros k' Hk'. destruct (decide (k = k')) as [<-|Hne].
    + rewrite Hfresh in Hem by done. done.
    + rewrite lookup_insert_ne by done. by apply Hfresh.
  - intros k'. change (invocations_by k' (set_emissions _ w)) with (invocations_by k' w).
    rewrite Hcalls. destruct (decide (k = k')) as [<-|Hne].
    + by rewrite lookup_insert_eq, Hem.
    + by rewrite lookup_insert_ne.
  - intros k' em' a. destruct (decide (k = k')) as [<-|Hne].
    + rewrite lookup_insert_eq. intros [= <-]. simpl. by apply (Harrows k em).
    + rewrite lookup_insert_ne by done. by apply (Harrows k').
Qed.

Lemma wf_resume k i w w' : resume k i w = Some w' → wf w → wf w'.
Proof.
  intros Hrun [Hbus Hfresh Hcalls Harrows]. unfold resume in Hrun.
  destruct (emissions w !! k) as [em|] eqn:Hem; simpl in Hrun; [|done].
  destruct (em_arrows em !! i) as [a|] eqn:Ha; simpl in Hrun; [|done].
  destruct (arrow_done a) eqn:Hdone; [done|].
  destruct (arrow_result a) as [o|] eqn:Ho; simpl in Hrun; [|done].
  destruct (awaited o) as [x|] eqn:Hx; simpl in Hrun; [|done].
  destruct (fate w x) as [s|] eqn:Hs; simpl in Hrun; [|done].
  set (g := λ a : arrow, mkArrow (arrow_callback a) (Some o) (Some Fulfilled)).
  set (w1 := match s with Rejected e => console_error (em_event em) e w | _ => w end).
  assert (Hend : w' = update_arrows k (alter g i) w1).
  { destruct s; simpl in Hrun; by injection Hrun as <-. }
  assert (Hframe : bus w1 = bus w ∧ emitted w1 = emitted w
                   ∧ emissions w1 = emissions w ∧ calls w1 = calls w
                   ∧ settlements w1 = settlements w).
  { by destruct s. }
  destruct Hframe as (E1 & E2 & E3 & E4 & E5).
  assert (Hok1 : ∀ event a, arrow_ok w event a → arrow_ok w1 event a).
  { intros event a0. destruct s; try done. apply arrow_ok_console. }
  rewrite Hend. split.
  - simpl. by rewrite E1.
  - intros k' Hk'. rewrite update_arrows_lookup, E3. simpl in Hk'. rewrite E2 in Hk'.
    rewrite Hfresh by done. by case_decide.
  - intros k'. change (invocations_by k' (update_arrows k _ w1)) with (invocations_by k' w1).
    unfold invocations_by. rewrite E4. fold (invocations_by k' w).
    rewrite update_arrows_lookup, E3, Hcalls.
    destruct (decide (k = k')) as [<-|Hne]; [|done].
    rewrite Hem. simpl. by rewrite fmap_alter_same.
  - intros k' em' a'. rewrite update_arrows_lookup, E3.
    assert (Hsame : ∀ event a, arrow_ok w1 event a
                    → arrow_ok (update_arrows k (alter g i) w1) event a) by done.
    destruct (decide (k = k')) as [<-|Hne].
    + rewrite Hem. simpl. intros [= <-]. simpl. intros Ha'.
      apply list_elem_of_lookup in Ha' as [j Hj].
      destruct (decide (i = j)) as [<-|Hij].
      * rewrite list_lookup_alter_eq, Ha in Hj. injection Hj as <-.
        unfold arrow_ok, g. simpl. split; [done|]. exists o.
        assert (Hfate : fate (update_arrows k (alter g i) w1) x = Some s).
        { destruct x; simpl in *; [done|]. by rewrite E5. }
        split_and!; [done| |].
        -- unfold finished. rewrite Hx. eauto.
        -- intros e He.
           assert (s = Rejected e) as ->.
           { destruct o as [|e'|y]; [done..|].
             cbn [awaited] in Hx. injection Hx as ->.
             pose proof (eq_trans (eq_sym Hfate) He) as Heq. by injection Heq. }
           simpl. apply elem_of_app. right. apply list_elem_of_here.
      * rewrite list_lookup_alter_ne in Hj by done.
        apply Hsame, Hok1, (Harrows k em); [done|].
        by eapply list_elem_of_lookup_2.
    + intros Hk Ha'. apply Hsame, Hok1. by eapply Harrows.
Qed.

End WellFormed.

(** * What a task leaves alone *)

Section Frames.

Variable behaviour : nat → list value → world → script.

Lemma script_ok_any s : script_ok any_op s.
Proof.
  induction s as [o|c next IH]; [constructor|].
  destruct c; by constructor.
Qed.

Lemma task_changes fuel s w o w' :
  run (invoke behaviour fuel) s w = Some (o, w') →
  rtc (prim any_op any_fn (emitted w)) w w'.
Proof.
  apply task_prims; try done.
  - intros. apply script_ok_any.
  - apply script_ok_any.
Qed.

Lemma emit_changes fuel event args w r w' :
  emit (invoke behaviour fuel) event args w = Some (r, w') →
  rtc (prim any_op any_fn (emitted w)) w w'.
Proof.
  apply emit_call_prims; try done. intros. apply script_ok_any.
Qed.

Lemma invoke_changes fuel f args w o w' :
  invoke behaviour fuel f args w = Some (o, w') →
  rtc (prim any_op any_fn (emitted w)) w w'.
Proof.
  apply invoke_prims; try done. intros. apply script_ok_any.
Qed.

Lemma prim_frame oko okf b w w' :
  prim oko okf b w w' →
  settlements w' = settlements w
  ∧ console w `prefix_of` console w'
  ∧ calls w `prefix_of` calls w'
  ∧ ∀ k, k < b →
      emissions w' !! k = emissions w !! k
      ∧ invocations_by k w' = invocations_by k w.
Proof.
  intros H. destruct H.
  - destruct (perform_frame o w) as (E1 & E2 & E3 & E4 & E5 & _).
    rewrite E2, E3, E4, E5. split_and!; try done.
    intros k _. split; [done|]. unfold invocations_by. by rewrite E5.
  - split_and!; try done.
    + by apply prefix_app_r.
    + intros k _. split; [done|]. rewrite invocations_by_log. apply app_nil_r.
  - split_and!; try done.
    intros k Hk. split; [|done]. simpl. rewrite lookup_insert_ne; [done|lia].
  - split_and!; try done.
    + by apply prefix_app_r.
    + intros k' Hk'. unfold begin_arrow. split.
      * rewrite update_arrows_lookup. rewrite decide_False by lia. done.
      * change (invocations_by k' (update_arrows k _ ?w0)) with (invocations_by k' w0).
        rewrite invocations_by_log. rewrite decide_False by lia. apply app_nil_r.
  - destruct (end_arrow_frame k i (em_event em) o w) as (E1 & E2 & E3 & E4 & E5).
    split_and!; try done.
    + destruct o; simpl; try done. by apply prefix_app_r.
    + by rewrite E4.
    + intros k' Hk'. split.
      * destruct (end_arrow_lookup k i (em_event em) o w k') as [g ->].
        rewrite decide_False by lia. done.
      * unfold invocations_by. by rewrite E4.
Qed.

Lemma prims_frame oko okf b w w' :
  rtc (prim oko okf b) w w' →
  settlements w' = settlements w
  ∧ console w `prefix_of` console w'
  ∧ calls w `prefix_of` calls w'
  ∧ ∀ k, k < b →
      emissions w' !! k = emissions w !! k
      ∧ invocations_by k w' = invocations_by k w.
Proof.
  induction 1 as [|w1 w2 w3 H _ IH]; [by split_and!|].
  apply prim_frame in H. destruct H as (H1 & H2 & H3 & H4).
  destruct IH as (I1 & I2 & I3 & I4). split_and!.
  - congruence.
  - by etrans.
  - by etrans.
  - intros k Hk. destruct (H4 k Hk) as [E1 E2]. destruct (I4 k Hk) as [E3 E4].
    split; congruence.
Qed.

Lemma evolves_refl a : evolves a a.
Proof. split_and!; auto. Qed.

Lemma evolves_trans a1 a2 a3 : evolves a1 a2 → evolves a2 a3 → evolves a1 a3.
Proof.
  intros (H1 & H2 & H3) (I1 & I2 & I3). split_and!; [congruence..|].
  destruct H3 as [H3|H3]; [by left|].
  destruct I3 as [I3|I3]; [left|right]; congruence.
Qed.

Lemma Forall2_evolves_refl l : Forall2 evolves l l.
Proof. induction l; constructor; auto using evolves_refl. Qed.

Lemma Forall2_evolves_alter (g : arrow → arrow) i l :
  (∀ a, l !! i = Some a → evolves a (g a)) →
  Forall2 evolves l (alter g i l).
Proof.
  revert i. induction l as [|a l IH]; intros i H; [constructor|].
  destruct i as [|i]; simpl.
  - constructor; [by apply H|apply Forall2_evolves_refl].
  - constructor; [apply evolves_refl|]. apply IH. intros a' Ha'. by apply H.
Qed.

Lemma same_dispatch_refl em : same_dispatch em em.
Proof. split_and!; try done. apply Forall2_evolves_refl. Qed.

Lemma same_dispatch_trans em1 em2 em3 :
  same_dispatch em1 em2 → same_dispatch em2 em3 → same_dispatch em1 em3.
Proof.
  intros (?&?&?&F1) (?&?&?&F2). split_and!; try congruence.
  revert F2. generalize (em_arrows em3). induction F1 as [|a b l k Hab _ IH];
    intros l3 F2; inversion F2; subst; constructor.
  - by eapply evolves_trans.
  - by apply IH.
Qed.

Lemma same_dispatch_callbacks em em' :
  same_dispatch em em' →
  arrow_callback <$> em_arrows em' = arrow_callback <$> em_arrows em.
Proof.
  intros (_ & _ & _ & H). induction H as [|a b l k (Hc & _) _ IH]; [done|].
  rewrite !fmap_cons. by rewrite Hc, IH.
Qed.

(** Whatever happens next, the emissions entered so far keep their
    dispatch and have called whom they have called. *)
Lemma step_frame w w' :
  step behaviour w w' →
  emitted w ≤ emitted w'
  ∧ settlements w ⊆ settlements w'
  ∧ ∀ k, k < emitted w →
      invocations_by k w' = invocations_by k w
      ∧ ∀ em, emissions w !! k = Some em →
              ∃ em', emissions w' !! k = Some em' ∧ same_dispatch em em'.
Proof.
  intros H. destruct H as [fuel s o w w' Hrun|p s w Hp|k i w w' Hrun|k w w' Hrun].
  4:{ apply resume_emit_spec in Hrun as (em & snapshot & s & Hem & _ & _ & _ & ->).
      split_and!; [done..|]. intros k' _. split; [done|]. simpl.
      intros em' Hem'. destruct (decide (k = k')) as [<-|Hne].
      - rewrite lookup_insert_eq. eexists. split; [done|].
        assert (em' = em) as -> by congruence.
        split_and!; try done. apply Forall2_evolves_refl.
      - rewrite lookup_insert_ne by done. eauto using same_dispatch_refl. }
  - apply task_changes in Hrun.
    pose proof (prims_emitted _ _ _ _ _ Hrun) as He.
    apply prims_frame in Hrun as (H1 & _ & _ & H4).
    split_and!; [done|by rewrite H1|].
    intros k Hk. destruct (H4 k Hk) as [E1 E2]. split; [done|].
    intros em Hem. rewrite E1, Hem. eauto using same_dispatch_refl.
  - split_and!; [done|by apply insert_subseteq|].
    intros k _. split; [done|]. intros em Hem. exists em.
    split; [exact Hem|apply same_dispatch_refl].
  - unfold resume in Hrun.
    destruct (emissions w !! k) as [em|] eqn:Hem; simpl in Hrun; [|done].
    destruct (em_arrows em !! i) as [a|] eqn:Ha; simpl in Hrun; [|done].
    destruct (arrow_done a) eqn:Hdone; [done|].
    destruct (arrow_result a) as [o|] eqn:Ho; simpl in Hrun; [|done].
    destruct (awaited o) as [x|] eqn:Hx; simpl in Hrun; [|done].
    destruct (fate w x) as [s|] eqn:Hs; simpl in Hrun; [|done].
    assert (∃ g w1, w' = update_arrows k (alter g i) w1
                    ∧ (∀ a, arrow_callback (g a) = arrow_callback a
                            ∧ arrow_result (g a) = Some o)
                    ∧ emitted w1 = emitted w ∧ emissions w1 = emissions w
                    ∧ calls w1 = calls w ∧ settlements w1 = settlements w)
      as (g & w1 & -> & Hg & E1 & E2 & E3 & E4).
    { destruct s; simpl in Hrun; injection Hrun as <-; by eexists _, _. }
    split_and!; [simpl; lia|simpl; by rewrite E4|].
    intros k' Hk'. split.
    { change (invocations_by k' (update_arrows k _ w1)) with (invocations_by k' w1).
      unfold invocations_by. by rewrite E3. }
    intros em' Hem'. rewrite update_arrows_lookup, E2, Hem'.
    case_decide; simpl; eexists; (split; [done|]); [|apply same_dispatch_refl].
    subst k'. assert (em' = em) as -> by congruence.
    split_and!; try done. simpl. apply Forall2_evolves_alter.
    intros a' Ha'. assert (a' = a) as -> by congruence.
    destruct (Hg a) as (Hg1 & Hg2). split_and!; [done|congruence|by left].
Qed.

Lemma steps_frame w w' :
  rtc (step behaviour) w w' →
  emitted w ≤ emitted w'
  ∧ settlements w ⊆ settlements w'
  ∧ ∀ k, k < emitted w →
      invocations_by k w' = invocations_by k w
      ∧ ∀ em, emissions w !! k = Some em →
              ∃ em', emissions w' !! k = Some em' ∧ same_dispatch em em'.
Proof.
  induction 1 as [w|w1 w2 w3 H _ IH].
  - split_and!; try done. intros k _. split; [done|].
    intros em ->. eauto using same_dispatch_refl.
  - apply step_frame in H as (H1 & H2 & H3). destruct IH as (I1 & I2 & I3).
    split_and!; [lia|by etrans|].
    intros k Hk. destruct (H3 k Hk) as [Hinv Hem].
    destruct (I3 k ltac:(lia)) as [Hinv' Hem']. split; [congruence|].
    intros em Hk1. destruct (Hem em Hk1) as (em2 & Hk2 & Hd2).
    destruct (Hem' em2 Hk2) as (em3 & Hk3 & Hd3).
    exists em3. split; [done|]. by eapply same_dispatch_trans.
Qed.

Lemma step_wf w w' : step behaviour w w' → wf w → wf w'.
Proof.
  intros H Hwf. destruct H as [fuel s o w w' Hrun|p s w Hp|k i w w' Hrun|k w w' Hrun].
  - apply task_changes in Hrun. by eapply wf_prims.
  - by apply wf_settle.
  - by eapply wf_resume.
  - by eapply wf_resume_emit.
Qed.

Lemma steps_wf w w' : rtc (step behaviour) w w' → wf w → wf w'.
Proof. induction 1; eauto using step_wf. Qed.

Lemma reachable_wf w : reachable behaviour w → wf w.
Proof. intros H. eapply steps_wf; [exact H|apply wf_new_world]. Qed.

End Frames.

(** * What [emit] does before it returns *)

Section EmitCall.

Variable behaviour : nat → list value → world → script.

Lemma end_arrow_eq k i event o w :
  end_arrow k i event o w
  = update_arrows k (alter (ended o) i)
      match o with Throws e => console_error event e w | _ => w end.
Proof. by destruct o. Qed.

Lemma alter_last {A} (g : A → A) (l : list A) (a : A) :
  alter g (length l) (l ++ [a]) = l ++ [g a].
Proof.
  rewrite <- (Nat.add_0_r (length l)). by rewrite alter_app_r.
Qed.

Lemma start_arrow_spec fuel k event args f w w' em :
  k < emitted w → emissions w !! k = Some em →
  start_arrow (invoke behaviour fuel) k (length (em_arrows em)) event args f w = Some w' →
  ∃ a, started a f
    ∧ emissions w' !! k
      = Some (mkEmission (em_event em) (em_args em) (em_snapshot em) (em_arrows em ++ [a])
                (em_resumed em))
    ∧ invocations_by k w' = invocations_by k w ++ [(f, args)]
    ∧ settlements w' = settlements w
    ∧ emitted w ≤ emitted w'.
Proof.
  intros Hk Hem Hrun. unfold start_arrow in Hrun.
  destruct (invoke behaviour fuel f args _) as [[o w1]|] eqn:Hinv;
    simpl in Hrun; [|done].
  injection Hrun as <-.
  apply invoke_changes in Hinv.
  pose proof (prims_emitted _ _ _ _ _ Hinv) as Hmono. simpl in Hmono.
  apply prims_frame in Hinv as (Hs & _ & _ & Hfr).
  destruct (Hfr k) as [Hem1 Hinv1]; [simpl; lia|].
  unfold begin_arrow in Hem1. rewrite update_arrows_lookup in Hem1.
  rewrite decide_True in Hem1 by done. simpl in Hem1. rewrite Hem in Hem1.
  simpl in Hem1.
  unfold begin_arrow in Hinv1.
  change (invocations_by k (update_arrows k _ ?w0)) with (invocations_by k w0) in Hinv1.
  rewrite invocations_by_log, decide_True in Hinv1 by done.
  exists (ended o (mkArrow f None None)). split; [by exists o|].
  rewrite end_arrow_eq.
  set (w2 := match o with Throws e => console_error event e w1 | _ => w1 end).
  assert (E : emissions w2 = emissions w1 ∧ calls w2 = calls w1
              ∧ settlements w2 = settlements w1 ∧ emitted w2 = emitted w1).
  { by destruct o. }
  destruct E as (E1 & E2 & E3 & E4).
  split_and!.
  - rewrite update_arrows_lookup, decide_True by done.
    rewrite E1, Hem1. simpl. by rewrite alter_last.
  - change (invocations_by k (update_arrows k _ w2)) with (invocations_by k w2).
    unfold invocations_by. rewrite E2. exact Hinv1.
  - simpl. by rewrite E3.
  - simpl. lia.
Qed.

Lemma start_arrows_spec fuel k event args snapshot w w' em :
  k < emitted w → emissions w !! k = Some em →
  start_arrows (invoke behaviour fuel) k (length (em_arrows em)) event args snapshot w
  = Some w' →
  ∃ new, Forall2 started new snapshot
    ∧ emissions w' !! k
      = Some (mkEmission (em_event em) (em_args em) (em_snapshot em) (em_arrows em ++ new)
                (em_resumed em))
    ∧ invocations_by k w' = invocations_by k w ++ ((λ f, (f, args)) <$> snapshot)
    ∧ settlements w' = settlements w
    ∧ emitted w ≤ emitted w'.
Proof.
  revert w em. induction snapshot as [|f rest IH]; intros w em Hk Hem Hrun;
    simpl in Hrun.
  - injection Hrun as <-. exists []. rewrite !app_nil_r.
    split_and!; try done. by destruct em.
  - destruct (start_arrow _ _ _ _ _ _ _) as [w1|] eqn:H1; simpl in Hrun; [|done].
    apply (start_arrow_spec _ _ _ _ _ _ _ em) in H1 as (a & Ha & Hem1 & Hinv1 & Hs1 & Hm1);
      [|done..].
    set (em1 := mkEmission (em_event em) (em_args em) (em_snapshot em)
                  (em_arrows em ++ [a]) (em_resumed em)) in *.
    assert (Hlen : length (em_arrows em1) = S (length (em_arrows em))).
    { simpl. rewrite length_app. simpl. lia. }
    rewrite <- Hlen in Hrun.
    destruct (IH w1 em1 ltac:(lia) Hem1 Hrun) as (new & Hnew & Hem2 & Hinv2 & Hs2 & Hm2).
    exists (a :: new). simpl in *. split_and!.
    + by constructor.
    + rewrite Hem2. by rewrite <- app_assoc.
    + rewrite Hinv2, Hinv1. by rewrite <- app_assoc.
    + congruence.
    + lia.
Qed.

Lemma emit_spec fuel event args subscribers w r w' :
  wf w → events (bus w) !! event = Some subscribers →
  emit (invoke behaviour fuel) event args w = Some (r, w') →
  r = Normal (Promise (emitted w))
  ∧ wf w'
  ∧ emitted w < emitted w'
  ∧ settlements w' = settlements w
  ∧ invocations_by (emitted w) w' = (λ f, (f, args)) <$> subscribers
  ∧ ∃ arrows,
      Forall2 started arrows subscribers
      ∧ emissions w' !! emitted w
        = Some (mkEmission event args (Some subscribers) arrows false).
Proof.
  intros Hwf He Hrun.
  assert (Hwf' : wf w') by (eapply wf_prims; [by eapply emit_changes|done]).
  unfold emit in Hrun. rewrite He in Hrun.
  destruct (start_arrows _ _ _ _ _ _ _) as [w1|] eqn:H1; simpl in Hrun; [|done].
  injection Hrun as <- <-.
  apply (start_arrows_spec _ _ _ _ _ _ _ (mkEmission event args (Some subscribers) [] false))
    in H1 as (new & Hnew & Hem & Hinv & Hs & Hm).
  - simpl in *. split_and!; [done..|lia|done| |by exists new].
    rewrite Hinv.
    change (invocations_by (emitted w) (begin_emission _ w))
      with (invocations_by (emitted w) w).
    rewrite (wf_calls _ Hwf), (wf_fresh _ Hwf) by done. done.
  - simpl. lia.
  - simpl. by rewrite lookup_insert_eq.
Qed.

End EmitCall.

(** * Fuel *)

Section Fuel.

Variable behaviour : nat → list value → world → script.

Section Open.

Variables invoke1 invoke2 : fn → list value → world → option (outcome * world).
Hypothesis invoke_le :
  ∀ f args w r, invoke1 f args w = Some r → invoke2 f args w = Some r.

Lemma start_arrow_le k i event args f w w' :
  start_arrow invoke1 k i event args f w = Some w' →
  start_arrow invoke2 k i event args f w = Some w'.
Proof.
  unfold start_arrow.
  destruct (invoke1 f args _) as [[o w1]|] eqn:H1; simpl; [|done].
  by rewrite (invoke_le _ _ _ _ H1).
Qed.

Lemma start_arrows_le k i event args snapshot w w' :
  start_arrows invoke1 k i event args snapshot w = Some w' →
  start_arrows invoke2 k i event args snapshot w = Some w'.
Proof.
  revert i w. induction snapshot as [|f rest IH]; intros i w; simpl; [done|].
  destruct (start_arrow invoke1 _ _ _ _ _ _) as [w1|] eqn:H1; simpl; [|done].
  rewrite (start_arrow_le _ _ _ _ _ _ _ H1). simpl. apply IH.
Qed.

Lemma emit_le event args w r :
  emit invoke1 event args w = Some r → emit invoke2 event args w = Some r.
Proof.
  unfold emit. destruct (events (bus w) !! event); [|done].
  destruct (start_arrows invoke1 _ _ _ _ _ _) as [w1|] eqn:H1; simpl; [|done].
  by rewrite (start_arrows_le _ _ _ _ _ _ _ H1).
Qed.

Lemma run_le s w r : run invoke1 s w = Some r → run invoke2 s w = Some r.
Proof.
  revert w. induction s as [o|c next IH]; intros w; simpl; [done|].
  destruct c as [o|event args]; simpl.
  - destruct (perform o w). apply IH.
  - destruct (emit invoke1 event args w) as [[r1 w1]|] eqn:H1; simpl; [|done].
    rewrite (emit_le _ _ _ _ H1). simpl. apply IH.
Qed.

End Open.

Lemma invoke_S fuel f args w :
  invoke behaviour (S fuel) f args w
  = match f with
    | User u => run (invoke behaviour fuel) (behaviour u args w) w
    | Wrapper id event callback =>
        '(o, w1) ← invoke behaviour fuel callback args
                     (log_call (ByWrapper id) callback args
                        (perform (Unsubscribe event (VFunction f)) w).2);
        Some (ReturnsPromise match o with
                             | Returns => Ready Fulfilled
                             | Throws e => Ready (Rejected e)
                             | ReturnsPromise a => a
                             end, w1)
    end.
Proof. by destruct f. Qed.

Lemma invoke_fuel_S fuel f args w r :
  invoke behaviour fuel f args w = Some r →
  invoke behaviour (S fuel) f args w = Some r.
Proof.
  revert f args w r. induction fuel as [|fuel IH]; intros f args w r; [done|].
  rewrite (invoke_S (S fuel)), (invoke_S fuel).
  destruct f as [u|id event callback].
  - by apply run_le.
  - destruct (invoke behaviour fuel callback args _) as [[o w1]|] eqn:H1; [|done].
    by rewrite (IH _ _ _ _ H1).
Qed.

Lemma invoke_fuel_le fuel fuel' f args w r :
  fuel ≤ fuel' →
  invoke behaviour fuel f args w = Some r →
  invoke behaviour fuel' f args w = Some r.
Proof.
  induction 1 as [|fuel' _ IH]; [done|].
  intros H. by apply invoke_fuel_S, IH.
Qed.

(** What [emit] returns does not depend on the fuel. *)
Lemma emit_fuel_same fuel fuel' event args w r r' :
  emit (invoke behaviour fuel) event args w = Some r →
  emit (invoke behaviour fuel') event args w = Some r' →
  r = r'.
Proof.
  intros H H'.
  apply (emit_le _ (invoke behaviour (fuel `max` fuel'))) in H;
    [|intros f a w0 r0; apply invoke_fuel_le; lia].
  apply (emit_le _ (invoke behaviour (fuel `max` fuel'))) in H';
    [|intros f a w0 r0; apply invoke_fuel_le; lia].
  congruence.
Qed.

Lemma start_arrows_halting k i event args snapshot w :
  (∀ f, f ∈ snapshot → ∀ w0, ∃ fuel, is_Some (invoke behaviour fuel f args w0)) →
  ∃ fuel w', start_arrows (invoke behaviour fuel) k i event args snapshot w = Some w'.
Proof.
  revert i w. induction snapshot as [|f rest IH]; intros i w Hh.
  - by exists 0, w.
  - destruct (Hh f (list_elem_of_here _ _) (begin_arrow k f args w))
      as (fuel1 & [o w1] & H1).
    destruct (IH (S i) (end_arrow k i event o w1)) as (fuel2 & w2 & H2).
    { intros g Hg. apply Hh. by apply list_elem_of_further. }
    exists (fuel1 `max` fuel2), w2. simpl.
    assert (Hs : start_arrow (invoke behaviour (fuel1 `max` fuel2)) k i event args f w
                 = Some (end_arrow k i event o w1)).
    { unfold start_arrow.
      rewrite (invoke_fuel_le fuel1 (fuel1 `max` fuel2) _ _ _ _ ltac:(lia) H1).
      done. }
    rewrite Hs. simpl.
    revert H2. apply start_arrows_le. intros ????. apply invoke_fuel_le. lia.
Qed.

Lemma emit_halting event args w :
  (∀ subscribers f, events (bus w) !! event = Some subscribers → f ∈ subscribers →
     ∀ w0, ∃ fuel, is_Some (invoke behaviour fuel f args w0)) →
  ∃ fuel r w', emit (invoke behaviour fuel) event args w = Some (r, w').
Proof.
  intros Hh. unfold emit.
  destruct (events (bus w) !! event) as [subscribers|] eqn:He.
  - destruct (start_arrows_halting (emitted w) 0 event args subscribers
                (begin_emission (mkEmission event args (Some subscribers) [] false) w))
      as (fuel & w' & H); [by eauto|].
    exists fuel. rewrite H. simpl. eauto.
  - exists 0. eauto.
Qed.

Hypothesis Hhalts : halts behaviour.

Lemma emit_total event args w :
  ∃ fuel r w', emit (invoke behaviour fuel) event args w = Some (r, w').
Proof. apply emit_halting. intros. apply Hhalts. Qed.

Lemma run_total s w :
  ∃ fuel o w', run (invoke behaviour fuel) s w = Some (o, w').
Proof.
  revert w. induction s as [o|c next IH]; intros w.
  - exists 0, o, w. done.
  - destruct c as [op|event args].
    + destruct (perform op w) as [r w1] eqn:Hp.
      destruct (IH r w1) as (fuel & o & w' & H).
      exists fuel, o, w'. simpl. by rewrite Hp.
    + destruct (emit_total event args w) as (fuel1 & r & w1 & H1).
      destruct (IH r w1) as (fuel2 & o & w' & H2).
      exists (fuel1 `max` fuel2), o, w'. simpl.
      erewrite emit_le; [| |exact H1].
      * simpl. revert H2. apply run_le. intros ????. apply invoke_fuel_le. lia.
      * intros ????. apply invoke_fuel_le. lia.
Qed.

End Fuel.

(** * Emission *)

Section Emission.

Variable behaviour : nat → list value → world → script.

Lemma started_callbacks arrows subscribers :
  Forall2 started arrows subscribers → arrow_callback <$> arrows = subscribers.
Proof.
  induction 1 as [|a f arrows subscribers [o ->] _ IH]; [done|].
  rewrite fmap_cons, IH. done.
Qed.

(** [emit] on an event with an entry returns, having called every handler
    of the entry as it was when [emit] was entered. *)
Lemma emit_returns w event args subscribers :
  wf w → halts behaviour → events (bus w) !! event = Some subscribers →
  ∃ fuel w' arrows,
    emit (invoke behaviour fuel) event args w
    = Some (Normal (Promise (emitted w)), w')
    ∧ wf w'
    ∧ emitted w < emitted w'
    ∧ settlements w' = settlements w
    ∧ invocations_by (emitted w) w' = (λ f, (f, args)) <$> subscribers
    ∧ Forall2 started arrows subscribers
    ∧ emissions w' !! emitted w
      = Some (mkEmission event args (Some subscribers) arrows false).
Proof.
  intros Hwf Hhalts He.
  destruct (emit_total behaviour Hhalts event args w) as (fuel & r & w' & Hrun).
  destruct (emit_spec behaviour _ _ _ _ _ _ _ Hwf He Hrun)
    as (-> & Hwf' & Hlt & Hs & Hinv & arrows & Hst & Hem).
  exists fuel, w', arrows. by split_and!.
Qed.

(** What stays true of an emission whatever happens after [emit] has
    returned. *)
Lemma emission_later k em w' w'' :
  wf w' → k < emitted w' → emissions w' !! k = Some em →
  rtc (step behaviour) w' w'' →
  wf w''
  ∧ invocations_by k w'' = invocations_by k w'
  ∧ ∃ em', emissions w'' !! k = Some em' ∧ same_dispatch em em'.
Proof.
  intros Hwf Hk Hem Hsteps.
  pose proof (steps_wf _ _ _ Hsteps Hwf) as Hwf''.
  apply steps_frame in Hsteps as (_ & _ & H).
  destruct (H k Hk) as [Hinv Hlook]. split_and!; [done..|].
  by apply Hlook.
Qed.

Lemma Promise_all_rejected ps e :
  Promise_all ps = Some (Rejected e) → ∃ e', Some (Rejected e') ∈ ps.
Proof.
  revert e. induction ps as [|p ps IH]; intros e; [done|]. simpl.
  destruct p as [[|e1]|].
  - destruct (Promise_all ps) as [[|e2]|] eqn:Hps; try done.
    intros _. destruct (IH e2 eq_refl) as [e' He']. exists e'. by right.
  - intros _. exists e1. by left.
  - destruct (Promise_all ps) as [[|e2]|] eqn:Hps; try done.
    intros _. destruct (IH e2 eq_refl) as [e' He']. exists e'. by right.
Qed.

Lemma Promise_all_fulfilled ps :
  Promise_all ps = Some Fulfilled → ∀ p, p ∈ ps → p = Some Fulfilled.
Proof.
  induction ps as [|p ps IH]; [by intros _ ? ?%elem_of_nil|]. simpl.
  destruct p as [[|e1]|]; [|done|];
    destruct (Promise_all ps) as [[|e2]|] eqn:Hps; try done.
  intros _ q [->|Hq]%elem_of_cons; [done|]. by apply IH.
Qed.

(** In a well-formed world the promise of an emission is not rejected, and
    it is fulfilled only when every handler of the snapshot has been
    called and every such call is over. *)
Lemma emit_promise_wf w k em snapshot :
  wf w → emissions w !! k = Some em → em_snapshot em = Some snapshot →
  (∀ e, emit_promise em ≠ Some (Rejected e))
  ∧ (emit_promise em = Some Fulfilled →
       length snapshot ≤ length (em_arrows em)
       ∧ ∀ a, a ∈ em_arrows em →
              arrow_done a = Some Fulfilled
              ∧ ∃ o, arrow_result a = Some o ∧ finished w o).
Proof.
  intros Hwf Hem Hsn. unfold emit_promise, all_settled. rewrite Hsn.
  destruct (em_resumed em); [|done]. split.
  - intros e. case_decide; [done|]. intros [e' He']%Promise_all_rejected.
    apply list_elem_of_fmap in He' as (a & Hd & Ha).
    pose proof (wf_arrows _ Hwf k em a Hem Ha) as Hok.
    unfold arrow_ok in Hok. rewrite <- Hd in Hok. by destruct Hok.
  - case_decide; [done|]. intros Hful. split; [lia|].
    intros a Ha.
    assert (Hd : arrow_done a = Some Fulfilled).
    { apply (Promise_all_fulfilled _ Hful). by apply list_elem_of_fmap_2. }
    split; [done|].
    pose proof (wf_arrows _ Hwf k em a Hem Ha) as Hok.
    unfold arrow_ok in Hok. rewrite Hd in Hok.
    destruct Hok as (_ & o & Ho & Hfin & _). eauto.
Qed.

End Emission.

Section EmitClaims.

Variable behaviour : nat → list value → world → script.

Lemma invoked_once (subscribers : list fn) (args : list value) f :
  NoDup subscribers → f ∈ subscribers →
  length (filter (λ c, c.1 = f) ((λ g, (g, args)) <$> subscribers)) = 1.
Proof.
  induction 1 as [|g l Hg Hnd IH]; [by intros ?%elem_of_nil|].
  rewrite fmap_cons, filter_cons. simpl.
  assert (Hnone : ∀ l' : list fn, f ∉ l' →
            filter (λ c, c.1 = f) ((λ g, (g, args)) <$> l') = []).
  { induction l' as [|h l' IH']; [done|]. intros [Hh Hl']%not_elem_of_cons.
    rewrite fmap_cons, filter_cons. simpl. rewrite decide_False by done. auto. }
  intros [->|Hin]%elem_of_cons.
  - rewrite decide_True by done. simpl. by rewrite Hnone.
  - rewrite decide_False by (intros ->; done). auto.
Qed.

Lemma not_invoked (subscribers : list fn) (args : list value) f a :
  f ∉ subscribers → (f, a) ∉ (λ g, (g, args)) <$> subscribers.
Proof. intros Hf (g & [= -> _] & Hg)%list_elem_of_fmap. done. Qed.

(** C2: in a well-formed world (every reachable world is one) and with user
    code whose calls come back, [emit] calls exactly the handlers that were
    subscribed to the event when it was entered, each once, with the
    arguments of the call, in subscription order; whatever the handlers do
    meanwhile and whatever happens later, this emission calls nobody else:
    a handler that is not in the snapshot is never called by it. *)
Theorem emit_dispatches_the_snapshot w event args subscribers :
  wf w → halts behaviour → events (bus w) !! event = Some subscribers →
  ∃ fuel w',
    emit (invoke behaviour fuel) event args w
    = Some (Normal (Promise (emitted w)), w')
    ∧ ∀ w'', rtc (step behaviour) w' w'' →
        invocations_by (emitted w) w'' = (λ f, (f, args)) <$> subscribers
        ∧ (∀ f, f ∈ subscribers →
                length (filter (λ c, c.1 = f) (invocations_by (emitted w) w'')) = 1)
        ∧ (∀ f a, f ∉ subscribers → (f, a) ∉ invocations_by (emitted w) w'')
        ∧ ∃ em, emissions w'' !! emitted w = Some em
                ∧ em_snapshot em = Some subscribers
                ∧ arrow_callback <$> em_arrows em = subscribers.
Proof.
  intros Hwf Hhalts He.
  destruct (emit_returns behaviour w event args subscribers Hwf Hhalts He)
    as (fuel & w' & arrows & Hrun & Hwf' & Hlt & Hs & Hinv & Hst & Hem).
  exists fuel, w'. split; [done|]. intros w'' Hsteps.
  destruct (emission_later behaviour _ _ _ _ Hwf' Hlt Hem Hsteps)
    as (Hwf'' & Hinv'' & em'' & Hem'' & Hsame).
  rewrite Hinv'', Hinv. split_and!; [done| | |].
  - intros f Hf. apply invoked_once; [|done].
    destruct Hwf as [[_ Hnd] _ _ _]. by eapply Hnd.
  - intros f a. apply not_invoked.
  - exists em''. split_and!; [done|by destruct Hsame as (_ & _ & -> & _)|].
    rewrite (same_dispatch_callbacks _ _ Hsame). simpl.
    by apply started_callbacks.
Qed.

Lemma arrow_continue_fulfils event s w : (arrow_continue event s w).1 = Fulfilled.
Proof. by destruct s. Qed.

Lemma resume_ready k i w em a o x s :
  emissions w !! k = Some em → em_arrows em !! i = Some a →
  arrow_done a = None → arrow_result a = Some o → awaited o = Some x →
  fate w x = Some s →
  ∃ w1, resume k i w = Some w1
    ∧ emissions w1 !! k
      = Some (mkEmission (em_event em) (em_args em) (em_snapshot em)
                (alter (λ a, mkArrow (arrow_callback a) (Some o) (Some Fulfilled)) i
                   (em_arrows em)) (em_resumed em))
    ∧ settlements w1 = settlements w.
Proof.
  intros Hem Ha Hd Ho Hx Hs. unfold resume.
  rewrite Hem. simpl. rewrite Ha. simpl. rewrite Hd, Ho. simpl.
  rewrite Hx. simpl. rewrite Hs. simpl.
  destruct s as [|e]; simpl; eexists; (split; [done|]); (split; [|done]);
    rewrite update_arrows_lookup, decide_True by done; simpl; by rewrite Hem.
Qed.

Lemma Promise_all_all_fulfilled ps :
  (∀ p, p ∈ ps → p = Some Fulfilled) → Promise_all ps = Some Fulfilled.
Proof.
  induction ps as [|p ps IH]; intros H; [done|]. simpl.
  rewrite (H p) by apply list_elem_of_here.
  rewrite IH; [done|]. intros q Hq. apply H. by apply list_elem_of_further.
Qed.

Lemma ready_mono w w' a :
  settlements w ⊆ settlements w' → ready w a → ready w' a.
Proof.
  intros Hs (o & Ho & Hfin & Hx). exists o. split_and!; [done| |done].
  by eapply finished_mono.
Qed.

(** Arrows whose calls are over can all be resumed, one after the other. *)
Lemma resume_rest k n :
  ∀ i w em,
    length (em_arrows em) = i + n →
    wf w → emissions w !! k = Some em → Forall (ready w) (em_arrows em) →
    (∀ j a, j < i → em_arrows em !! j = Some a → arrow_done a ≠ None) →
    ∃ w' em',
      rtc (step behaviour) w w'
      ∧ wf w'
      ∧ emissions w' !! k = Some em'
      ∧ em_snapshot em' = em_snapshot em
      ∧ length (em_arrows em') = length (em_arrows em)
      ∧ ∀ a, a ∈ em_arrows em' → arrow_done a ≠ None.
Proof.
  induction n as [|n IH]; intros i w em Hlen Hwf Hem Hready Hdone.
  - exists w, em. split_and!; try done.
    intros a [j Hj]%list_elem_of_lookup. apply (Hdone j); [|done].
    apply lookup_lt_Some in Hj. lia.
  - destruct (lookup_lt_is_Some_2 (em_arrows em) i) as [a Ha]; [lia|].
    destruct (arrow_done a) as [s|] eqn:Hd.
    + apply (IH (S i) w em); try done; [lia|].
      intros j a' Hj Ha'. destruct (decide (j = i)) as [->|Hne].
      * assert (a' = a) as -> by congruence. by rewrite Hd.
      * apply (Hdone j); [lia|done].
    + destruct (Forall_lookup_1 _ _ _ _ Hready Ha) as (o & Ho & Hfin & Hx).
      destruct (awaited o) as [x|] eqn:Hxo; [|by destruct (Hx Hd)].
      unfold finished in Hfin. rewrite Hxo in Hfin. destruct Hfin as [s Hs].
      destruct (resume_ready k i w em a o x s Hem Ha Hd Ho Hxo Hs)
        as (w1 & Hres & Hem1 & _).
      assert (Hstep : step behaviour w w1) by (by econstructor).
      pose proof (step_wf behaviour _ _ Hstep Hwf) as Hwf1.
      destruct (step_frame behaviour _ _ Hstep) as (_ & Hsub & _).
      set (em1 := mkEmission (em_event em) (em_args em) (em_snapshot em)
                    (alter (λ a, mkArrow (arrow_callback a) (Some o) (Some Fulfilled)) i
                       (em_arrows em)) (em_resumed em)) in *.
      assert (Hlen1 : length (em_arrows em1) = S i + n).
      { simpl. rewrite length_alter. lia. }
      destruct (IH (S i) w1 em1 Hlen1 Hwf1 Hem1)
        as (w' & em' & Hsteps & Hwf' & Hem' & Hsn' & Hlen' & Hall).
      * simpl. apply Forall_alter.
        -- eapply Forall_impl; [exact Hready|]. intros a'. by apply ready_mono.
        -- intros a' Ha' _. exists o. split_and!; [done| |done].
           eapply finished_mono; [exact Hsub|]. unfold finished. rewrite Hxo. eauto.
      * simpl. intros j a' Hj. destruct (decide (i = j)) as [<-|Hne].
        -- rewrite list_lookup_alter_eq, Ha. by intros [= <-].
        -- rewrite list_lookup_alter_ne by done. apply Hdone. lia.
      * exists w', em'. split_and!; try done.
        -- by eapply rtc_l.
        -- simpl in Hlen'. by rewrite length_alter in Hlen'.
Qed.

(** Once every call of the snapshot is over, resuming the arrows fulfils
    the promise of the emission. *)
Lemma emission_completes k w em snapshot :
  wf w → emissions w !! k = Some em → em_snapshot em = Some snapshot →
  length (em_arrows em) = length snapshot →
  Forall (ready w) (em_arrows em) →
  ∃ w' em',
    rtc (step behaviour) w w'
    ∧ emissions w' !! k = Some em'
    ∧ emit_promise em' = Some Fulfilled.
Proof.
  intros Hwf Hem Hsn Hlen Hready.
  destruct (resume_rest k (length (em_arrows em)) 0 w em eq_refl Hwf Hem Hready)
    as (w' & em' & Hsteps & Hwf' & Hem' & Hsn' & Hlen' & Hall); [intros; lia|].
  assert (Hful : all_settled snapshot em' = Some Fulfilled).
  { unfold all_settled. rewrite decide_False by lia.
    apply Promise_all_all_fulfilled. intros p (a & -> & Ha)%list_elem_of_fmap.
    pose proof (wf_arrows _ Hwf' k em' a Hem' Ha) as Hok. unfold arrow_ok in Hok.
    pose proof (Hall a Ha) as Hd. destruct (arrow_done a) as [s|]; [|done].
    by destruct Hok as [-> _]. }
  destruct (em_resumed em') eqn:Hr.
  - exists w', em'. split_and!; [done..|].
    unfold emit_promise. by rewrite Hsn', Hsn, Hr.
  - eexists _, _. split_and!.
    + eapply rtc_r; [exact Hsteps|]. apply (step_resume_emit _ k).
      unfold resume_emit. rewrite Hem'. simpl. rewrite Hsn', Hsn. simpl.
      rewrite Hr, Hful. simpl. done.
    + simpl. apply lookup_insert_eq.
    + unfold emit_promise. simpl. exact Hful.
Qed.

Lemma evolved_ready arrows subscribers arrows' w :
  Forall2 started arrows subscribers → Forall2 evolves arrows arrows' →
  (∀ a, a ∈ arrows' → ∀ o, arrow_result a = Some o → finished w o) →
  Forall (ready w) arrows'.
Proof.
  intros Hst Hev Hfin. apply Forall_lookup_2. intros i a Hi.
  destruct (Forall2_lookup_r _ _ _ _ _ Hev Hi) as (a0 & Ha0 & _ & Hr & Hd).
  destruct (Forall2_lookup_l _ _ _ _ _ Hst Ha0) as (f & _ & o & ->).
  simpl in *. exists o. split_and!; [done| |].
  - apply (Hfin a); [by eapply list_elem_of_lookup_2|done].
  - intros Hnone. destruct Hd as [Hd|Hd]; [|rewrite Hnone in Hd]; by destruct o.
Qed.

Lemma evolved_thrower arrows subscribers arrows' a e :
  Forall2 started arrows subscribers → Forall2 evolves arrows arrows' →
  a ∈ arrows' → arrow_result a = Some (Throws e) →
  arrow_done a = Some Fulfilled.
Proof.
  intros Hst Hev [i Hi]%list_elem_of_lookup Hres.
  destruct (Forall2_lookup_r _ _ _ _ _ Hev Hi) as (a0 & Ha0 & _ & Hr & Hd).
  destruct (Forall2_lookup_l _ _ _ _ _ Hst Ha0) as (f & _ & o & ->).
  simpl in *. assert (o = Throws e) as -> by congruence.
  by destruct Hd as [Hd| ->].
Qed.


(** C9: in a well-formed world and with user code whose calls come back,
    [emit] calls every handler of the snapshot before it returns, and not
    one promise has settled by then: each arrow whose handler did not throw
    is suspended at its [await], whatever promise the handlers before it
    returned, and [emit] itself has not resumed.  [emit] does not order the
    completions: an arrow finishes when the promise of its own handler has
    settled, whether or not the handlers before it are through.  So an
    arrow can finish while another one, before or after it in the
    snapshot, still waits for a pending promise; of two arrows that wait
    for two pending promises, either can be the first.  (This is a
    statement that a world can be reached.  It holds of the job queue too:
    the continuation of the arrow that finishes is in the queue or gets
    there when its promise settles, and that of the other arrow is not in
    the queue while its promise is pending.  Arrows whose handlers
    returned no pending promise are continued by the queue in the order in
    which they were suspended, and nothing is claimed about them.) *)
Theorem emit_starts_all_before_awaiting w event args subscribers :
  wf w → halts behaviour → events (bus w) !! event = Some subscribers →
  ∃ fuel w' arrows,
    emit (invoke behaviour fuel) event args w
    = Some (Normal (Promise (emitted w)), w')
    ∧ emissions w' !! emitted w
      = Some (mkEmission event args (Some subscribers) arrows false)
    ∧ Forall2 started arrows subscribers
    ∧ invocations_by (emitted w) w' = (λ f, (f, args)) <$> subscribers
    ∧ settlements w' = settlements w
    ∧ (∀ a, a ∈ arrows → arrow_done a = None →
            ∃ o, arrow_result a = Some o ∧ awaited o ≠ None)
    ∧ (∀ i a f, arrows !! i = Some a → subscribers !! i = Some f →
         arrow_callback a = f ∧ ∃ o, arrow_result a = Some o)
    ∧ ∀ i j a b oa ob q,
        i ≠ j → arrows !! i = Some a → arrows !! j = Some b →
        arrow_done a = None → arrow_result a = Some oa →
        arrow_result b = Some ob → awaited ob = Some (Deferred q) →
        settlements w' !! q = None → awaited oa ≠ Some (Deferred q) →
        arrow_done b = None
        ∧ ∃ w1 em1 a1 b1,
            rtc (step behaviour) w' w1
            ∧ emissions w1 !! emitted w = Some em1
            ∧ em_arrows em1 !! i = Some a1 ∧ em_arrows em1 !! j = Some b1
            ∧ arrow_done a1 = Some Fulfilled ∧ arrow_done b1 = None
            ∧ settlements w1 !! q = None.
Proof.
  intros Hwf Hhalts He.
  destruct (emit_returns behaviour w event args subscribers Hwf Hhalts He)
    as (fuel & w' & arrows & Hrun & Hwf' & Hlt & Hs & Hinv & Hst & Hem).
  exists fuel, w', arrows.
  assert (Hsusp : ∀ a, a ∈ arrows → arrow_done a = None →
                       ∃ o, arrow_result a = Some o ∧ awaited o ≠ None).
  { intros a [i Hi]%list_elem_of_lookup Hd.
    destruct (Forall2_lookup_l _ _ _ _ _ Hst Hi) as (f & _ & o & ->).
    exists o. split; [done|]. by destruct o. }
  split_and!; try done.
  { intros i a f Hi Hf.
    destruct (Forall2_lookup_l _ _ _ _ _ Hst Hi) as (f' & Hf' & o & ->).
    assert (f' = f) as -> by congruence. simpl. eauto. }
  intros i j a b oa ob q Hij Hi Hj Hda Hoa Hob Hq Hpending Hother.
  assert (Hdb : arrow_done b = None).
  { destruct (Forall2_lookup_l _ _ _ _ _ Hst Hj) as (f & _ & o & ->).
    simpl in Hob. injection Hob as ->. by destruct ob. }
  split; [exact Hdb|].
  destruct (Hsusp a (list_elem_of_lookup_2 _ _ _ Hi) Hda) as (o & Ho & Hx).
  assert (o = oa) as -> by congruence.
  destruct (awaited oa) as [x|] eqn:Hxo; [|done].
  assert (∃ w0 s, rtc (step behaviour) w' w0 ∧ emissions w0 = emissions w'
                  ∧ fate w0 x = Some s ∧ settlements w0 !! q = None)
    as (w0 & s & Hw0 & Hems & Hfate & Hq0).
  { destruct (fate w' x) as [s|] eqn:Hf.
    - exists w', s. by split_and!.
    - destruct x as [s|p]; [done|]. simpl in Hf.
      exists (settle p Fulfilled w'), Fulfilled. split_and!; [|done| |].
      + apply rtc_once. by constructor.
      + simpl. by rewrite lookup_insert_eq.
      + simpl. rewrite lookup_insert_ne; [done|]. intros ->. by apply Hother. }
  rewrite <- Hems in Hem.
  destruct (resume_ready _ i w0 _ a oa x s Hem Hi Hda Hoa Hxo Hfate)
    as (w1 & Hres & Hem1 & Hs1).
  eexists w1, _, _, b. split_and!.
  - eapply rtc_r; [exact Hw0|]. by econstructor.
  - exact Hem1.
  - simpl. rewrite list_lookup_alter_eq, Hi. done.
  - simpl. by rewrite list_lookup_alter_ne.
  - done.
  - done.
  - by rewrite Hs1.
Qed.

(** C7: subscribing the same reference to a registered event a second time
    changes nothing, and the next [emit] of the event calls it once. *)
Theorem subscribe_twice_is_once w event f args :
  wf w → halts behaviour → event ∈ registeredEvents (bus w) →
  (∀ this, (subscribe event (VFunction f) (subscribe event (VFunction f) this).2).2
           = (subscribe event (VFunction f) this).2)
  ∧ (perform (Subscribe event (VFunction f))
       (perform (Subscribe event (VFunction f)) w).2).2
    = (perform (Subscribe event (VFunction f)) w).2
  ∧ (perform (Subscribe event (VFunction f))
       (perform (Subscribe event (VFunction f)) w).2).1
    = Normal (Token (mkToken event f))
  ∧ ∃ fuel w',
      emit (invoke behaviour fuel) event args
        (perform (Subscribe event (VFunction f))
           (perform (Subscribe event (VFunction f)) w).2).2
      = Some (Normal (Promise (emitted w)), w')
      ∧ length (filter (λ c, c.1 = f) (invocations_by (emitted w) w')) = 1.
Proof.
  intros Hwf Hhalts Hreg.
  assert (Hidem : ∀ this,
    (subscribe event (VFunction f) (subscribe event (VFunction f) this).2).2
    = (subscribe event (VFunction f) this).2).
  { intros this. unfold subscribe at 2 3.
    destruct (decide (event ∈ registeredEvents this)) as [Hin|Hnin]; cbn [as_function].
    - destruct (events this !! event) as [l|] eqn:Hl; cbn [snd].
      + rewrite (subscribe_registered _ _ _ (Set_add f l)); [|done|].
        * cbn [snd events registeredEvents].
          by rewrite insert_insert_eq, Set_add_idemp.
        * cbn [events]. by rewrite lookup_insert_eq.
      + unfold subscribe. rewrite decide_True by done. cbn [as_function].
        by rewrite Hl.
    - by rewrite subscribe_unregistered. }
  destruct (wf_bus _ Hwf) as [Hdom Hnd].
  assert (∃ l, events (bus w) !! event = Some l) as [l Hl].
  { apply elem_of_dom. by rewrite Hdom. }
  pose proof (subscribe_registered event f (bus w) l Hreg Hl) as Hsub.
  set (b1 := {| events := <[event := Set_add f l]> (events (bus w));
                registeredEvents := registeredEvents (bus w) |}) in *.
  assert (H1 : perform (Subscribe event (VFunction f)) w
               = (Normal (Token (mkToken event f)), set_bus b1 w)).
  { unfold perform. by rewrite Hsub. }
  assert (Hsub2 : subscribe event (VFunction f) b1 = (Normal (mkToken event f), b1)).
  { pose proof (Hidem (bus w)) as Hi. rewrite Hsub in Hi. cbn [snd] in Hi.
    rewrite (subscribe_registered event f b1 (Set_add f l)) in *; [|done|..].
    - cbn [snd] in Hi. by rewrite Hi.
    - unfold b1. cbn [events]. by rewrite lookup_insert_eq.
    - done.
    - unfold b1. cbn [events]. by rewrite lookup_insert_eq. }
  assert (H2 : perform (Subscribe event (VFunction f)) (set_bus b1 w)
               = (Normal (Token (mkToken event f)), set_bus b1 w)).
  { unfold perform. cbn [bus set_bus]. by rewrite Hsub2. }
  rewrite H1. cbn [snd]. rewrite H2. cbn [fst snd].
  split_and!; [done..|].
  assert (Hwf1 : wf (set_bus b1 w)).
  { replace (set_bus b1 w) with (perform (Subscribe event (VFunction f)) w).2
      by (by rewrite H1).
    by apply wf_perform. }
  assert (He : events (bus (set_bus b1 w)) !! event = Some (Set_add f l)).
  { simpl. by rewrite lookup_insert_eq. }
  destruct (emit_returns behaviour _ event args _ Hwf1 Hhalts He)
    as (fuel & w' & arrows & Hrun & _ & _ & _ & Hinv & _ & _).
  exists fuel, w'. split; [exact Hrun|].
  change (emitted (set_bus b1 w)) with (emitted w) in Hinv. rewrite Hinv.
  apply invoked_once; [|apply Set_add_elem].
  apply Set_add_NoDup. by eapply Hnd.
Qed.

(** C10: in every state the bus can reach, by tasks that call any of its
    methods (from handlers too), by promises settling and by arrows
    resuming, the keys of the subscriber map are exactly the registered
    names. *)
Theorem registry_is_the_key_set w :
  reachable behaviour w →
  dom (events (bus w)) = registeredEvents (bus w)
  ∧ (∀ event, event ∈ registeredEvents (bus w) ↔ is_Some (events (bus w) !! event))
  ∧ (∀ event, event ∉ registeredEvents (bus w) ↔ events (bus w) !! event = None).
Proof.
  intros Hw. apply reachable_wf in Hw. destruct (wf_bus _ Hw) as [Hdom _].
  split_and!; [done| |].
  - intros event. by rewrite <- Hdom, elem_of_dom.
  - intros event. by rewrite <- Hdom, not_elem_of_dom.
Qed.

End EmitClaims.

(** * Who is subscribed after a method *)

Section Members.

Implicit Types (this : Events) (event : string) (f g : fn).

Lemma setup_members eventNames this event subscribers f :
  events (setup eventNames this).2 !! event = Some subscribers → f ∈ subscribers →
  ∃ before, events this !! event = Some before ∧ f ∈ before.
Proof.
  destruct eventNames; simpl; eauto. revert this.
  induction elems as [|v names IH]; intros this; simpl; [by eauto|].
  destruct (as_string v) as [name|]; simpl; [|by eauto].
  intros Hl Hf. destruct (IH _ Hl Hf) as (before & Hb & Hfb).
  rewrite register_lookup in Hb. destruct (events this !! event); [by eauto|].
  case_decide; [|done]. injection Hb as <-. by apply elem_of_nil in Hfb.
Qed.

Lemma subscribe_members event' callback this event subscribers f :
  events (subscribe event' callback this).2 !! event = Some subscribers →
  f ∈ subscribers →
  (∃ before, events this !! event = Some before ∧ f ∈ before)
  ∨ callback = VFunction f.
Proof.
  unfold subscribe. case_decide; [|by eauto].
  destruct callback as [| | | | |g|]; simpl; eauto.
  destruct (events this !! event') as [l|] eqn:Hl; simpl; [|by eauto].
  destruct (decide (event' = event)) as [->|Hne].
  - rewrite lookup_insert_eq. intros [= <-]. unfold Set_add.
    case_decide; [by eauto|].
    intros [Hf| ->%list_elem_of_singleton]%elem_of_app; eauto.
  - rewrite lookup_insert_ne by done. eauto.
Qed.

Lemma unsubscribe_members event' callback this event subscribers f :
  events (unsubscribe event' callback this).2 !! event = Some subscribers →
  f ∈ subscribers →
  ∃ before, events this !! event = Some before ∧ f ∈ before.
Proof.
  unfold unsubscribe. destruct (events this !! event') as [l|] eqn:Hl; [|by eauto].
  destruct callback as [| | | | |g|]; simpl; eauto.
  destruct (decide (event' = event)) as [->|Hne].
  - rewrite lookup_insert_eq. intros [= <-] [Hf _]%Set_delete_elem. eauto.
  - rewrite lookup_insert_ne by done. eauto.
Qed.

Lemma clear_members event' this event subscribers f :
  events (clear event' this).2 !! event = Some subscribers → f ∈ subscribers →
  ∃ before, events this !! event = Some before ∧ f ∈ before.
Proof.
  unfold clear. destruct (events this !! event') as [l|] eqn:Hl; simpl; [|by eauto].
  destruct (decide (event' = event)) as [->|Hne].
  - rewrite lookup_insert_eq. by intros [= <-] ?%elem_of_nil.
  - rewrite lookup_insert_ne by done. eauto.
Qed.

(** After a method, a subscriber was there before or is what the method
    has just subscribed. *)
Lemma perform_members o w event subscribers f :
  events (bus (perform o w).2) !! event = Some subscribers → f ∈ subscribers →
  (∃ before, events (bus w) !! event = Some before ∧ f ∈ before)
  ∨ match o with
    | Subscribe _ (VFunction g) => f = g
    | Once event' (VFunction g) => f = Wrapper (allocated w) event' g
    | _ => False
    end.
Proof.
  destruct o; unfold perform.
  - destruct (setup eventNames (bus w)) as [c b] eqn:Hm. simpl. intros Hl Hf. left.
    apply (setup_members eventNames (bus w) event subscribers); [by rewrite Hm|done].
  - destruct (subscribe event0 callback (bus w)) as [c b] eqn:Hm. simpl. intros Hl Hf.
    destruct (subscribe_members event0 callback (bus w) event subscribers f)
      as [?| ->]; [by rewrite Hm|done|by left|by right].
  - destruct (once (allocated w) event0 callback (bus w)) as [c b] eqn:Hm. simpl.
    intros Hl Hf. unfold once in Hm.
    destruct (decide (event0 ∈ registeredEvents (bus w))); [|injection Hm as <- <-; eauto].
    destruct callback as [| | | | |g|]; simpl in Hm; try (injection Hm as <- <-; eauto).
    destruct (subscribe_members event0 (VFunction (Wrapper (allocated w) event0 g))
                (bus w) event subscribers f) as [?|[= ->]];
      [by rewrite Hm|done|by left|by right].
  - destruct (unsubscribe event0 callback (bus w)) as [c b] eqn:Hm. simpl.
    intros Hl Hf. left.
    apply (unsubscribe_members event0 callback (bus w) event subscribers);
      [by rewrite Hm|done].
  - destruct (clear event0 (bus w)) as [c b] eqn:Hm. simpl. intros Hl Hf. left.
    apply (clear_members event0 (bus w) event subscribers); [by rewrite Hm|done].
  - simpl. by rewrite lookup_empty.
  - unfold invoke_token.
    destruct (unsubscribe (tok_event t) _ (bus w)) as [c b] eqn:Hm. simpl.
    intros Hl Hf. left.
    apply (unsubscribe_members (tok_event t) (VFunction (tok_callback t)) (bus w)
             event subscribers); [by rewrite Hm|done].
Qed.

(** A method that avoids [u] subscribes nothing that mentions [u]. *)
Lemma perform_avoids u o w event subscribers f :
  op_avoids u o →
  events (bus (perform o w).2) !! event = Some subscribers → f ∈ subscribers →
  fn_mentions u f →
  ∃ before, events (bus w) !! event = Some before ∧ f ∈ before.
Proof.
  intros Ho Hl Hf Hm.
  destruct (perform_members o w event subscribers f Hl Hf) as [?|Hnew]; [done|].
  destruct o as [| |? callback|? callback| | |]; try done;
    destruct callback; try done; subst f; by destruct Ho.
Qed.

Lemma perform_avoids_bus_ok u o w :
  op_avoids u o →
  bus_ok (λ f, ¬ fn_mentions u f) w →
  bus_ok (λ f, ¬ fn_mentions u f) (perform o w).2.
Proof.
  intros Ho Hok event subscribers f Hl Hf Hm.
  destruct (perform_avoids u o w event subscribers f Ho Hl Hf Hm) as (l & Hl' & Hf').
  by eapply Hok.
Qed.

End Members.

(** * The sample user code always comes back *)

Section Sample.

Lemma emit_free_run invoke s w :
  emit_free s → ∃ r, run invoke s w = Some r.
Proof.
  intros Hs. revert w. induction Hs as [o|o next _ IH]; intros w; simpl; [by eauto|].
  destruct (perform o w) as [r w1]. apply IH.
Qed.

Lemma wrapper_halts behaviour id event callback args w :
  (∀ w0, ∃ fuel, is_Some (invoke behaviour fuel callback args w0)) →
  ∃ fuel, is_Some (invoke behaviour fuel (Wrapper id event callback) args w).
Proof.
  intros Hh.
  destruct (Hh (log_call (ByWrapper id) callback args
                  (perform (Unsubscribe event (VFunction (Wrapper id event callback))) w).2))
    as (fuel & [o w1] & H).
  exists (S fuel). rewrite invoke_S, H. simpl. eauto.
Qed.

Lemma sample_emit_free u args w : u ≠ 3 → emit_free (sample u args w).
Proof.
  intros Hu. do 5 (destruct u as [|u]; [try done; repeat constructor|]).
  constructor.
Qed.

Lemma sample_quiet_halts f args w :
  ¬ fn_mentions 3 f → ∃ fuel, is_Some (invoke sample fuel f args w).
Proof.
  revert w. induction f as [u|id event callback IH]; intros w Hf.
  - exists 1. simpl. apply emit_free_run, sample_emit_free. by intros ->.
  - apply wrapper_halts. intros w0. by apply IH.
Qed.

Lemma sample_3_halts args w : ∃ fuel, is_Some (invoke sample fuel (User 3) args w).
Proof.
  destruct (events (bus w) !! "e") as [subscribers|] eqn:He;
    [|exists 1; simpl; rewrite He; by eauto].
  destruct (existsb (λ f, bool_decide (fn_mentions 3 f)) subscribers) eqn:Hex;
    [exists 1; simpl; rewrite He, Hex; by eauto|].
  destruct (perform (Subscribe "e" (VFunction (User 0))) w) as [r1 w1] eqn:Hp.
  destruct (emit_halting sample "e" args w1) as (fuel & r & w2 & Hrun).
  { intros l f Hl Hf w0. apply sample_quiet_halts. intros Hm.
    destruct (perform_avoids 3 (Subscribe "e" (VFunction (User 0))) w "e" l f)
      as (before & Hb & Hfb); [simpl; lia|by rewrite Hp|done..|].
    assert (before = subscribers) as -> by congruence.
    assert (existsb (λ f, bool_decide (fn_mentions 3 f)) subscribers = true);
      [|congruence].
    apply existsb_exists. exists f. split; [by apply list_elem_of_In|].
    by apply bool_decide_eq_true. }
  exists (S fuel). simpl. rewrite He, Hex. simpl. rewrite Hp. simpl.
  rewrite Hrun. simpl. eauto.
Qed.

Lemma sample_halts : halts sample.
Proof.
  intros f. induction f as [u|id event callback IH]; intros args w.
  - destruct (decide (u = 3)) as [->|Hu]; [apply sample_3_halts|].
    apply sample_quiet_halts. simpl. done.
  - apply wrapper_halts. intros w0. apply IH.
Qed.

Lemma sample_world_reachable : reachable sample sample_world.
Proof. apply rtc_once. by apply (step_task sample 1 sample_setup Returns). Qed.

Lemma sample_world_wf : wf sample_world.
Proof. apply (reachable_wf sample), sample_world_reachable. Qed.

End Sample.

(** * The unit tests of the repository, replayed on the model *)

Section Replay.

(** The world a script leaves, run as one task from the new world with the
    sample user code. *)
Local Abbreviation after s :=
  (match run (invoke sample 8) s new_world with
   | Some (_, w) => Some w
   | None => None
   end).

Local Abbreviation called k u args := (mkInvocation (ByEmit k) (User u) args).

(** "setup() registers event names" *)
Example test_setup_registers :
  registeredEvents
    (setup (VArray [VString "testEvent1"; VString "testEvent2"]) new_Events).2
  = {["testEvent1"; "testEvent2"]}.
Proof. vm_compute. reflexivity. Qed.

(** "setup() throws on invalid input" *)
Example test_setup_throws :
  setup (VString "not-an-array") new_Events
  = (Throw (Error "setup() requires an array of event names"), new_Events)
  ∧ setup (VArray [VNumber 123]) new_Events
    = (Throw (Error "Event names must be strings"), new_Events).
Proof. split; reflexivity. Qed.

(** "subscribe() adds callbacks" *)
Example test_subscribe_adds :
  events (subscribe "testEvent" (VFunction (User 1))
            (subscribe "testEvent" (VFunction (User 0))
               (setup (VArray [VString "testEvent"]) new_Events).2).2).2 !! "testEvent"
  = Some [User 0; User 1].
Proof. vm_compute. reflexivity. Qed.

(** "subscribe() throws for unregistered events" and "subscribe() throws for
    non-function callbacks" *)
Example test_subscribe_throws :
  (subscribe "unregisteredEvent" (VFunction (User 0)) new_Events).1
  = Throw (NotRegistered "unregisteredEvent")
  ∧ (subscribe "testEvent" (VString "not-a-function")
       (setup (VArray [VString "testEvent"]) new_Events).2).1
    = Throw (Error "Callback must be a function").
Proof. split; vm_compute; reflexivity. Qed.

(** "emit() calls all subscribed callbacks" *)
Example test_emit_calls_all :
  calls <$> after
    (Do (Method (Setup (VArray [VString "testEvent"]))) (λ _,
     Do (Method (Subscribe "testEvent" (VFunction (User 0)))) (λ _,
     Do (Method (Subscribe "testEvent" (VFunction (User 5)))) (λ _,
     Do (Emit "testEvent" [VNumber 42]) (λ _, Finish Returns)))))
  = Some [called 0 0 [VNumber 42]; called 0 5 [VNumber 42]].
Proof. vm_compute. reflexivity. Qed.

(** "emit() isolates errors per handler": the second handler throws, the
    third is called all the same, and the error is on the console. *)
Example test_emit_isolates_errors :
  (λ w, (calls w, console w)) <$> after
    (Do (Method (Setup (VArray [VString "testEvent"]))) (λ _,
     Do (Method (Subscribe "testEvent" (VFunction (User 0)))) (λ _,
     Do (Method (Subscribe "testEvent" (VFunction (User 1)))) (λ _,
     Do (Method (Subscribe "testEvent" (VFunction (User 5)))) (λ _,
     Do (Emit "testEvent" []) (λ _, Finish Returns))))))
  = Some ([called 0 0 []; called 0 1 []; called 0 5 []],
          [(console_message "testEvent", Error "Handler 2 failed")]).
Proof. vm_compute. reflexivity. Qed.

(** "emit() supports async handlers": the promise of [emit] is pending until
    the handler's promise has settled, its arrow has resumed and [emit] has
    resumed; neither can resume before. *)
Example test_emit_async :
  (w ← after
     (Do (Method (Setup (VArray [VString "testEvent"]))) (λ _,
      Do (Method (Subscribe "testEvent" (VFunction (User 2)))) (λ _,
      Do (Emit "testEvent" []) (λ _, Finish Returns))));
   w' ← resume 0 0 (settle 7 Fulfilled w);
   w'' ← resume_emit 0 w';
   Some (emit_promise <$> emissions w !! 0, resume 0 0 w, resume_emit 0 w,
         emit_promise <$> emissions w' !! 0,
         emit_promise <$> emissions w'' !! 0))
  = Some (Some None, None, None, Some None, Some (Some Fulfilled)).
Proof. vm_compute. reflexivity. Qed.

(** "once() subscribes and auto-unsubscribes after first emit" *)
Example test_once :
  times_called (User 0) <$> after
    (Do (Method (Setup (VArray [VString "testEvent"]))) (λ _,
     Do (Method (Once "testEvent" (VFunction (User 0)))) (λ _,
     Do (Emit "testEvent" []) (λ _, Finish Returns))))
  = Some 1
  ∧ times_called (User 0) <$> after
      (Do (Method (Setup (VArray [VString "testEvent"]))) (λ _,
       Do (Method (Once "testEvent" (VFunction (User 0)))) (λ _,
       Do (Emit "testEvent" []) (λ _,
       Do (Emit "testEvent" []) (λ _, Finish Returns)))))
    = Some 1.
Proof. split; vm_compute; reflexivity. Qed.

(** "once() throws for unregistered events" *)
Example test_once_throws :
  (once 0 "unregisteredEvent" (VFunction (User 0)) new_Events).1
  = Throw (NotRegistered "unregisteredEvent").
Proof. reflexivity. Qed.

(** "unsubscribe() removes specific callback" *)
Example test_unsubscribe :
  calls <$> after
    (Do (Method (Setup (VArray [VString "testEvent"]))) (λ _,
     Do (Method (Subscribe "testEvent" (VFunction (User 0)))) (λ _,
     Do (Method (Subscribe "testEvent" (VFunction (User 5)))) (λ _,
     Do (Method (Unsubscribe "testEvent" (VFunction (User 0)))) (λ _,
     Do (Emit "testEvent" []) (λ _, Finish Returns))))))
  = Some [called 0 5 []].
Proof. vm_compute. reflexivity. Qed.

(** "subscribe() returns unsubscribe function" *)
Example test_unsubscribe_token :
  calls <$> after
    (Do (Method (Setup (VArray [VString "testEvent"]))) (λ _,
     Do (Method (Subscribe "testEvent" (VFunction (User 0)))) (λ r,
     Do (Emit "testEvent" []) (λ _,
     match r with
     | Normal (Token t) =>
         Do (Method (Invoke t)) (λ _, Do (Emit "testEvent" []) (λ _, Finish Returns))
     | _ => Finish Returns
     end))))
  = Some [called 0 0 []].
Proof. vm_compute. reflexivity. Qed.

(** "clear() removes all subscriptions for an event" *)
Example test_clear :
  calls <$> after
    (Do (Method (Setup (VArray [VString "testEvent"]))) (λ _,
     Do (Method (Subscribe "testEvent" (VFunction (User 0)))) (λ _,
     Do (Method (Subscribe "testEvent" (VFunction (User 5)))) (λ _,
     Do (Method (Clear "testEvent")) (λ _,
     Do (Emit "testEvent" []) (λ _, Finish Returns))))))
  = Some [].
Proof. vm_compute. reflexivity. Qed.

(** "reset() clears all subscriptions and events" *)
Example test_reset :
  (λ w, (size (registeredEvents (bus w)), size (events (bus w)))) <$> after
    (Do (Method (Setup (VArray [VString "testEvent1"; VString "testEvent2"]))) (λ _,
     Do (Method (Subscribe "testEvent1" (VFunction (User 0)))) (λ _,
     Do (Method Reset) (λ _, Finish Returns))))
  = Some (0, 0).
Proof. vm_compute. reflexivity. Qed.

(** "emit() does nothing for events with no subscribers" and "emit() does
    nothing for unregistered events": nobody is called; the promise of the
    second [emit] is fulfilled when it returns, that of the first once
    [emit] has resumed. *)
Example test_emit_nothing :
  (w ← after
     (Do (Method (Setup (VArray [VString "testEvent"]))) (λ _,
      Do (Emit "testEvent" []) (λ _,
      Do (Emit "unregisteredEvent" []) (λ _, Finish Returns))));
   w' ← resume_emit 0 w;
   Some (calls w, emit_promise <$> emissions w !! 0,
         emit_promise <$> emissions w !! 1,
         emit_promise <$> emissions w' !! 0))
  = Some ([], Some None, Some (Some Fulfilled), Some (Some Fulfilled)).
Proof. vm_compute. reflexivity. Qed.

End Replay.

(** * One-time subscriptions *)

Section Once.

Variable behaviour : nat → list value → world → script.
Variable u : nat.

Hypothesis behaviour_avoids :
  ∀ u' args w, script_ok (op_avoids u) (behaviour u' args w).

Local Abbreviation avoiding := (λ f, ¬ fn_mentions u f).

Lemma times_called_log f c g args w :
  times_called f (log_call c g args w)
  = times_called f w + (if decide (g = f) then 1 else 0).
Proof.
  unfold times_called; simpl. rewrite filter_app, length_app. f_equal.
  rewrite filter_cons. simpl. case_decide; by rewrite filter_nil.
Qed.

Lemma times_called_other f c g args w :
  g ≠ f → times_called f (log_call c g args w) = times_called f w.
Proof. intros H. rewrite times_called_log, decide_False by done. lia. Qed.

Lemma avoiding_not_user g : avoiding g → g ≠ User u.
Proof. intros H ->. by apply H. Qed.

Lemma prim_times_called oko b w w' :
  prim oko avoiding b w w' → times_called (User u) w' = times_called (User u) w.
Proof.
  intros H. destruct H.
  - unfold times_called. destruct (perform_frame o w) as (_ & _ & _ & _ & -> & _). done.
  - by apply times_called_other, avoiding_not_user.
  - done.
  - unfold begin_arrow.
    change (times_called (User u) (update_arrows k _ ?w0))
      with (times_called (User u) w0).
    by apply times_called_other, avoiding_not_user.
  - unfold times_called.
    destruct (end_arrow_frame k i (em_event em) o w) as (_ & _ & _ & -> & _). done.
Qed.

Lemma prims_times_called oko b w w' :
  rtc (prim oko avoiding b) w w' → times_called (User u) w' = times_called (User u) w.
Proof.
  induction 1 as [|w1 w2 w3 H _ IH]; [done|].
  apply prim_times_called in H. congruence.
Qed.

(** Once nothing subscribed leads to [u], nothing a task does calls [u]
    or subscribes it again. *)
Lemma avoiding_task_prims fuel s w o w' :
  script_ok (op_avoids u) s → bus_ok avoiding w →
  run (invoke behaviour fuel) s w = Some (o, w') →
  rtc (prim (op_avoids u) avoiding (emitted w)) w w'.
Proof.
  apply (task_prims behaviour (op_avoids u) avoiding).
  - done.
  - intros id event callback H. exact H.
  - intros o' w0. apply perform_avoids_bus_ok.
  - intros u' args' w0 _. apply behaviour_avoids.
Qed.

Lemma avoiding_emit_prims fuel event args w r w' :
  bus_ok avoiding w →
  emit (invoke behaviour fuel) event args w = Some (r, w') →
  rtc (prim (op_avoids u) avoiding (emitted w)) w w'.
Proof.
  apply (emit_call_prims behaviour (op_avoids u) avoiding).
  - done.
  - intros id event' callback H. exact H.
  - intros o' w0. apply perform_avoids_bus_ok.
  - intros u' args' w0 _. apply behaviour_avoids.
Qed.

Lemma avoiding_prims_bus_ok b w w' :
  rtc (prim (op_avoids u) avoiding b) w w' → bus_ok avoiding w → bus_ok avoiding w'.
Proof. apply prims_bus_ok. intros o' w0. apply perform_avoids_bus_ok. Qed.

Lemma step_avoiding_keeps w w' :
  step_avoiding behaviour u w w' → bus_ok avoiding w →
  bus_ok avoiding w' ∧ times_called (User u) w' = times_called (User u) w.
Proof.
  intros H Hok.
  destruct H as [fuel s o w w' Hs Hrun|p s w Hp|k i w w' Hrun|k w w' Hrun].
  4:{ by apply resume_emit_spec in Hrun as (em & snapshot & s & _ & _ & _ & _ & ->). }
  - apply avoiding_task_prims in Hrun; [|done..].
    split; [by eapply avoiding_prims_bus_ok|by eapply prims_times_called].
  - done.
  - unfold resume in Hrun.
    destruct (emissions w !! k) as [em|]; simpl in Hrun; [|done].
    destruct (em_arrows em !! i) as [a|]; simpl in Hrun; [|done].
    destruct (arrow_done a); [done|].
    destruct (arrow_result a) as [o|]; simpl in Hrun; [|done].
    destruct (awaited o) as [x|]; simpl in Hrun; [|done].
    destruct (fate w x) as [[|e]|]; simpl in Hrun; [| |done];
      by injection Hrun as <-.
Qed.

Lemma steps_avoiding_keep w w' :
  rtc (step_avoiding behaviour u) w w' → bus_ok avoiding w →
  bus_ok avoiding w' ∧ times_called (User u) w' = times_called (User u) w.
Proof.
  induction 1 as [|w1 w2 w3 H _ IH]; [done|]. intros Hok.
  destruct (step_avoiding_keeps _ _ H Hok) as [Hok2 E2].
  destruct (IH Hok2) as [Hok3 E3]. split; [done|congruence].
Qed.

Variables (wrapper : fn) (event : string).

Local Abbreviation J := (only_wrapper u wrapper event).

Lemma perform_only_wrapper o w : op_avoids u o → J w → J (perform o w).2.
Proof.
  intros Ho HJ x subscribers f Hl Hf Hm.
  destruct (perform_avoids u o w x subscribers f Ho Hl Hf Hm) as (l & Hl' & Hf').
  by eapply HJ.
Qed.

(** Handlers that never emit and do not lead to [u] leave it uncalled. *)
Lemma quiet_run invoke s w o w' :
  emit_free s → script_ok (op_avoids u) s →
  run invoke s w = Some (o, w') →
  J w → J w' ∧ times_called (User u) w' = times_called (User u) w.
Proof.
  intros Hs. revert w. induction Hs as [o'|op next _ IH]; intros w Hok Hrun HJ;
    simpl in Hrun.
  - by injection Hrun as _ <-.
  - inversion Hok as [|op' next' Hop Hnext|]; subst.
    destruct (perform op w) as [r w1] eqn:Hp.
    assert (Hw1 : w1 = (perform op w).2) by (by rewrite Hp).
    destruct (IH r w1 (Hnext r) Hrun) as [HJ' Ht].
    { rewrite Hw1. by apply perform_only_wrapper. }
    split; [done|]. rewrite Ht, Hw1. unfold times_called.
    destruct (perform_frame op w) as (_ & _ & _ & _ & -> & _). done.
Qed.

Lemma quiet_invoke fuel g args w o w' :
  fn_emit_free behaviour g → avoiding g →
  invoke behaviour fuel g args w = Some (o, w') →
  J w → J w' ∧ times_called (User u) w' = times_called (User u) w.
Proof.
  revert g args w o w'. induction fuel as [|fuel IH]; intros g args w o w' Hq Hg Hrun HJ;
    [done|].
  rewrite invoke_S in Hrun. destruct g as [u'|id event' callback].
  - by eapply quiet_run.
  - destruct (invoke behaviour fuel callback args _) as [[o1 w1]|] eqn:H1;
      simpl in Hrun; [|done].
    injection Hrun as _ <-.
    apply IH in H1 as [HJ' Ht]; [|done|done|].
    + split; [done|]. rewrite Ht.
      rewrite times_called_other by (by apply avoiding_not_user).
      unfold times_called.
      destruct (perform_frame (Unsubscribe event' (VFunction (Wrapper id event' callback))) w)
        as (_ & _ & _ & _ & -> & _). done.
    + change (J (perform (Unsubscribe event' (VFunction (Wrapper id event' callback))) w).2).
      by apply perform_only_wrapper.
Qed.

Lemma quiet_start_arrows fuel k i event' args snapshot w w' :
  Forall (fn_emit_free behaviour) snapshot → Forall avoiding snapshot →
  start_arrows (invoke behaviour fuel) k i event' args snapshot w = Some w' →
  J w → J w' ∧ times_called (User u) w' = times_called (User u) w.
Proof.
  intros Hq. revert i w. induction Hq as [|g rest Hg _ IH]; intros i w Hav Hrun HJ;
    simpl in Hrun.
  - by injection Hrun as <-.
  - inversion Hav as [|g' rest' Hag Harest]; subst.
    destruct (start_arrow _ _ _ _ _ _ _) as [w2|] eqn:H2; simpl in Hrun; [|done].
    unfold start_arrow in H2.
    destruct (invoke behaviour fuel g args _) as [[o w1]|] eqn:H1; simpl in H2; [|done].
    injection H2 as <-.
    apply quiet_invoke in H1 as [HJ1 Ht1]; [|done..].
    destruct (end_arrow_frame k i event' o w1) as (_ & Eb & _ & Ec & _).
    destruct (IH (S i) _ Harest Hrun) as [HJ' Ht'].
    { unfold only_wrapper. by rewrite Eb. }
    split; [done|]. rewrite Ht'. unfold times_called at 1. rewrite Ec.
    fold (times_called (User u) w1). rewrite Ht1. unfold begin_arrow.
    change (times_called (User u) (update_arrows k _ ?w0))
      with (times_called (User u) w0).
    by apply times_called_other, avoiding_not_user.
Qed.

End Once.

Section OnceClaim.

Variable behaviour : nat → list value → world → script.
Variable u : nat.

Hypothesis behaviour_avoids :
  ∀ u' args w, script_ok (op_avoids u) (behaviour u' args w).

Local Abbreviation avoiding := (λ f, ¬ fn_mentions u f).

Lemma start_arrows_app invoke k i event args (l1 l2 : list fn) w :
  start_arrows invoke k i event args (l1 ++ l2) w
  = w1 ← start_arrows invoke k i event args l1 w;
    start_arrows invoke k (i + length l1) event args l2 w1.
Proof.
  revert i w. induction l1 as [|f l1 IH]; intros i w; simpl.
  - by rewrite Nat.add_0_r.
  - destruct (start_arrow invoke k i event args f w) as [w1|]; simpl; [|done].
    rewrite IH. by replace (S i + length l1) with (i + S (length l1)) by lia.
Qed.

Lemma unsubscribe_removes event f this subscribers :
  events (unsubscribe event (VFunction f) this).2 !! event = Some subscribers →
  f ∉ subscribers.
Proof.
  unfold unsubscribe. destruct (events this !! event) as [l|] eqn:Hl; simpl.
  - rewrite lookup_insert_eq. intros [= <-] [_ H]%Set_delete_elem. done.
  - by rewrite Hl.
Qed.

Lemma emit_result invoke event args w r w' :
  emit invoke event args w = Some (r, w') → r = Normal (Promise (emitted w)).
Proof.
  unfold emit. destruct (events (bus w) !! event).
  - destruct (start_arrows _ _ _ _ _ _ _); simpl; [|done]. by intros [= <- _].
  - by intros [= <- _].
Qed.

(** The wrapper has left the subscriber set by the time it calls the
    callback. *)
Lemma wrapper_removes_itself_first fuel id event callback args w o w' :
  invoke behaviour (S fuel) (Wrapper id event callback) args w = Some (o, w') →
  ∃ o',
    invoke behaviour fuel callback args
      (log_call (ByWrapper id) callback args
         (perform (Unsubscribe event (VFunction (Wrapper id event callback))) w).2)
    = Some (o', w')
    ∧ ∀ subscribers,
        events (bus (perform (Unsubscribe event (VFunction (Wrapper id event callback)))
                       w).2) !! event = Some subscribers →
        Wrapper id event callback ∉ subscribers.
Proof.
  rewrite invoke_S.
  destruct (invoke behaviour fuel callback args _) as [[o1 w1]|] eqn:H1; simpl; [|done].
  intros [= _ <-]. exists o1. split; [done|].
  intros subscribers. unfold perform.
  destruct (unsubscribe event _ (bus w)) as [c b] eqn:Hm. simpl. intros Hl.
  apply (unsubscribe_removes event _ (bus w)). by rewrite Hm.
Qed.

(** The arrow of the wrapper: the wrapper leaves, the callback is called
    once, and afterwards nothing subscribed leads to [u]. *)
Lemma wrapper_fires fuel k i id event event' args w w' :
  only_wrapper u (Wrapper id event (User u)) event w →
  start_arrow (invoke behaviour fuel) k i event' args (Wrapper id event (User u)) w
  = Some w' →
  bus_ok avoiding w'
  ∧ times_called (User u) w' = S (times_called (User u) w)
  ∧ mkInvocation (ByWrapper id) (User u) args ∈ calls w'.
Proof.
  intros HJ Hrun. unfold start_arrow in Hrun.
  destruct (invoke behaviour fuel _ args _) as [[o w1]|] eqn:Hinv; simpl in Hrun; [|done].
  injection Hrun as <-.
  destruct fuel as [|fuel]; [done|].
  apply wrapper_removes_itself_first in Hinv as (o' & Hcall & Hgone).
  set (wa := begin_arrow k (Wrapper id event (User u)) args w) in *.
  set (wu := (perform (Unsubscribe event (VFunction (Wrapper id event (User u)))) wa).2)
    in *.
  assert (Hok : bus_ok avoiding wu).
  { intros x l f Hl Hf Hm.
    destruct (perform_avoids u
                (Unsubscribe event (VFunction (Wrapper id event (User u))))
                wa x l f I Hl Hf Hm) as (l0 & Hl0 & Hf0).
    destruct (HJ x l0 f Hl0 Hf0 Hm) as [-> ->].
    by apply (Hgone l). }
  destruct fuel as [|fuel]; [done|]. rewrite invoke_S in Hcall.
  apply (avoiding_task_prims behaviour u behaviour_avoids) in Hcall; [|done..].
  pose proof (avoiding_prims_bus_ok u _ _ _ Hcall Hok) as Hok1.
  pose proof (prims_times_called u _ _ _ _ Hcall) as Ht1.
  apply prims_frame in Hcall as (_ & _ & Hpre & _).
  destruct (end_arrow_frame k i event' o w1) as (_ & Eb & _ & Ec & _).
  split_and!.
  - unfold bus_ok. by rewrite Eb.
  - unfold times_called at 1. rewrite Ec. fold (times_called (User u) w1).
    rewrite Ht1, times_called_log, decide_True by done.
    unfold times_called, wu.
    destruct (perform_frame (Unsubscribe event (VFunction (Wrapper id event (User u)))) wa)
      as (_ & _ & _ & _ & -> & _).
    fold (times_called (User u) wa). unfold wa, begin_arrow.
    change (times_called (User u) (update_arrows k _ ?w0))
      with (times_called (User u) w0).
    rewrite times_called_other by done. unfold times_called. lia.
  - rewrite Ec. destruct Hpre as [rest ->].
    apply elem_of_app. left. simpl. apply elem_of_app. right.
    apply list_elem_of_here.
Qed.



End OnceClaim.

(** * The theorems at work on the sample *)

Section Witnesses.

Lemma sample_avoids_3 u' args w : script_ok (op_avoids 3) (sample u' args w).
Proof.
  destruct u' as [|[|[|[|[|u']]]]]; simpl; try (repeat constructor; simpl; lia).
  destruct (events (bus w) !! "e"); [|constructor].
  destruct (existsb _ _); repeat constructor. simpl. lia.
Qed.

Lemma sample_world_avoids_3 : bus_ok (λ f, ¬ fn_mentions 3 f) sample_world.
Proof.
  assert (H : map_Forall (λ _ l, Forall (λ f, ¬ fn_mentions 3 f) l)
                (events (bus sample_world))).
  { apply (bool_decide_unpack _). vm_compute. exact I. }
  intros event subscribers f Hl Hf.
  pose proof (H event subscribers Hl) as Hall.
  by apply (proj1 (Forall_forall _ _) Hall).
Qed.

Lemma sample_subscribers :
  events (bus sample_world) !! "e" = Some [User 0; User 1; User 2; User 4].
Proof. vm_compute. reflexivity. Qed.

Lemma sample_subscribers_quiet :
  Forall (fn_emit_free sample) [User 0; User 1; User 2; User 4].
Proof. repeat constructor. Qed.

(** On the sample: function 4 subscribes function 5 while the emission runs,
    and the emission still calls the four handlers of its snapshot only. *)
Lemma emit_dispatches_the_snapshot_witness :
  ∃ fuel w',
    emit (invoke sample fuel) "e" [VNumber 42] sample_world
    = Some (Normal (Promise 0), w')
    ∧ invocations_by 0 w'
      = [(User 0, [VNumber 42]); (User 1, [VNumber 42]);
         (User 2, [VNumber 42]); (User 4, [VNumber 42])].
Proof.
  destruct (emit_dispatches_the_snapshot sample sample_world "e" [VNumber 42]
              [User 0; User 1; User 2; User 4]
              sample_world_wf sample_halts sample_subscribers)
    as (fuel & w' & Hrun & H).
  exists fuel, w'. split; [exact Hrun|].
  exact (proj1 (H w' (rtc_refl _ _))).
Defined.


(** On the sample: when [emit] returns, the four handlers have been called
    and nothing has settled; function 2 returned a pending promise, and
    the arrow of function 0 can finish while that of function 2 waits. *)
Lemma emit_starts_all_before_awaiting_witness :
  ∃ fuel w' arrows w1 em1 a1 b1,
    emit (invoke sample fuel) "e" [VNumber 42] sample_world
    = Some (Normal (Promise 0), w')
    ∧ Forall2 started arrows [User 0; User 1; User 2; User 4]
    ∧ settlements w' = settlements sample_world
    ∧ rtc (step sample) w' w1
    ∧ emissions w1 !! 0 = Some em1
    ∧ em_arrows em1 !! 0 = Some a1 ∧ em_arrows em1 !! 2 = Some b1
    ∧ arrow_done a1 = Some Fulfilled ∧ arrow_done b1 = None.
Proof.
  destruct (emit_starts_all_before_awaiting sample sample_world "e" [VNumber 42]
              [User 0; User 1; User 2; User 4]
              sample_world_wf sample_halts sample_subscribers)
    as (fuel & w' & arrows & Hrun & Hem & Hst & _ & Hs & _ & _ & Horder).
  assert (Harrows : arrows
                    = [mkArrow (User 0) (Some Returns) None;
                       mkArrow (User 1) (Some (Throws (Error "Handler 2 failed")))
                         (Some Fulfilled);
                       mkArrow (User 2) (Some (ReturnsPromise (Deferred 7))) None;
                       mkArrow (User 4) (Some Returns) None]).
  { assert (Hc : match emit (invoke sample 3) "e" [VNumber 42] sample_world with
                   | Some (_, w0) => em_arrows <$> emissions w0 !! 0
                   | None => None
                   end
                   = Some [mkArrow (User 0) (Some Returns) None;
                           mkArrow (User 1) (Some (Throws (Error "Handler 2 failed")))
                             (Some Fulfilled);
                           mkArrow (User 2) (Some (ReturnsPromise (Deferred 7))) None;
                           mkArrow (User 4) (Some Returns) None]).
    { vm_compute. reflexivity. }
    destruct (emit (invoke sample 3) "e" [VNumber 42] sample_world)
      as [[r0 w0]|] eqn:H3; [|discriminate].
    pose proof (emit_fuel_same sample _ _ _ _ _ _ _ Hrun H3) as Heq.
    injection Heq as _ <-.
    change (emitted sample_world) with 0 in Hem. rewrite Hem in Hc.
    by injection Hc as <-. }
  destruct (Horder 0 2
              (mkArrow (User 0) (Some Returns) None)
              (mkArrow (User 2) (Some (ReturnsPromise (Deferred 7))) None)
              Returns (ReturnsPromise (Deferred 7)) 7)
    as (_ & w1 & em1 & a1 & b1 & Hsteps & Hem1 & Ha1 & Hb1 & Hda1 & Hdb1 & _);
    try (by rewrite Harrows); try done.
  - rewrite Hs. vm_compute. reflexivity.
  - exists fuel, w', arrows, w1, em1, a1, b1.
    split; [exact Hrun|]. split; [exact Hst|]. split; [exact Hs|].
    split; [exact Hsteps|]. split; [exact Hem1|]. split; [exact Ha1|].
    split; [exact Hb1|]. split; [exact Hda1|exact Hdb1].
Defined.

(** On the sample: function 9 subscribed twice is called once. *)
Lemma subscribe_twice_is_once_witness :
  (perform (Subscribe "e" (VFunction (User 9)))
     (perform (Subscribe "e" (VFunction (User 9))) sample_world).2).2
  = (perform (Subscribe "e" (VFunction (User 9))) sample_world).2
  ∧ ∃ fuel w',
      emit (invoke sample fuel) "e" []
        (perform (Subscribe "e" (VFunction (User 9)))
           (perform (Subscribe "e" (VFunction (User 9))) sample_world).2).2
      = Some (Normal (Promise 0), w')
      ∧ length (filter (λ c, c.1 = User 9) (invocations_by 0 w')) = 1.
Proof.
  assert (Hreg : "e" ∈ registeredEvents (bus sample_world)).
  { apply (bool_decide_unpack _). vm_compute. exact I. }
  destruct (subscribe_twice_is_once sample sample_world "e" (User 9) []
              sample_world_wf sample_halts Hreg) as (_ & Hsame & _ & Hemit).
  split; [exact Hsame|exact Hemit].
Defined.

(** On the sample: the world after the set-up task. *)
Lemma registry_is_the_key_set_witness :
  dom (events (bus sample_world)) = registeredEvents (bus sample_world).
Proof.
  exact (proj1 (registry_is_the_key_set sample sample_world sample_world_reachable)).
Defined.


End Witnesses.

(** * More about the synchronous methods *)

Section BusMore.
Implicit Types (this : Events) (event name : string) (f : fn).

Lemma setup_strings (names : list string) this :
  setup (VArray (VString <$> names)) this = (Normal tt, register_all names this).
Proof.
  simpl. rewrite setup_loop_all_strings.
  - f_equal. f_equal. induction names; simpl; [done|]. by f_equal.
  - apply Forall_fmap, Forall_forall. intros s _. simpl. eauto.
Qed.

Lemma strings_of (elems : list value) :
  Forall (λ v, is_Some (as_string v)) elems →
  elems = VString <$> omap as_string elems.
Proof.
  induction 1 as [|v l [s Hs] _ IH]; [done|].
  destruct v; try discriminate. injection Hs as ->. simpl. by f_equal.
Qed.

(** X1: [setup] returns normally exactly for an array all of whose elements
    are strings; it throws "setup() requires an array of event names"
    exactly when the argument is not an array, and then leaves the state as
    it was; it throws "Event names must be strings" exactly when the
    argument is an array with an element whose [typeof] is not ["string"].
    It throws nothing else. *)
Theorem setup_accepts_exactly_arrays_of_strings (eventNames : value) this :
  ((setup eventNames this).1 = Normal tt
     ↔ ∃ names : list string, eventNames = VArray (VString <$> names))
  ∧ ((setup eventNames this).1 = Throw (Error "setup() requires an array of event names")
     ↔ ∀ elems, eventNames ≠ VArray elems)
  ∧ ((setup eventNames this).1 = Throw (Error "Event names must be strings")
     ↔ ∃ elems v, eventNames = VArray elems ∧ v ∈ elems ∧ typeof v ≠ "string")
  ∧ ((∀ elems, eventNames ≠ VArray elems) → (setup eventNames this).2 = this)
  ∧ (∀ e, (setup eventNames this).1 = Throw e → is_InvalidArgument e).
Proof.
  assert (Hty : ∀ v, typeof v ≠ "string" ↔ as_string v = None).
  { intros v. destruct v; simpl; split; congruence. }
  assert (Hcase : (∃ elems, eventNames = VArray elems)
                  ∨ ((¬ ∃ elems, eventNames = VArray elems)
                     ∧ setup eventNames this
                       = (Throw (Error "setup() requires an array of event names"), this))).
  { destruct eventNames; try (right; split; [by intros [? ?]|done]). left. eauto. }
  destruct Hcase as [[elems ->]|[Hno Hrun]].
  - destruct (decide (Forall (λ v, is_Some (as_string v)) elems)) as [Hall|Hnot].
    + pose proof (strings_of elems Hall) as Heq.
      set (names := omap as_string elems) in Heq. clearbody names. subst elems.
      rewrite setup_strings. simpl.
      split_and!; try done.
      * split; [eauto|done].
      * split; [done|]. intros H. exfalso. by eapply H.
      * split; [done|]. intros (l & v & [= <-] & Hv & Hs).
        apply Hty in Hs. rewrite Forall_forall in Hall.
        destruct (Hall v Hv) as [s Hs']. congruence.
      * intros H. exfalso. by eapply H.
    + assert (Hbad : ∃ v, v ∈ elems ∧ as_string v = None).
      { apply not_Forall_Exists in Hnot; [|apply _].
        apply Exists_exists in Hnot as (v & Hv & Hs). exists v. split; [done|].
        simpl in Hs. destruct (as_string v); [|done]. destruct Hs. by eexists. }
      destruct (first_non_string elems Hbad) as (pre & v & post & -> & Hpre & Hv).
      assert (Hrun : setup (VArray (pre ++ v :: post)) this
                     = (Throw (Error "Event names must be strings"),
                        register_all (omap as_string pre) this)).
      { simpl. rewrite setup_loop_strings by done. simpl. by rewrite Hv. }
      rewrite Hrun. simpl. split_and!.
      * split; [done|]. intros [names [= Hn]]. destruct Hnot. rewrite Hn.
        apply Forall_fmap, Forall_forall. intros s _. simpl. eauto.
      * split; [done|]. intros H. exfalso. by eapply H.
      * split; [|done]. intros _. exists (pre ++ v :: post), v.
        split_and!; [done| |by apply Hty].
        apply elem_of_app. right. apply list_elem_of_here.
      * intros H. exfalso. by eapply H.
      * intros e [= <-]. right. by left.
  - rewrite Hrun. simpl. split_and!.
    + split; [done|]. intros [names ->]. destruct Hno. eauto.
    + split; [|done]. intros _ elems ->. destruct Hno. eauto.
    + split; [done|]. intros (elems & v & -> & _). destruct Hno. eauto.
    + done.
    + intros e [= <-]. by left.
Qed.


Lemma register_all_app (a b : list string) this :
  register_all (a ++ b) this = register_all b (register_all a this).
Proof. unfold register_all. by rewrite foldl_app. Qed.

Lemma register_all_same_names (names names' : list string) this :
  (∀ x, x ∈ names ↔ x ∈ names') →
  register_all names this = register_all names' this.
Proof.
  intros H. apply Events_eq.
  - apply map_eq. intros event. rewrite !register_all_lookup.
    destruct (events this !! event); [done|].
    destruct (decide (event ∈ names)) as [Hin|Hnin].
    + rewrite decide_True by (by apply H). done.
    + rewrite decide_False by (by rewrite <- H). done.
  - rewrite !register_all_registered. set_solver.
Qed.

(** X2: for an array of strings [setup] registers every name of the array
    and nothing else; a name that had a subscriber set keeps it with its
    subscribers, a name that had none gets an empty one, and [subscribe]
    then succeeds for every name of the array.  The empty array changes
    nothing. *)
Theorem setup_registers_and_keeps_subscribers (names : list string) this :
  (setup (VArray (VString <$> names)) this).1 = Normal tt
  ∧ registeredEvents (setup (VArray (VString <$> names)) this).2
    = list_to_set names ∪ registeredEvents this
  ∧ (∀ event,
       events (setup (VArray (VString <$> names)) this).2 !! event
       = match events this !! event with
         | Some subscribers => Some subscribers
         | None => if decide (event ∈ names) then Some [] else None
         end)
  ∧ (∀ event f, event ∈ names →
       ∃ t, (subscribe event (VFunction f)
               (setup (VArray (VString <$> names)) this).2).1 = Normal t)
  ∧ (names = [] → (setup (VArray (VString <$> names)) this).2 = this).
Proof.
  rewrite setup_strings. cbn [fst snd]. split_and!.
  - done.
  - apply register_all_registered.
  - apply register_all_lookup.
  - intros event f Hin.
    assert (Hreg : event ∈ registeredEvents (register_all names this)).
    { rewrite register_all_registered. set_solver. }
    assert (∃ l, events (register_all names this) !! event = Some l) as [l Hl].
    { rewrite register_all_lookup. destruct (events this !! event); [eauto|].
      rewrite decide_True by done. eauto. }
    rewrite (subscribe_registered _ _ _ l) by done. eauto.
  - by intros ->.
Qed.

(** X3: two [setup] calls in a row are one call on the concatenated array;
    repeating a call changes nothing; and the state a call leaves depends
    only on which names the array holds, not on their order or on
    repetitions. *)
Theorem setup_depends_on_the_set_of_names (a b : list string) this :
  setup (VArray (VString <$> b)) (setup (VArray (VString <$> a)) this).2
  = setup (VArray (VString <$> (a ++ b))) this
  ∧ setup (VArray (VString <$> a)) (setup (VArray (VString <$> a)) this).2
    = setup (VArray (VString <$> a)) this
  ∧ ((∀ x, x ∈ a ↔ x ∈ b) →
     setup (VArray (VString <$> a)) this = setup (VArray (VString <$> b)) this).
Proof.
  rewrite !setup_strings. cbn [snd]. split_and!.
  - by rewrite register_all_app.
  - rewrite <- register_all_app. f_equal. apply register_all_same_names.
    intros x. rewrite elem_of_app. tauto.
  - intros H. f_equal. by apply register_all_same_names.
Qed.

Lemma typeof_function (v : value) :
  typeof v = "function" ↔ ∃ f, v = VFunction f.
Proof.
  split; [|by intros [f ->]].
  destruct v; simpl; try discriminate. eauto.
Qed.

Lemma consistent_entry this event :
  consistent this → event ∈ registeredEvents this → is_Some (events this !! event).
Proof. intros [Hdom _] H. apply elem_of_dom. by rewrite Hdom. Qed.

Lemma subscribe_not_function event callback this :
  event ∈ registeredEvents this → typeof callback ≠ "function" →
  subscribe event callback this = (Throw (Error "Callback must be a function"), this).
Proof.
  intros Hreg Hty. unfold subscribe. rewrite decide_True by done.
  destruct callback; done.
Qed.

(** X4: on a consistent bus [subscribe] returns normally exactly when the
    event is registered and the callback is a function.  The event is
    checked first: for an unregistered event the error is the
    not-registered one whatever the callback is; for a registered event and
    a callback that is not a function it is "Callback must be a function".
    No other error is thrown, and a call that throws leaves the state as it
    was. *)
Theorem subscribe_checks_the_event_then_the_callback event callback this :
  consistent this →
  ((∃ t, (subscribe event callback this).1 = Normal t)
     ↔ event ∈ registeredEvents this ∧ typeof callback = "function")
  ∧ (event ∉ registeredEvents this →
       subscribe event callback this = (Throw (NotRegistered event), this))
  ∧ (event ∈ registeredEvents this → typeof callback ≠ "function" →
       subscribe event callback this
       = (Throw (Error "Callback must be a function"), this))
  ∧ (∀ e, (subscribe event callback this).1 = Throw e →
       (is_NotRegistered e ∨ is_InvalidArgument e)
       ∧ (subscribe event callback this).2 = this).
Proof.
  intros Hc.
  destruct (decide (event ∈ registeredEvents this)) as [Hreg|Hreg].
  - destruct (decide (typeof callback = "function")) as [Hty|Hty].
    + apply typeof_function in Hty as [f ->].
      destruct (consistent_entry _ _ Hc Hreg) as [l Hl].
      rewrite (subscribe_registered _ _ _ l) by done. cbn [fst snd].
      split_and!; try done; try (split; [done|eauto]).
    + rewrite subscribe_not_function by done. cbn [fst snd].
      split_and!; try done.
      * split; [by intros [? ?]|by intros [_ ?]].
      * intros e [= <-]. split; [|done]. right. right. by right.
  - rewrite subscribe_unregistered by done. cbn [fst snd].
    split_and!; try done.
    + split; [by intros [? ?]|by intros [? _]].
    + intros e [= <-]. split; [|done]. left. by exists event.
Qed.

(** The closure that [once] allocates is not the callback it wraps. *)
Lemma Wrapper_fresh id event f : Wrapper id event f ≠ f.
Proof.
  intros H. apply (f_equal depth) in H. simpl in H. lia.
Qed.

(** X5: [once] checks its arguments as [subscribe] does, with the same
    errors in the same order, and a call that throws leaves the state as it
    was.  A call that succeeds subscribes the wrapper and returns the token
    of the wrapper: the callback itself is in the subscriber set afterwards
    only if it was there before. *)
Theorem once_checks_like_subscribe id event callback this :
  consistent this →
  ((∃ t, (once id event callback this).1 = Normal t)
     ↔ event ∈ registeredEvents this ∧ typeof callback = "function")
  ∧ (event ∉ registeredEvents this →
       once id event callback this = (Throw (NotRegistered event), this))
  ∧ (event ∈ registeredEvents this → typeof callback ≠ "function" →
       once id event callback this
       = (Throw (Error "Callback must be a function"), this))
  ∧ (∀ e, (once id event callback this).1 = Throw e →
       (is_NotRegistered e ∨ is_InvalidArgument e)
       ∧ (once id event callback this).2 = this)
  ∧ (∀ f subscribers,
       event ∈ registeredEvents this → callback = VFunction f →
       events this !! event = Some subscribers →
       (once id event callback this).1 = Normal (mkToken event (Wrapper id event f))
       ∧ (∃ subscribers',
            events (once id event callback this).2 !! event = Some subscribers'
            ∧ Wrapper id event f ∈ subscribers'
            ∧ (f ∈ subscribers' ↔ f ∈ subscribers))).
Proof.
  intros Hc.
  destruct (decide (event ∈ registeredEvents this)) as [Hreg|Hreg].
  - destruct (decide (typeof callback = "function")) as [Hty|Hty].
    + apply typeof_function in Hty as [f ->].
      destruct (consistent_entry _ _ Hc Hreg) as [l Hl].
      assert (Hrun : once id event (VFunction f) this
                     = (Normal (mkToken event (Wrapper id event f)),
                        {| events := <[event := Set_add (Wrapper id event f) l]> (events this);
                           registeredEvents := registeredEvents this |})).
      { unfold once. rewrite decide_True by done. cbn [as_function].
        by apply subscribe_registered. }
      rewrite Hrun. cbn [fst snd events].
      split_and!; try done.
      * split; [done|eauto].
      * intros f' subscribers _ [= <-] Hl'. rewrite Hl in Hl'. injection Hl' as <-.
        split; [done|]. exists (Set_add (Wrapper id event f) l).
        rewrite lookup_insert_eq. split_and!; [done|apply Set_add_elem|].
        unfold Set_add. case_decide; [done|]. rewrite elem_of_app.
        rewrite list_elem_of_singleton. split; [|tauto].
        intros [?|H']; [done|]. symmetry in H'. by apply Wrapper_fresh in H'.
    + assert (Hrun : once id event callback this
                     = (Throw (Error "Callback must be a function"), this)).
      { unfold once. rewrite decide_True by done.
        destruct callback; done. }
      rewrite Hrun. cbn [fst snd].
      split_and!; try done.
      * split; [by intros [? ?]|by intros [_ ?]].
      * intros e [= <-]. split; [|done]. right. right. by right.
      * intros f subscribers _ ->. by destruct Hty.
  - assert (Hrun : once id event callback this = (Throw (NotRegistered event), this)).
    { unfold once. by rewrite decide_False. }
    rewrite Hrun. cbn [fst snd].
    split_and!; try done.
    + split; [by intros [? ?]|by intros [? _]].
    + intros e [= <-]. split; [|done]. left. by exists event.
Qed.


Lemma unsubscribe_entry event f this (subscribers : list fn) :
  events this !! event = Some subscribers →
  unsubscribe event (VFunction f) this
  = (Normal tt,
     {| events := <[event := Set_delete f subscribers]> (events this);
        registeredEvents := registeredEvents this |}).
Proof. intros H. unfold unsubscribe. by rewrite H. Qed.

Lemma unsubscribe_no_entry event callback this :
  events this !! event = None → unsubscribe event callback this = (Normal tt, this).
Proof. intros H. unfold unsubscribe. by rewrite H. Qed.

Lemma unsubscribe_not_function event callback this :
  typeof callback ≠ "function" → unsubscribe event callback this = (Normal tt, this).
Proof.
  intros H. unfold unsubscribe. destruct (events this !! event); [|done].
  destruct callback; done.
Qed.

Lemma Set_delete_sublist f (s : list fn) : sublist (Set_delete f s) s.
Proof. apply sublist_filter. Qed.

(** X6: [unsubscribe] never throws, whatever the event and the callback
    are.  It leaves the registry and the subscriber sets of the other events
    alone; the callback is gone from the set of the event, and the other
    subscribers stay, in their order.  When the callback is not a function,
    the event has no entry, or the callback is not subscribed, the state is
    left exactly as it was. *)
Theorem unsubscribe_removes_only_the_callback event callback this :
  (unsubscribe event callback this).1 = Normal tt
  ∧ registeredEvents (unsubscribe event callback this).2 = registeredEvents this
  ∧ (∀ other, other ≠ event →
       events (unsubscribe event callback this).2 !! other = events this !! other)
  ∧ (∀ f subscribers,
       callback = VFunction f → events this !! event = Some subscribers →
       ∃ subscribers',
         events (unsubscribe event callback this).2 !! event = Some subscribers'
         ∧ (f ∉ subscribers')
         ∧ (∀ g, g ≠ f → (g ∈ subscribers' ↔ g ∈ subscribers))
         ∧ sublist subscribers' subscribers)
  ∧ (typeof callback ≠ "function"
     ∨ events this !! event = None
     ∨ (∃ f subscribers, callback = VFunction f
          ∧ events this !! event = Some subscribers ∧ f ∉ subscribers) →
     (unsubscribe event callback this).2 = this).
Proof.
  split_and!.
  - unfold unsubscribe. destruct (events this !! event); [|done]. by destruct callback.
  - unfold unsubscribe. destruct (events this !! event); [|done]. by destruct callback.
  - intros other Hne. unfold unsubscribe.
    destruct (events this !! event); [|done].
    destruct callback; try done. cbn [snd events]. by rewrite lookup_insert_ne.
  - intros f subscribers -> Hl. rewrite (unsubscribe_entry _ _ _ subscribers) by done.
    cbn [snd events]. rewrite lookup_insert_eq. exists (Set_delete f subscribers).
    split_and!; [done| | |apply Set_delete_sublist].
    + rewrite Set_delete_elem. tauto.
    + intros g Hg. rewrite Set_delete_elem. tauto.
  - intros [Hty|[Hno|(f & subscribers & -> & Hl & Hf)]].
    + by rewrite unsubscribe_not_function.
    + by rewrite unsubscribe_no_entry.
    + rewrite (unsubscribe_entry _ _ _ subscribers) by done. cbn [snd].
      rewrite Set_delete_absent by done. by apply insert_same.
Qed.

Lemma Set_delete_added f (s : list fn) : f ∉ s → Set_delete f (Set_add f s) = s.
Proof.
  intros H. unfold Set_add. rewrite decide_False by done.
  unfold Set_delete. rewrite filter_app, filter_cons, decide_False by (by intros ?).
  rewrite filter_nil, app_nil_r. by apply Set_delete_absent.
Qed.

(** X7: the token that [subscribe(event, f)] returns is
    [unsubscribe(event, f)].  When [f] was not subscribed before, calling
    the token restores the state from before the subscription.  When [f]
    was subscribed already, the second subscription changes nothing, and
    the token it returns removes [f] altogether. *)
Theorem unsubscribe_token_undoes_subscribe event f this t this' :
  subscribe event (VFunction f) this = (Normal t, this') →
  invoke_token t = unsubscribe event (VFunction f)
  ∧ (∃ subscribers,
       events this !! event = Some subscribers
       ∧ (f ∉ subscribers → invoke_token t this' = (Normal tt, this))
       ∧ (f ∈ subscribers → this' = this)
       ∧ ∀ subscribers',
           events (invoke_token t this').2 !! event = Some subscribers' →
           (f ∉ subscribers')
           ∧ ∀ g, g ≠ f → (g ∈ subscribers' ↔ g ∈ subscribers)).
Proof.
  unfold subscribe. case_decide as Hreg; [|done]. cbn [as_function].
  destruct (events this !! event) as [l|] eqn:Hl; [|done].
  intros [= <- <-]. split; [done|]. exists l. split; [done|].
  unfold invoke_token. cbn [tok_event tok_callback].
  rewrite (unsubscribe_entry _ _ _ (Set_add f l))
    by (cbn [events]; by rewrite lookup_insert_eq).
  cbn [snd events registeredEvents]. rewrite insert_insert_eq.
  split_and!.
  - intros Hf. rewrite Set_delete_added by done. by rewrite insert_same.
  - intros Hf. unfold Set_add. rewrite decide_True by done. by apply insert_same.
  - intros subscribers'. rewrite lookup_insert_eq. intros [= <-].
    split; [rewrite Set_delete_elem; tauto|].
    intros g Hg. rewrite Set_delete_elem. unfold Set_add. case_decide; [tauto|].
    rewrite elem_of_app, list_elem_of_singleton. tauto.
Qed.

Lemma Set_delete_idemp f (s : list fn) : Set_delete f (Set_delete f s) = Set_delete f s.
Proof.
  apply Set_delete_absent. rewrite Set_delete_elem. tauto.
Qed.

Lemma Set_delete_comm f g (s : list fn) :
  Set_delete f (Set_delete g s) = Set_delete g (Set_delete f s).
Proof.
  unfold Set_delete. induction s as [|h s IH]; [done|].
  rewrite !filter_cons.
  destruct (decide (h ≠ g)), (decide (h ≠ f));
    rewrite ?filter_cons, ?decide_True, ?decide_False by done; by rewrite ?IH.
Qed.

(** X8: unsubscribing twice is unsubscribing once, and two
    unsubscriptions lead to the same state in either order. *)
Theorem unsubscribe_is_idempotent_and_commutes event callback event' callback' this :
  unsubscribe event callback (unsubscribe event callback this).2
  = unsubscribe event callback this
  ∧ (unsubscribe event callback (unsubscribe event' callback' this).2).2
    = (unsubscribe event' callback' (unsubscribe event callback this).2).2.
Proof.
  split.
  - unfold unsubscribe at 2 3.
    destruct (events this !! event) as [l|] eqn:Hl.
    + destruct callback; cbn [snd];
        try (unfold unsubscribe; by rewrite Hl).
      rewrite (unsubscribe_entry _ _ _ (Set_delete f l))
        by (cbn [events]; by rewrite lookup_insert_eq).
      cbn [events registeredEvents]. by rewrite insert_insert_eq, Set_delete_idemp.
    + cbn [snd]. by apply unsubscribe_no_entry.
  - destruct (decide (typeof callback = "function")) as [[f ->]%typeof_function|Hty];
      [|by rewrite !(unsubscribe_not_function event callback)].
    destruct (decide (typeof callback' = "function")) as [[f' ->]%typeof_function|Hty'];
      [|by rewrite !(unsubscribe_not_function event' callback')].
    destruct (events this !! event) as [l|] eqn:Hl;
      [|rewrite (unsubscribe_no_entry event _ this) by done].
    2:{ cbn [snd]. rewrite unsubscribe_no_entry; [done|].
        unfold unsubscribe. destruct (events this !! event') eqn:Hl'; [|done].
        cbn [snd events]. destruct (decide (event' = event)) as [->|Hne]; [congruence|].
        by rewrite lookup_insert_ne. }
    destruct (events this !! event') as [l'|] eqn:Hl';
      [|rewrite (unsubscribe_no_entry event' _ this) by done].
    2:{ cbn [snd]. rewrite (unsubscribe_no_entry event'); [done|].
        rewrite (unsubscribe_entry _ _ _ l) by done. cbn [snd events].
        destruct (decide (event = event')) as [->|Hne]; [congruence|].
        by rewrite lookup_insert_ne. }
    rewrite (unsubscribe_entry event' _ this l'), (unsubscribe_entry event _ this l) by done.
    cbn [snd]. destruct (decide (event = event')) as [<-|Hne].
    + assert (l' = l) as -> by congruence.
      rewrite !(unsubscribe_entry event _ _ (Set_delete _ l))
        by (cbn [events]; by rewrite lookup_insert_eq).
      cbn [snd events registeredEvents]. rewrite !insert_insert_eq.
      by rewrite Set_delete_comm.
    + rewrite (unsubscribe_entry event _ _ l)
        by (cbn [events]; by rewrite lookup_insert_ne).
      rewrite (unsubscribe_entry event' _ _ l')
        by (cbn [events]; by rewrite lookup_insert_ne).
      cbn [snd events registeredEvents]. by rewrite insert_insert_ne.
Qed.


(** X9: after [once(event, f)], [unsubscribe(event, f)] does not cancel
    the one-time subscription: what is subscribed is the wrapper, and it is
    still subscribed afterwards.  The token that [once] returned does cancel
    it, and restores the state from before the call of [once]. *)
Theorem unsubscribing_the_callback_does_not_cancel_once
    id event f this subscribers t this1 :
  events this !! event = Some subscribers →
  Wrapper id event f ∉ subscribers →
  once id event (VFunction f) this = (Normal t, this1) →
  events this1 !! event = Some (subscribers ++ [Wrapper id event f])
  ∧ (∃ subscribers',
       events (unsubscribe event (VFunction f) this1).2 !! event = Some subscribers'
       ∧ Wrapper id event f ∈ subscribers')
  ∧ t = mkToken event (Wrapper id event f)
  ∧ invoke_token t this1 = (Normal tt, this).
Proof.
  intros Hl Hfresh. unfold once. case_decide as Hreg; [|done]. cbn [as_function].
  rewrite (subscribe_registered _ _ _ subscribers) by done.
  intros [= <- <-]. cbn [events].
  assert (Hadd : Set_add (Wrapper id event f) subscribers
                 = subscribers ++ [Wrapper id event f]).
  { unfold Set_add. by rewrite decide_False. }
  split_and!.
  - by rewrite lookup_insert_eq, Hadd.
  - rewrite (unsubscribe_entry _ _ _ (Set_add (Wrapper id event f) subscribers))
      by (cbn [events]; by rewrite lookup_insert_eq).
    cbn [snd events]. rewrite lookup_insert_eq. eexists. split; [done|].
    rewrite Set_delete_elem. split; [apply Set_add_elem|apply Wrapper_fresh].
  - done.
  - unfold invoke_token. cbn [tok_event tok_callback].
    rewrite (unsubscribe_entry _ _ _ (Set_add (Wrapper id event f) subscribers))
      by (cbn [events]; by rewrite lookup_insert_eq).
    cbn [events registeredEvents]. rewrite insert_insert_eq.
    rewrite Set_delete_added by done. by rewrite insert_same.
Qed.

Lemma filter_all {A} (P : A → Prop) `{!∀ x, Decision (P x)} (l : list A) :
  (∀ x, x ∈ l → P x) → filter P l = l.
Proof.
  induction l as [|a l IH]; intros Hall; [done|].
  rewrite filter_cons_True by (apply Hall, list_elem_of_here).
  rewrite IH; [done|]. intros x Hx. by apply Hall, list_elem_of_further.
Qed.

Lemma filter_none {A} (P : A → Prop) `{!∀ x, Decision (P x)} (l : list A) :
  (∀ x, x ∈ l → ¬ P x) → filter P l = [].
Proof.
  induction l as [|a l IH]; intros Hall; [done|].
  rewrite filter_cons_False by (apply Hall, list_elem_of_here).
  apply IH. intros x Hx. by apply Hall, list_elem_of_further.
Qed.

Lemma unsubscribe_all_entry event (callbacks subscribers : list fn) this :
  events this !! event = Some subscribers →
  unsubscribe_all event callbacks this
  = {| events := <[event := filter (λ g, g ∉ callbacks) subscribers]> (events this);
       registeredEvents := registeredEvents this |}.
Proof.
  revert this subscribers. induction callbacks as [|f callbacks IH];
    intros this subscribers Hl.
  - unfold unsubscribe_all. simpl. symmetry.
    rewrite filter_all by (intros g _; apply not_elem_of_nil).
    by apply insert_same.
  - unfold unsubscribe_all in *. simpl.
    rewrite (unsubscribe_entry _ _ _ subscribers) by done. cbn [snd].
    rewrite (IH _ (Set_delete f subscribers))
      by (cbn [events]; by rewrite lookup_insert_eq).
    cbn [events registeredEvents]. rewrite insert_insert_eq. f_equal. f_equal.
    unfold Set_delete. rewrite list_filter_filter.
    apply list_filter_iff. intros g. rewrite not_elem_of_cons. tauto.
Qed.

(** X10: [clear(event)] leaves the state that unsubscribing every current
    subscriber of the event, one after the other, leaves. *)
Theorem clear_is_unsubscribing_everyone event this subscribers :
  events this !! event = Some subscribers →
  (clear event this).2 = unsubscribe_all event subscribers this.
Proof.
  intros Hl. rewrite (unsubscribe_all_entry _ _ subscribers) by done.
  unfold clear. rewrite Hl. cbn [snd]. f_equal. f_equal.
  symmetry. apply filter_none. intros x Hx Hn. by apply Hn.
Qed.

Lemma setup_loop_registered names this :
  registeredEvents this ⊆ registeredEvents (setup_loop names this).2.
Proof.
  revert this. induction names as [|v names IH]; intros this; simpl; [done|].
  destruct (as_string v) as [s|]; [|done].
  etrans; [|apply IH]. rewrite register_registered. set_solver.
Qed.

Lemma setup_loop_registered_from names this event :
  event ∈ registeredEvents (setup_loop names this).2 →
  event ∈ registeredEvents this ∨ VString event ∈ names.
Proof.
  revert this. induction names as [|v names IH]; intros this; simpl; [by left|].
  destruct (as_string v) as [s|] eqn:Hs; [|by left].
  intros [H|H]%IH.
  - rewrite register_registered in H. apply elem_of_union in H as [H|H]; [|by left].
    right. apply elem_of_singleton in H as ->. destruct v; try done.
    injection Hs as ->. apply list_elem_of_here.
  - right. by apply list_elem_of_further.
Qed.

Lemma perform_registry (o : op) (w : world) :
  (∀ eventNames, o ≠ Setup eventNames) → o ≠ Reset →
  registeredEvents (bus (perform o w).2) = registeredEvents (bus w).
Proof.
  intros Hs Hr. unfold perform. destruct o as [v|e c|e c|e c|e| |t]; cbn [fst snd].
  - by destruct (Hs v).
  - unfold subscribe. case_decide; [|done]. destruct (as_function c); [|done].
    by destruct (events (bus w) !! e).
  - unfold once, subscribe. case_decide; [|done]. destruct (as_function c); [|done].
    cbn [as_function]. by destruct (events (bus w) !! e).
  - unfold unsubscribe. destruct (events (bus w) !! e); [|done]. by destruct c.
  - unfold clear. by destruct (events (bus w) !! e).
  - done.
  - unfold invoke_token, unsubscribe. by destruct (events (bus w) !! tok_event t).
Qed.

(** X11: no method but [reset] takes an event out of the registry, and no
    method but [setup] puts one in: an event that is registered after a
    call and was not before is a string of the array that [setup] was
    called with. *)
Theorem only_reset_unregisters (o : op) (w : world) :
  (o ≠ Reset → registeredEvents (bus w) ⊆ registeredEvents (bus (perform o w).2))
  ∧ ((∀ eventNames, o ≠ Setup eventNames) → o ≠ Reset →
     registeredEvents (bus (perform o w).2) = registeredEvents (bus w))
  ∧ (∀ event, event ∈ registeredEvents (bus (perform o w).2) →
       event ∉ registeredEvents (bus w) →
       ∃ elems, o = Setup (VArray elems) ∧ VString event ∈ elems).
Proof.
  assert (Hcase : (∃ v, o = Setup v) ∨ o = Reset
                  ∨ ((∀ v, o ≠ Setup v) ∧ o ≠ Reset)).
  { destruct o; eauto; right; right; by split. }
  destruct Hcase as [[v ->]|[->|[Hs Hr]]].
  - assert (Hb : bus (perform (Setup v) w).2 = (setup v (bus w)).2).
    { unfold perform. by destruct (setup v (bus w)). }
    rewrite Hb. split_and!.
    + intros _. destruct v; try done; apply setup_loop_registered.
    + intros H. by destruct (H v).
    + intros event Hin Hnin. destruct v as [| | | | | |elems]; try done.
      apply setup_loop_registered_from in Hin as [?|?]; [done|eauto].
  - split_and!; try done; intros event Hin; by apply elem_of_empty in Hin.
  - rewrite perform_registry by done. split_and!; done.
Qed.

End BusMore.

(** * The class is a singleton *)

Section Singleton.

Lemma one_instance_new_realm : one_instance new_realm.
Proof. reflexivity. Qed.

Lemma call_method_frame {A} (m : method A) this r c r' :
  call_method m this r = Some (c, r') →
  ∃ b, objects r !! this = Some b
       ∧ c = (m b).1
       ∧ Events_instance r' = Events_instance r
       ∧ objects r' = <[this := (m b).2]> (objects r)
       ∧ created r' = created r.
Proof.
  unfold call_method. destruct (objects r !! this) as [b|] eqn:Hb; simpl; [|done].
  destruct (m b) as [c' b'] eqn:Hm. intros [= <- <-]. exists b. rewrite Hm. by split_and!.
Qed.

Lemma one_instance_step r r' : realm_step r r' → one_instance r → one_instance r'.
Proof.
  intros H Hs. destruct H as [r|A m this r c r' Hcall].
  - unfold one_instance, constructor in *.
    destruct (Events_instance r) as [i|]; simpl; [done|].
    rewrite dom_insert_L, Hs, dom_empty_L. set_solver.
  - apply call_method_frame in Hcall as (b & Hb & _ & Hi & Ho & _).
    unfold one_instance in *. rewrite Hi, Ho.
    destruct (Events_instance r) as [i|].
    + rewrite dom_insert_L, Hs.
      assert (this ∈ dom (objects r)) by (apply elem_of_dom; eauto). set_solver.
    + rewrite Hs in Hb. by rewrite lookup_empty in Hb.
Qed.

Lemma one_instance_steps r r' : rtc realm_step r r' → one_instance r → one_instance r'.
Proof. induction 1; eauto using one_instance_step. Qed.

Lemma instance_step r r' i :
  realm_step r r' → Events_instance r = Some i → Events_instance r' = Some i.
Proof.
  intros H Hi. destruct H as [r|A m this r c r' Hcall].
  - unfold constructor. by rewrite Hi.
  - apply call_method_frame in Hcall as (b & _ & _ & -> & _). done.
Qed.

Lemma instance_steps r r' i :
  rtc realm_step r r' → Events_instance r = Some i → Events_instance r' = Some i.
Proof. induction 1; eauto using instance_step. Qed.

Lemma constructor_instance r : Events_instance (constructor r).2 = Some (constructor r).1.
Proof. unfold constructor. by destruct (Events_instance r). Qed.

(** X12: the class is a singleton.  For every realm reached by constructing
    and by calling methods, [new Events()] returns a reference to an
    initialised object, and at every later time [new Events()] returns the
    same reference and leaves the object's state as it is, whatever was
    called in between, [reset] included; there is never a second [Events]
    object.  Only the first [new] initialises: with [Events.instance] set
    the constructor returns it and changes nothing. *)
Theorem Events_is_a_singleton r r' :
  rtc realm_step new_realm r →
  rtc realm_step (constructor r).2 r' →
  (constructor r').1 = (constructor r).1
  ∧ objects (constructor r').2 = objects r'
  ∧ dom (objects r') = {[(constructor r).1]}
  ∧ is_Some (objects r' !! (constructor r).1)
  ∧ (∀ i, Events_instance r = Some i →
       (constructor r).1 = i ∧ objects (constructor r).2 = objects r)
  ∧ (Events_instance r = None →
       objects (constructor r).2 !! (constructor r).1 = Some new_Events).
Proof.
  intros Hr Hr'.
  pose proof (instance_steps _ _ _ Hr' (constructor_instance r)) as Hi.
  assert (Hs : one_instance r').
  { eapply one_instance_steps; [done|].
    apply (one_instance_step r _ (realm_new r)).
    eapply one_instance_steps; [done|]. apply one_instance_new_realm. }
  assert (Hdom : dom (objects r') = {[(constructor r).1]}).
  { unfold one_instance in Hs. by rewrite Hi in Hs. }
  split_and!.
  - unfold constructor at 1. by rewrite Hi.
  - unfold constructor at 1. by rewrite Hi.
  - done.
  - apply elem_of_dom. rewrite Hdom. set_solver.
  - intros i Hri. unfold constructor. by rewrite Hri.
  - intros Hri. unfold constructor. rewrite Hri. simpl. by rewrite lookup_insert_eq.
Qed.

(** X13: the exported functions act on the singleton.  Once the module is
    loaded, every [new Events()] evaluates to the module's [events], and
    calling a method on the new instance gives the completion and the
    object state that the exported function of the same name gives. *)
Theorem exports_act_on_the_singleton {A} (x : export A) r m r1 r2 :
  rtc realm_step new_realm r →
  load_module r = (m, r1) →
  rtc realm_step r1 r2 →
  (constructor r2).1 = module_events m
  ∧ ∃ b, objects r2 !! module_events m = Some b
      ∧ ∃ ra rb,
          call_export m x r2 = Some ((forwarded x b).1, ra)
          ∧ call_method (forwarded x) (constructor r2).1 (constructor r2).2
            = Some ((forwarded x b).1, rb)
          ∧ objects ra = {[module_events m := (forwarded x b).2]}
          ∧ objects rb = objects ra.
Proof.
  intros Hr Hload Hr2. unfold load_module in Hload.
  destruct (constructor r) as [this r0] eqn:Hnew. injection Hload as <- <-.
  cbn [module_events].
  assert (Hthis : this = (constructor r).1) by (by rewrite Hnew).
  assert (Hr0 : r0 = (constructor r).2) by (by rewrite Hnew).
  subst r0.
  pose proof (instance_steps _ _ _ Hr2 (constructor_instance r)) as Hi.
  rewrite <- Hthis in Hi.
  assert (Hs : one_instance r2).
  { eapply one_instance_steps; [done|].
    apply (one_instance_step r _ (realm_new r)).
    eapply one_instance_steps; [done|]. apply one_instance_new_realm. }
  unfold one_instance in Hs. rewrite Hi in Hs.
  assert (is_Some (objects r2 !! this)) as [b Hb].
  { apply elem_of_dom. rewrite Hs. set_solver. }
  assert (Hnew2 : constructor r2
                  = (this, {| Events_instance := Some this; objects := objects r2;
                              created := S (created r2) |})).
  { unfold constructor. by rewrite Hi. }
  rewrite Hnew2. cbn [fst snd]. split; [done|]. exists b. split; [done|].
  unfold call_export, call_method. cbn [module_events objects]. rewrite Hb. simpl.
  destruct (forwarded x b) as [c b'] eqn:Hm. cbn [fst snd].
  eexists _, _. split_and!; [done|done| |done].
  cbn [objects]. apply map_eq. intros l.
  destruct (decide (l = this)) as [->|Hne].
  - by rewrite lookup_insert_eq, lookup_singleton_eq.
  - rewrite lookup_insert_ne, lookup_singleton_ne by done.
    apply not_elem_of_dom. rewrite Hs. set_solver.
Qed.

(** The unit test "singleton pattern works". *)
Example test_singleton :
  match call_method (setup (VArray [VString "testEvent"]))
          (constructor new_realm).1 (constructor new_realm).2 with
  | Some (_, r) =>
      (constructor r).1 = (constructor new_realm).1
      ∧ (b ← objects (constructor r).2 !! (constructor r).1;
         Some (bool_decide ("testEvent" ∈ registeredEvents b))) = Some true
  | None => False
  end.
Proof. vm_compute. done. Qed.

End Singleton.

(** * More about emissions *)

Section EmitMore.

Variable behaviour : nat → list value → world → script.

Lemma emit_no_entry invoke event args w :
  events (bus w) !! event = None →
  emit invoke event args w
  = Some (Normal (Promise (emitted w)), begin_emission (mkEmission event args None [] false) w).
Proof. intros H. unfold emit. by rewrite H. Qed.

Lemma emit_no_subscribers invoke event args w :
  events (bus w) !! event = Some [] →
  emit invoke event args w
  = Some (Normal (Promise (emitted w)),
          begin_emission (mkEmission event args (Some []) [] false) w).
Proof. intros H. unfold emit. by rewrite H. Qed.

Lemma unregistered_no_entry w event :
  wf w → event ∉ registeredEvents (bus w) → events (bus w) !! event = None.
Proof.
  intros Hwf H. destruct (wf_bus _ Hwf) as [Hdom _].
  apply not_elem_of_dom. by rewrite Hdom.
Qed.

(** What [emit] leaves when it has nobody to call: the record of the
    emission, with no arrow, and nothing else. *)
Lemma emit_inert invoke event args w :
  wf w →
  events (bus w) !! event = None ∨ events (bus w) !! event = Some [] →
  ∃ em,
    emit invoke event args w
    = Some (Normal (Promise (emitted w)), begin_emission em w)
    ∧ em = mkEmission event args (events (bus w) !! event) [] false
    ∧ invocations_by (emitted w) (begin_emission em w) = [].
Proof.
  intros Hwf H.
  assert (Hinv : ∀ em, invocations_by (emitted w) (begin_emission em w) = []).
  { intros em.
    change (invocations_by (emitted w) (begin_emission em w))
      with (invocations_by (emitted w) w).
    by rewrite (wf_calls _ Hwf), (wf_fresh _ Hwf). }
  destruct H as [H|H]; rewrite H.
  - eexists. rewrite emit_no_entry by done. by split_and!.
  - eexists. rewrite emit_no_subscribers by done. by split_and!.
Qed.

(** An [emit] that passed its guard with an empty snapshot waits for
    nothing but its own continuation. *)
Lemma resume_emit_no_subscribers event args w :
  ∃ w1 em1,
    resume_emit (emitted w)
      (begin_emission (mkEmission event args (Some []) [] false) w) = Some w1
    ∧ emissions w1 !! emitted w = Some em1
    ∧ emit_promise em1 = Some Fulfilled
    ∧ em_arrows em1 = []
    ∧ bus w1 = bus w ∧ calls w1 = calls w ∧ console w1 = console w.
Proof.
  eexists _, _. split_and!.
  - unfold resume_emit. cbn [begin_emission emissions]. rewrite lookup_insert_eq.
    reflexivity.
  - cbn [set_emissions emissions]. apply lookup_insert_eq.
  - reflexivity.
  - reflexivity.
  - reflexivity.
  - reflexivity.
  - reflexivity.
Qed.

(** X14: in a well-formed world, [emit] for an event that is not
    registered, or that has no subscribers, returns at once, whatever
    calling a function would do and with no fuel at all: no handler is
    called, nothing is logged, and the bus is as it was.  For an event
    that is not registered [emit] returns at its guard, and the promise it
    returns is fulfilled by then.  For a registered event without
    subscribers it passes the guard and awaits [Promise.all] of no
    promises: its promise is pending when it returns, and is fulfilled
    when [emit] resumes, for which nothing else has to happen and which
    calls nobody either. *)
Theorem emit_without_subscribers_is_inert invoke event args w :
  wf w →
  event ∉ registeredEvents (bus w) ∨ events (bus w) !! event = Some [] →
  ∃ em,
    emit invoke event args w
    = Some (Normal (Promise (emitted w)), begin_emission em w)
    ∧ emissions (begin_emission em w) !! emitted w = Some em
    ∧ em_event em = event ∧ em_args em = args ∧ em_arrows em = []
    ∧ invocations_by (emitted w) (begin_emission em w) = []
    ∧ bus (begin_emission em w) = bus w
    ∧ calls (begin_emission em w) = calls w
    ∧ console (begin_emission em w) = console w
    ∧ (event ∉ registeredEvents (bus w) → emit_promise em = Some Fulfilled)
    ∧ (events (bus w) !! event = Some [] →
       emit_promise em = None
       ∧ ∃ w1 em1,
           resume_emit (emitted w) (begin_emission em w) = Some w1
           ∧ emissions w1 !! emitted w = Some em1
           ∧ emit_promise em1 = Some Fulfilled
           ∧ em_arrows em1 = []
           ∧ bus w1 = bus w ∧ calls w1 = calls w ∧ console w1 = console w).
Proof.
  intros Hwf H.
  destruct (emit_inert invoke event args w Hwf) as (em & Hrun & Hem & Hi).
  { destruct H as [H|H]; [left; by apply unregistered_no_entry | by right]. }
  exists em. subst em. split_and!; try done.
  - simpl. by rewrite lookup_insert_eq.
  - intros Hun. by rewrite (unregistered_no_entry _ _ Hwf Hun).
  - intros He. rewrite He. split; [done|]. apply resume_emit_no_subscribers.
Qed.

(** X15: after [clear(event)], and after [reset()], [emit(event)] calls
    nobody, and the calls and the console are as they were before.  After
    [reset()], and after [clear] of an event without an entry, [emit]
    returns at its guard with its promise fulfilled.  After [clear] of an
    event with an entry it passes the guard with an empty snapshot: its
    promise is pending when it returns and is fulfilled when [emit]
    resumes, for which nothing else has to happen. *)
Theorem emit_after_clear_or_reset_calls_nobody invoke (o : op) event args w :
  wf w → o = Clear event ∨ o = Reset →
  ∃ em,
    emit invoke event args (perform o w).2
    = Some (Normal (Promise (emitted w)), begin_emission em (perform o w).2)
    ∧ em_arrows em = []
    ∧ invocations_by (emitted w) (begin_emission em (perform o w).2) = []
    ∧ calls (begin_emission em (perform o w).2) = calls w
    ∧ console (begin_emission em (perform o w).2) = console w
    ∧ (o = Reset ∨ events (bus w) !! event = None →
       emit_promise em = Some Fulfilled)
    ∧ (o = Clear event → is_Some (events (bus w) !! event) →
       emit_promise em = None
       ∧ ∃ w1 em1,
           resume_emit (emitted w) (begin_emission em (perform o w).2) = Some w1
           ∧ emissions w1 !! emitted w = Some em1
           ∧ emit_promise em1 = Some Fulfilled
           ∧ em_arrows em1 = []
           ∧ calls w1 = calls w ∧ console w1 = console w).
Proof.
  intros Hwf Ho.
  pose proof (wf_perform o w Hwf) as Hwf1.
  assert (Hfr : emitted (perform o w).2 = emitted w ∧ calls (perform o w).2 = calls w
                ∧ console (perform o w).2 = console w).
  { destruct Ho as [-> | ->]; unfold perform; simpl; [|done].
    by destruct (clear event (bus w)). }
  destruct Hfr as (He & Hc & Hco).
  assert (Hl : events (bus (perform o w).2) !! event
               = match o with
                 | Reset => None
                 | _ => match events (bus w) !! event with
                        | Some _ => Some []
                        | None => None
                        end
                 end).
  { destruct Ho as [-> | ->]; unfold perform.
    - unfold clear. destruct (events (bus w) !! event) eqn:Hl; cbn [snd bus set_bus events].
      + by rewrite lookup_insert_eq.
      + done.
    - cbn [snd bus set_bus events reset]. apply lookup_empty. }
  destruct (emit_inert invoke event args (perform o w).2 Hwf1) as (em & Hrun & Hem & Hi).
  { rewrite Hl. destruct Ho as [-> | ->]; [|by left].
    destruct (events (bus w) !! event); [by right|by left]. }
  rewrite He in *. exists em. subst em. rewrite Hl in Hrun, Hi |- *.
  split_and!; try done.
  - intros [-> | Hno]; [done|]. destruct Ho as [-> | ->]; [|done]. by rewrite Hno.
  - intros -> [l Hsome]. rewrite Hsome. split; [done|].
    destruct (resume_emit_no_subscribers event args (perform (Clear event) w).2)
      as (w1 & em1 & H1 & H2 & H3 & H4 & _ & H5 & H6).
    rewrite He in *. exists w1, em1. split_and!; try done; congruence.
Qed.

Lemma perform_unsubscribe event f w :
  perform (Unsubscribe event (VFunction f)) w
  = (Normal Undefined, set_bus (unsubscribe event (VFunction f) (bus w)).2 w).
Proof.
  unfold perform. destruct (unsubscribe event (VFunction f) (bus w)) as [c b] eqn:H.
  assert (c = Normal tt) as ->; [|done].
  change c with (c, b).1. rewrite <- H. unfold unsubscribe.
  by destruct (events (bus w) !! event).
Qed.

Lemma perform_invoke_token t w :
  perform (Invoke t) w = perform (Unsubscribe (tok_event t) (VFunction (tok_callback t))) w.
Proof. reflexivity. Qed.

(** What an emission calls, now and later, read off the subscriber set at
    the call. *)
Lemma emit_calls w event args subscribers :
  wf w → halts behaviour → events (bus w) !! event = Some subscribers →
  ∃ fuel w',
    emit (invoke behaviour fuel) event args w = Some (Normal (Promise (emitted w)), w')
    ∧ ∀ w'', rtc (step behaviour) w' w'' →
        invocations_by (emitted w) w'' = (λ g, (g, args)) <$> subscribers.
Proof.
  intros Hwf Hhalts He.
  destruct (emit_returns behaviour w event args subscribers Hwf Hhalts He)
    as (fuel & w' & arrows & Hrun & Hwf' & Hlt & Hs & Hinv & Hst & Hem).
  exists fuel, w'. split; [done|]. intros w'' Hsteps.
  destruct (emission_later behaviour _ _ _ _ Hwf' Hlt Hem Hsteps) as (_ & -> & _).
  done.
Qed.

Lemma callees_of_dispatch (args : list value) (l : list fn) :
  (λ c, c.1) <$> ((λ g, (g, args)) <$> l) = l.
Proof. induction l as [|g l IH]; [done|]. rewrite !fmap_cons, IH. done. Qed.


Lemma subscribe_all_spec event (callbacks subscribers : list fn) w :
  wf w → event ∈ registeredEvents (bus w) →
  events (bus w) !! event = Some subscribers →
  NoDup callbacks → (∀ f, f ∈ callbacks → f ∉ subscribers) →
  wf (subscribe_all event callbacks w)
  ∧ emitted (subscribe_all event callbacks w) = emitted w
  ∧ events (bus (subscribe_all event callbacks w)) !! event
    = Some (subscribers ++ callbacks).
Proof.
  revert w subscribers. induction callbacks as [|f callbacks IH];
    intros w subscribers Hwf Hreg He Hnd Hnew.
  - unfold subscribe_all. simpl. by rewrite app_nil_r.
  - apply NoDup_cons in Hnd as [Hf Hnd].
    assert (Hp : perform (Subscribe event (VFunction f)) w
                 = (Normal (Token (mkToken event f)),
                    set_bus {| events := <[event := subscribers ++ [f]]> (events (bus w));
                               registeredEvents := registeredEvents (bus w) |} w)).
    { unfold perform. rewrite (subscribe_registered _ _ _ subscribers) by done.
      unfold Set_add. rewrite decide_False; [done|]. apply Hnew, list_elem_of_here. }
    pose proof (wf_perform (Subscribe event (VFunction f)) w Hwf) as Hwf1.
    unfold subscribe_all in *. simpl. rewrite Hp in *. cbn [snd] in *.
    destruct (IH _ (subscribers ++ [f]) Hwf1) as (Hwf2 & Hem & He2).
    + done.
    + cbn [bus set_bus events]. by rewrite lookup_insert_eq.
    + done.
    + intros g Hg [Hin| ->%list_elem_of_singleton]%elem_of_app; [|done].
      by apply (Hnew g); [apply list_elem_of_further|].
    + split_and!; [done|done|]. rewrite He2. by rewrite <- app_assoc.
Qed.

(** X17: handlers run in subscription order.  After new handlers have been
    subscribed to an event one by one, [emit] calls the handlers that were
    subscribed before, in their order, and then the new ones in the order
    in which they were subscribed. *)
Theorem handlers_run_in_subscription_order w event args subscribers callbacks :
  wf w → halts behaviour →
  events (bus w) !! event = Some subscribers →
  NoDup callbacks → (∀ f, f ∈ callbacks → f ∉ subscribers) →
  ∃ fuel w',
    emit (invoke behaviour fuel) event args (subscribe_all event callbacks w)
    = Some (Normal (Promise (emitted w)), w')
    ∧ ∀ w'', rtc (step behaviour) w' w'' →
        invocations_by (emitted w) w''
        = (λ g, (g, args)) <$> (subscribers ++ callbacks).
Proof.
  intros Hwf Hhalts He Hnd Hnew.
  assert (Hreg : event ∈ registeredEvents (bus w)).
  { destruct (wf_bus _ Hwf) as [<- _]. apply elem_of_dom. eauto. }
  destruct (subscribe_all_spec event callbacks subscribers w Hwf Hreg He Hnd Hnew)
    as (Hwf1 & Hem & He1).
  destruct (emit_calls _ event args _ Hwf1 Hhalts He1) as (fuel & w' & Hrun & Hlater).
  rewrite Hem in *. eauto.
Qed.


Lemma wraps_refl f : wraps f f.
Proof. destruct f; simpl; by left. Qed.

Lemma times_called_prefix f w w' :
  calls w `prefix_of` calls w' → times_called f w ≤ times_called f w'.
Proof.
  intros [rest Hrest]. unfold times_called. rewrite Hrest, filter_app, length_app. lia.
Qed.

Lemma invoke_times_called fuel g args w o w' f :
  invoke behaviour fuel g args w = Some (o, w') →
  times_called f w ≤ times_called f w'.
Proof.
  intros H. apply invoke_changes, prims_frame in H as (_ & _ & H & _).
  by apply times_called_prefix.
Qed.

(** Calling a wrapper around [f] ends up calling [f]. *)
Lemma invoke_wrapped f g : ∀ fuel args w o w',
  wraps f g → g ≠ f →
  invoke behaviour fuel g args w = Some (o, w') →
  S (times_called f w) ≤ times_called f w'.
Proof.
  induction g as [u|id event callback IH]; intros fuel args w o w' Hw Hne Hrun.
  - by destruct Hw.
  - destruct Hw as [?|Hw]; [done|].
    destruct fuel as [|fuel]; [done|]. rewrite invoke_S in Hrun.
    set (w1 := (perform (Unsubscribe event (VFunction (Wrapper id event callback))) w).2)
      in *.
    destruct (invoke behaviour fuel callback args _) as [[o1 w2]|] eqn:H1;
      simpl in Hrun; [|done].
    injection Hrun as _ <-.
    assert (E : times_called f w1 = times_called f w).
    { unfold times_called, w1.
      by destruct (perform_frame
                     (Unsubscribe event (VFunction (Wrapper id event callback))) w)
        as (_ & _ & _ & _ & -> & _). }
    destruct (decide (callback = f)) as [->|Hcb].
    + apply (invoke_times_called _ _ _ _ _ _ f) in H1.
      rewrite times_called_log, decide_True in H1 by done. lia.
    + apply (IH fuel args _ o1 w2 Hw Hcb) in H1.
      rewrite times_called_log, decide_False in H1 by done. lia.
Qed.

Lemma invoke_wrapper_logs fuel id event callback args w o w' :
  invoke behaviour fuel (Wrapper id event callback) args w = Some (o, w') →
  mkInvocation (ByWrapper id) callback args ∈ calls w'.
Proof.
  destruct fuel as [|fuel]; [done|]. rewrite invoke_S.
  destruct (invoke behaviour fuel callback args _) as [[o1 w2]|] eqn:H1; simpl; [|done].
  intros [= _ <-].
  apply invoke_changes, prims_frame in H1 as (_ & _ & [rest ->] & _).
  apply elem_of_app. left. simpl. apply elem_of_app. right. apply list_elem_of_here.
Qed.

Lemma start_arrow_times_called fuel k i event args g w w' f :
  start_arrow (invoke behaviour fuel) k i event args g w = Some w' →
  times_called f w + (if decide (wraps f g) then 1 else 0) ≤ times_called f w'
  ∧ calls w `prefix_of` calls w'
  ∧ ∀ id ev callback, g = Wrapper id ev callback →
      mkInvocation (ByWrapper id) callback args ∈ calls w'.
Proof.
  unfold start_arrow.
  destruct (invoke behaviour fuel g args _) as [[o w1]|] eqn:H1; simpl; [|done].
  intros [= <-].
  destruct (end_arrow_frame k i event o w1) as (_ & _ & _ & Ec & _).
  assert (Eb : times_called f (begin_arrow k g args w)
               = times_called f w + (if decide (g = f) then 1 else 0)).
  { unfold begin_arrow.
    change (times_called f (update_arrows k _ ?w0)) with (times_called f w0).
    apply times_called_log. }
  assert (Et : times_called f (end_arrow k i event o w1) = times_called f w1).
  { unfold times_called. by rewrite Ec. }
  split_and!.
  - rewrite Et. destruct (decide (wraps f g)) as [Hw|Hw].
    + destruct (decide (g = f)) as [->|Hne].
      * apply (invoke_times_called _ _ _ _ _ _ f) in H1.
        rewrite Eb in H1. lia.
      * apply (invoke_wrapped f g _ _ _ _ _ Hw Hne) in H1.
        rewrite Eb in H1. lia.
    + apply (invoke_times_called _ _ _ _ _ _ f) in H1. rewrite Eb in H1. lia.
  - rewrite Ec. apply invoke_changes, prims_frame in H1 as (_ & _ & H1 & _).
    etrans; [|exact H1]. unfold begin_arrow. simpl. by apply prefix_app_r.
  - intros id ev callback ->. rewrite Ec. by eapply invoke_wrapper_logs.
Qed.

Lemma start_arrows_times_called fuel k event args f snapshot : ∀ i w w',
  start_arrows (invoke behaviour fuel) k i event args snapshot w = Some w' →
  times_called f w + length (filter (wraps f) snapshot) ≤ times_called f w'
  ∧ calls w `prefix_of` calls w'
  ∧ ∀ id ev callback, Wrapper id ev callback ∈ snapshot →
      mkInvocation (ByWrapper id) callback args ∈ calls w'.
Proof.
  induction snapshot as [|g rest IH]; intros i w w' Hrun; simpl in Hrun.
  - injection Hrun as <-. simpl. split_and!; [lia|done|].
    by intros ??? ?%elem_of_nil.
  - destruct (start_arrow _ _ _ _ _ _ _) as [w1|] eqn:H1; simpl in Hrun; [|done].
    apply (start_arrow_times_called _ _ _ _ _ _ _ _ f) in H1 as (Ht1 & Hp1 & Hl1).
    apply IH in Hrun as (Ht2 & Hp2 & Hl2).
    split_and!.
    + rewrite filter_cons. destruct (decide (wraps f g)); simpl; lia.
    + by etrans.
    + intros id ev callback [Hg|Hin]%elem_of_cons; [|by eapply Hl2].
      destruct Hp2 as [more ->]. apply elem_of_app. left. by eapply Hl1.
Qed.


Lemma perform_once_fresh event f w subscribers :
  wf w → events (bus w) !! event = Some subscribers →
  Wrapper (allocated w) event f ∉ subscribers →
  perform (Once event (VFunction f)) w
  = (Normal (Token (mkToken event (Wrapper (allocated w) event f))),
     allocate (set_bus
       {| events := <[event := subscribers ++ [Wrapper (allocated w) event f]]>
                      (events (bus w));
          registeredEvents := registeredEvents (bus w) |} w)).
Proof.
  intros Hwf He Hfresh.
  assert (Hreg : event ∈ registeredEvents (bus w)).
  { destruct (wf_bus _ Hwf) as [<- _]. apply elem_of_dom. eauto. }
  unfold perform, once. rewrite decide_True by done. cbn [as_function].
  rewrite (subscribe_registered _ _ _ subscribers) by done.
  unfold Set_add. by rewrite decide_False.
Qed.

(** X18: [once] does not deduplicate.  Two calls of [once(event, f)]
    allocate two wrappers and subscribe both, so that one [emit(event)]
    calls [f] through each of them: at least twice. *)
Theorem once_twice_calls_twice w event f args subscribers :
  wf w → halts behaviour →
  events (bus w) !! event = Some subscribers →
  Wrapper (allocated w) event f ∉ subscribers →
  Wrapper (S (allocated w)) event f ∉ subscribers →
  ∃ w1 w2,
    perform (Once event (VFunction f)) w
    = (Normal (Token (mkToken event (Wrapper (allocated w) event f))), w1)
    ∧ perform (Once event (VFunction f)) w1
      = (Normal (Token (mkToken event (Wrapper (S (allocated w)) event f))), w2)
    ∧ events (bus w2) !! event
      = Some (subscribers ++ [Wrapper (allocated w) event f;
                              Wrapper (S (allocated w)) event f])
    ∧ ∃ fuel w',
        emit (invoke behaviour fuel) event args w2
        = Some (Normal (Promise (emitted w)), w')
        ∧ times_called f w + 2 ≤ times_called f w'
        ∧ mkInvocation (ByWrapper (allocated w)) f args ∈ calls w'
        ∧ mkInvocation (ByWrapper (S (allocated w))) f args ∈ calls w'.
Proof.
  intros Hwf Hhalts He Hf1 Hf2.
  set (W1 := Wrapper (allocated w) event f) in *.
  set (W2 := Wrapper (S (allocated w)) event f) in *.
  pose proof (perform_once_fresh event f w subscribers Hwf He Hf1) as Hp1.
  fold W1 in Hp1.
  set (w1 := allocate (set_bus _ w)) in Hp1.
  assert (Hwf1 : wf w1).
  { pose proof (wf_perform (Once event (VFunction f)) w Hwf) as H.
    by rewrite Hp1 in H. }
  assert (He1 : events (bus w1) !! event = Some (subscribers ++ [W1])).
  { unfold w1. cbn [bus allocate set_bus events]. by rewrite lookup_insert_eq. }
  assert (Hf2' : Wrapper (allocated w1) event f ∉ subscribers ++ [W1]).
  { change (allocated w1) with (S (allocated w)). fold W2.
    intros [?|Heq%list_elem_of_singleton]%elem_of_app; [done|].
    unfold W1, W2 in Heq. injection Heq as Heq. lia. }
  pose proof (perform_once_fresh event f w1 _ Hwf1 He1 Hf2') as Hp2.
  change (allocated w1) with (S (allocated w)) in Hp2. fold W2 in Hp2.
  set (w2 := allocate (set_bus _ w1)) in Hp2.
  assert (Hwf2 : wf w2).
  { pose proof (wf_perform (Once event (VFunction f)) w1 Hwf1) as H.
    by rewrite Hp2 in H. }
  assert (He2 : events (bus w2) !! event = Some (subscribers ++ [W1; W2])).
  { unfold w2. cbn [bus allocate set_bus events]. rewrite lookup_insert_eq.
    by rewrite <- app_assoc. }
  exists w1, w2. split_and!; [done..|].
  destruct (emit_total behaviour Hhalts event args w2) as (fuel & r & w' & Hrun).
  pose proof (emit_result _ _ _ _ _ _ Hrun) as ->.
  exists fuel, w'. split; [exact Hrun|].
  unfold emit in Hrun. rewrite He2 in Hrun.
  destruct (start_arrows _ _ _ _ _ _ _) as [w3|] eqn:Hsa; simpl in Hrun; [|done].
  injection Hrun as <-.
  apply (start_arrows_times_called _ _ _ _ f) in Hsa as (Ht & _ & Hlog).
  split_and!.
  - etrans; [|exact Ht].
    change (times_called f (begin_emission _ w2)) with (times_called f w).
    apply Nat.add_le_mono_l. rewrite filter_app, length_app.
    assert (HW1 : wraps f W1) by (simpl; right; apply wraps_refl).
    assert (HW2 : wraps f W2) by (simpl; right; apply wraps_refl).
    rewrite filter_cons_True, filter_cons_True by done. simpl. lia.
  - apply Hlog with event. apply elem_of_app. right. apply list_elem_of_here.
  - apply Hlog with event. apply elem_of_app. right.
    apply list_elem_of_further, list_elem_of_here.
Qed.

End EmitMore.

(** * What an emission does to the bus *)

Section EmitFrame.

Variable behaviour : nat → list value → world → script.

Hypothesis behaviour_quiet : ∀ u args w, script_ok no_op (behaviour u args w).

Lemma only_wrappers_left_refl b : only_wrappers_left b b.
Proof.
  split; [done|]. intros x. destruct (events b !! x); [|done].
  split; [done|]. by intros f ??.
Qed.

Lemma only_wrappers_left_trans b1 b2 b3 :
  only_wrappers_left b1 b2 → only_wrappers_left b2 b3 → only_wrappers_left b1 b3.
Proof.
  intros [Hr1 H1] [Hr2 H2]. split; [congruence|]. intros x.
  specialize (H1 x). specialize (H2 x).
  destruct (events b1 !! x) as [l1|], (events b2 !! x) as [l2|],
    (events b3 !! x) as [l3|]; try done.
  destruct H1 as [S1 W1], H2 as [S2 W2]. split; [by etrans|].
  intros f Hf Hnf. destruct (decide (f ∈ l2)) as [Hin|Hnin]; eauto.
Qed.

Lemma wrapper_leaves id event callback w :
  only_wrappers_left (bus w)
    (bus (perform (Unsubscribe event (VFunction (Wrapper id event callback))) w).2).
Proof.
  unfold perform, unsubscribe.
  destruct (events (bus w) !! event) as [l|] eqn:Hl; cbn [snd bus set_bus];
    [|apply only_wrappers_left_refl].
  split; [done|]. intros x. cbn [events].
  destruct (decide (event = x)) as [<-|Hne].
  - rewrite lookup_insert_eq, Hl. split; [apply sublist_filter|].
    intros f Hf Hnf. exists id, callback.
    destruct (decide (f = Wrapper id event callback)) as [->|Hne]; [done|].
    destruct Hnf. by apply Set_delete_elem.
  - rewrite lookup_insert_ne by done. destruct (events (bus w) !! x); [|done].
    split; [done|]. by intros f ??.
Qed.

Section Open.

Variable invoke0 : fn → list value → world → option (outcome * world).

Hypothesis invoke0_frame :
  ∀ f args w o w', invoke0 f args w = Some (o, w') →
                   only_wrappers_left (bus w) (bus w').

Lemma start_arrows_bus k event args snapshot : ∀ i w w',
  start_arrows invoke0 k i event args snapshot w = Some w' →
  only_wrappers_left (bus w) (bus w').
Proof.
  induction snapshot as [|g rest IH]; intros i w w' Hrun; simpl in Hrun.
  - injection Hrun as <-. apply only_wrappers_left_refl.
  - destruct (start_arrow _ _ _ _ _ _ _) as [w1|] eqn:H1; simpl in Hrun; [|done].
    apply IH in Hrun. eapply only_wrappers_left_trans; [|exact Hrun].
    unfold start_arrow in H1.
    destruct (invoke0 g args _) as [[o w2]|] eqn:H2; simpl in H1; [|done].
    injection H1 as <-. apply invoke0_frame in H2.
    by rewrite (proj1 (proj2 (end_arrow_frame k i event o w2))).
Qed.

Lemma emit_bus event args w r w' :
  emit invoke0 event args w = Some (r, w') → only_wrappers_left (bus w) (bus w').
Proof.
  unfold emit. destruct (events (bus w) !! event) as [subscribers|].
  - destruct (start_arrows _ _ _ _ _ _ _) as [w1|] eqn:H1; simpl; [|done].
    intros [= _ <-]. by apply start_arrows_bus in H1.
  - intros [= _ <-]. apply only_wrappers_left_refl.
Qed.

Lemma run_bus s w o w' :
  script_ok no_op s → run invoke0 s w = Some (o, w') →
  only_wrappers_left (bus w) (bus w').
Proof.
  intros Hs. revert w.
  induction Hs as [o'|op next Hop _ IH|event args next _ IH]; intros w Hrun;
    simpl in Hrun.
  - injection Hrun as _ <-. apply only_wrappers_left_refl.
  - destruct Hop.
  - destruct (emit invoke0 event args w) as [[r w1]|] eqn:He; simpl in Hrun; [|done].
    apply emit_bus in He. apply IH in Hrun. by eapply only_wrappers_left_trans.
Qed.

End Open.

Lemma invoke_bus fuel : ∀ f args w o w',
  invoke behaviour fuel f args w = Some (o, w') →
  only_wrappers_left (bus w) (bus w').
Proof.
  induction fuel as [|fuel IH]; intros f args w o w' Hrun; [done|].
  rewrite invoke_S in Hrun. destruct f as [u|id event callback].
  - eapply run_bus; [exact IH|apply behaviour_quiet|exact Hrun].
  - destruct (invoke behaviour fuel callback args _) as [[o1 w1]|] eqn:H1;
      simpl in Hrun; [|done].
    injection Hrun as _ <-. apply IH in H1.
    eapply only_wrappers_left_trans; [apply wrapper_leaves|exact H1].
Qed.

(** X19: what an emission does to the bus, when user code calls nothing on
    the bus but [emit]: the registry and the keys of the subscriber map
    stay as they are, no subscriber is added, every plain handler stays
    subscribed, and the only subscribers that leave are wrappers of [once],
    each from the set of its own event. *)
Theorem emit_only_lets_wrappers_go fuel event args w r w' :
  emit (invoke behaviour fuel) event args w = Some (r, w') →
  registeredEvents (bus w') = registeredEvents (bus w)
  ∧ dom (events (bus w')) = dom (events (bus w))
  ∧ ∀ x subscribers,
      events (bus w) !! x = Some subscribers →
      ∃ subscribers',
        events (bus w') !! x = Some subscribers'
        ∧ sublist subscribers' subscribers
        ∧ (∀ u, User u ∈ subscribers → User u ∈ subscribers')
        ∧ ∀ f, f ∈ subscribers → f ∉ subscribers' →
               ∃ id callback, f = Wrapper id x callback.
Proof.
  intros Hrun. apply (emit_bus _ (invoke_bus fuel)) in Hrun as [Hreg H].
  split_and!; [done| |].
  - apply set_eq. intros x. rewrite !elem_of_dom. specialize (H x).
    destruct (events (bus w) !! x), (events (bus w') !! x); try done;
      split; intros [? ?]; done || eauto.
  - intros x l Hl. specialize (H x). rewrite Hl in H.
    destruct (events (bus w') !! x) as [l'|]; [|done]. destruct H as [Hs Hw].
    exists l'. split_and!; [done..| |done].
    intros u Hu. destruct (decide (User u ∈ l')) as [|Hn]; [done|].
    by destruct (Hw _ Hu Hn) as (? & ? & ?).
Qed.

End EmitFrame.

(** * These theorems at work on the sample *)

Section MoreWitnesses.

Lemma sample_bus_consistent : consistent (bus sample_world).
Proof. apply wf_bus, sample_world_wf. Qed.

Lemma sample_registered : "e" ∈ registeredEvents (bus sample_world).
Proof. apply (bool_decide_unpack _). vm_compute. exact I. Qed.

Lemma sample_unregistered : "zzz" ∉ registeredEvents (bus sample_world).
Proof. apply (bool_decide_unpack _). vm_compute. exact I. Qed.

Lemma sample_no_subscribers : events (bus sample_world) !! "d" = Some [].
Proof. vm_compute. reflexivity. Qed.

(** On the sample bus: a number is not a callback. *)
Lemma subscribe_checks_the_event_then_the_callback_witness :
  subscribe "e" (VNumber 1) (bus sample_world)
  = (Throw (Error "Callback must be a function"), bus sample_world).
Proof.
  apply (subscribe_checks_the_event_then_the_callback
           "e" (VNumber 1) (bus sample_world) sample_bus_consistent).
  - exact sample_registered.
  - discriminate.
Defined.

(** On the sample bus: [once] for an event that was never set up. *)
Lemma once_checks_like_subscribe_witness :
  once 0 "zzz" (VFunction (User 0)) (bus sample_world)
  = (Throw (NotRegistered "zzz"), bus sample_world).
Proof.
  apply (once_checks_like_subscribe
           0 "zzz" (VFunction (User 0)) (bus sample_world) sample_bus_consistent).
  exact sample_unregistered.
Defined.

(** On the sample bus: subscribing a new handler and calling the token. *)
Lemma unsubscribe_token_undoes_subscribe_witness :
  invoke_token (mkToken "d" (User 9))
    (subscribe "d" (VFunction (User 9)) (bus sample_world)).2
  = (Normal tt, bus sample_world).
Proof.
  destruct (unsubscribe_token_undoes_subscribe
              "d" (User 9) (bus sample_world) (mkToken "d" (User 9))
              (subscribe "d" (VFunction (User 9)) (bus sample_world)).2)
    as (_ & subscribers & Hl & Hround & _).
  - vm_compute. reflexivity.
  - apply Hround. rewrite sample_no_subscribers in Hl. injection Hl as <-.
    apply not_elem_of_nil.
Defined.

(** On the sample bus: [once("d", f)], then [unsubscribe("d", f)]. *)
Lemma unsubscribing_the_callback_does_not_cancel_once_witness :
  (∃ subscribers',
     events (unsubscribe "d" (VFunction (User 9))
               (once 0 "d" (VFunction (User 9)) (bus sample_world)).2).2 !! "d"
     = Some subscribers'
     ∧ Wrapper 0 "d" (User 9) ∈ subscribers')
  ∧ invoke_token (mkToken "d" (Wrapper 0 "d" (User 9)))
      (once 0 "d" (VFunction (User 9)) (bus sample_world)).2
    = (Normal tt, bus sample_world).
Proof.
  destruct (unsubscribing_the_callback_does_not_cancel_once
              0 "d" (User 9) (bus sample_world) []
              (mkToken "d" (Wrapper 0 "d" (User 9)))
              (once 0 "d" (VFunction (User 9)) (bus sample_world)).2)
    as (_ & Hstill & _ & Htoken).
  - exact sample_no_subscribers.
  - apply not_elem_of_nil.
  - vm_compute. reflexivity.
  - split; [exact Hstill|exact Htoken].
Defined.

(** On the sample bus, where four handlers are subscribed to ["e"]. *)
Lemma clear_is_unsubscribing_everyone_witness :
  (clear "e" (bus sample_world)).2
  = unsubscribe_all "e" [User 0; User 1; User 2; User 4] (bus sample_world).
Proof.
  apply (clear_is_unsubscribing_everyone "e" (bus sample_world)).
  exact sample_subscribers.
Defined.

(** [new Events()], [reset()] on the object, [new Events()] again. *)
Lemma Events_is_a_singleton_witness :
  let r' := {| Events_instance := Some 0;
               objects := <[0 := (reset new_Events).2]> (<[0 := new_Events]> ∅);
               created := 1 |} in
  (constructor r').1 = 0 ∧ objects (constructor r').2 = objects r'.
Proof.
  intros r'.
  destruct (Events_is_a_singleton new_realm r') as (H1 & H2 & _).
  - apply rtc_refl.
  - apply rtc_once.
    apply (realm_call reset 0 (constructor new_realm).2 (Normal tt) r').
    reflexivity.
  - split; [exact H1|exact H2].
Defined.

(** The module is loaded first; [setup] is then called through the export
    and through a new instance. *)
Lemma exports_act_on_the_singleton_witness :
  (constructor (load_module new_realm).2).1
  = module_events (load_module new_realm).1
  ∧ ∃ b ra rb,
      call_export (load_module new_realm).1 (export_setup (VArray [VString "e"]))
        (load_module new_realm).2
      = Some ((setup (VArray [VString "e"]) b).1, ra)
      ∧ call_method (setup (VArray [VString "e"]))
          (constructor (load_module new_realm).2).1
          (constructor (load_module new_realm).2).2
        = Some ((setup (VArray [VString "e"]) b).1, rb)
      ∧ objects rb = objects ra.
Proof.
  destruct (exports_act_on_the_singleton
              (export_setup (VArray [VString "e"])) new_realm
              (load_module new_realm).1 (load_module new_realm).2
              (load_module new_realm).2)
    as (H1 & b & _ & ra & rb & Ha & Hb & _ & Hab).
  - apply rtc_refl.
  - reflexivity.
  - apply rtc_refl.
  - split; [exact H1|]. exists b, ra, rb. split; [exact Ha|]. split; [exact Hb|exact Hab].
Defined.

(** On the sample: ["d"] is registered and has no subscribers; it is
    emitted with no fuel at all. *)
Lemma emit_without_subscribers_is_inert_witness :
  ∃ em w1 em1,
    emit (invoke sample 0) "d" [VNumber 1] sample_world
    = Some (Normal (Promise (emitted sample_world)), begin_emission em sample_world)
    ∧ calls (begin_emission em sample_world) = calls sample_world
    ∧ emit_promise em = None
    ∧ resume_emit (emitted sample_world) (begin_emission em sample_world) = Some w1
    ∧ emissions w1 !! emitted sample_world = Some em1
    ∧ emit_promise em1 = Some Fulfilled.
Proof.
  destruct (emit_without_subscribers_is_inert
              (invoke sample 0) "d" [VNumber 1] sample_world sample_world_wf)
    as (em & Hrun & _ & _ & _ & _ & _ & _ & Hc & _ & _ & Hlater).
  - right. exact sample_no_subscribers.
  - destruct (Hlater sample_no_subscribers)
      as (Hp & w1 & em1 & Hres & Hem1 & Hp1 & _).
    exists em, w1, em1.
    split; [exact Hrun|]. split; [exact Hc|]. split; [exact Hp|].
    split; [exact Hres|]. split; [exact Hem1|exact Hp1].
Defined.

(** On the sample: [clear("e")], then [emit("e")]. *)
Lemma emit_after_clear_or_reset_calls_nobody_witness :
  ∃ em w1 em1,
    emit (invoke sample 0) "e" [] (perform (Clear "e") sample_world).2
    = Some (Normal (Promise (emitted sample_world)),
            begin_emission em (perform (Clear "e") sample_world).2)
    ∧ calls (begin_emission em (perform (Clear "e") sample_world).2)
      = calls sample_world
    ∧ emit_promise em = None
    ∧ resume_emit (emitted sample_world)
        (begin_emission em (perform (Clear "e") sample_world).2) = Some w1
    ∧ emissions w1 !! emitted sample_world = Some em1
    ∧ emit_promise em1 = Some Fulfilled.
Proof.
  destruct (emit_after_clear_or_reset_calls_nobody
              (invoke sample 0) (Clear "e") "e" [] sample_world sample_world_wf)
    as (em & Hrun & _ & _ & Hc & _ & _ & Hlater).
  - left. reflexivity.
  - destruct (Hlater eq_refl) as (Hp & w1 & em1 & Hres & Hem1 & Hp1 & _).
    { rewrite sample_subscribers. eexists. reflexivity. }
    exists em, w1, em1.
    split; [exact Hrun|]. split; [exact Hc|]. split; [exact Hp|].
    split; [exact Hres|]. split; [exact Hem1|exact Hp1].
Defined.


(** On the sample: two more handlers are subscribed to ["e"]. *)
Lemma handlers_run_in_subscription_order_witness :
  ∃ fuel w',
    emit (invoke sample fuel) "e" [] (subscribe_all "e" [User 5; User 6] sample_world)
    = Some (Normal (Promise (emitted sample_world)), w')
    ∧ invocations_by (emitted sample_world) w'
      = [(User 0, []); (User 1, []); (User 2, []); (User 4, []);
         (User 5, []); (User 6, [])].
Proof.
  destruct (handlers_run_in_subscription_order
              sample sample_world "e" [] [User 0; User 1; User 2; User 4]
              [User 5; User 6] sample_world_wf sample_halts sample_subscribers)
    as (fuel & w' & Hrun & Hlater).
  - apply (bool_decide_unpack _). vm_compute. exact I.
  - intros f Hf.
    assert (Hall : Forall (λ g, g ∉ [User 0; User 1; User 2; User 4])
                     [User 5; User 6]).
    { apply (bool_decide_unpack _). vm_compute. exact I. }
    exact (proj1 (Forall_forall _ _) Hall f Hf).
  - exists fuel, w'. split; [exact Hrun|]. exact (Hlater w' (rtc_refl _ _)).
Defined.

(** On the sample: [once("d", f)] twice, then [emit("d")]. *)
Lemma once_twice_calls_twice_witness :
  ∃ w1 w2 fuel w',
    perform (Once "d" (VFunction (User 0))) sample_world
    = (Normal (Token (mkToken "d" (Wrapper (allocated sample_world) "d" (User 0)))), w1)
    ∧ perform (Once "d" (VFunction (User 0))) w1
      = (Normal (Token (mkToken "d" (Wrapper (S (allocated sample_world)) "d" (User 0)))),
         w2)
    ∧ emit (invoke sample fuel) "d" [] w2
      = Some (Normal (Promise (emitted sample_world)), w')
    ∧ times_called (User 0) sample_world + 2 ≤ times_called (User 0) w'.
Proof.
  destruct (once_twice_calls_twice
              sample sample_world "d" (User 0) [] []
              sample_world_wf sample_halts sample_no_subscribers)
    as (w1 & w2 & H1 & H2 & _ & fuel & w' & Hrun & Ht & _).
  - apply not_elem_of_nil.
  - apply not_elem_of_nil.
  - exists w1, w2, fuel, w'.
    split; [exact H1|]. split; [exact H2|]. split; [exact Hrun|exact Ht].
Defined.

Lemma quiet_is_quiet u args w : script_ok no_op (quiet u args w).
Proof. destruct u; simpl; repeat constructor. Qed.

(** On the quiet sample: the wrapper around function 0 fires, function 0
    emits ["d"], whose wrapper fires too; function 1 stays subscribed. *)
Lemma emit_only_lets_wrappers_go_witness :
  match emit (invoke quiet 5) "e" [] quiet_world with
  | Some (_, w') =>
      registeredEvents (bus w') = registeredEvents (bus quiet_world)
      ∧ ∃ subscribers', events (bus w') !! "e" = Some subscribers'
                        ∧ User 1 ∈ subscribers'
  | None => False
  end.
Proof.
  destruct (emit (invoke quiet 5) "e" [] quiet_world) as [[r w']|] eqn:Hrun.
  - destruct (emit_only_lets_wrappers_go quiet quiet_is_quiet 5 "e" [] quiet_world
                r w' Hrun) as (Hreg & _ & Hsub).
    split; [exact Hreg|].
    destruct (Hsub "e" [Wrapper 0 "e" (User 0); User 1]) as (l' & Hl' & _ & Hu & _).
    + vm_compute. reflexivity.
    + exists l'. split; [exact Hl'|]. apply Hu.
      apply list_elem_of_further, list_elem_of_here.
  - vm_compute in Hrun. discriminate.
Defined.

End MoreWitnesses.
